(** * Jobby: the Seek application flow, its answer resolver and the job catalogue

    A shallow embedding of [seek.ts] (the flow controller [applyToSeekJob],
    [answerScreeningQuestions], [findAnswer], [clickButtonByText],
    [searchSeek]) and of the merge step of [index.ts], followed by the
    properties proved about them.

    Conventions of the embedding.
    - JavaScript strings are modelled as [string] restricted to ASCII text:
      [toLowerCase] maps 'A'..'Z' to 'a'..'z' and leaves every other
      character alone, [trim] removes ASCII white space.
    - A plain JavaScript object used as a dictionary is the list of its own
      properties in creation order; [Object_entries] enumerates it the way
      the language does (array-index keys first, in ascending order).
    - The browser page is an abstract world [W] behind the interface
      [Page]; every Playwright call is a transition of that world that may
      reject with an exception.  Scripts handed to [page.evaluate] are run
      on the [Document] the world currently shows. *)

From Stdlib Require Import Ascii String NArith Bool List Lia.
From stdpp Require Import base list strings pretty gmap sets.

Import ListNotations.


(** ** JavaScript strings *)

Module JsString.

(** [String.prototype.toLowerCase] on ASCII text. *)
Definition lower_ascii (c : ascii) : ascii :=
  let n := nat_of_ascii c in
  if (65 <=? n)%nat && (n <=? 90)%nat then ascii_of_nat (n + 32) else c.

Fixpoint toLowerCase (s : string) : string :=
  match s with
  | EmptyString => EmptyString
  | String c r => String (lower_ascii c) (toLowerCase r)
  end.

(** [s.startsWith(p)]. *)
Definition startsWith (s p : string) : bool := String.prefix p s.

(** [s.includes(sub)]: [sub] occurs in [s] as a contiguous substring.
    The empty string occurs in every string. *)
Fixpoint includes (s sub : string) : bool :=
  String.prefix sub s ||
  match s with
  | EmptyString => false
  | String _ r => includes r sub
  end.

(** White space removed by [String.prototype.trim] (ASCII part):
    TAB, LF, VT, FF, CR and SPACE. *)
Definition is_white (c : ascii) : bool :=
  let n := nat_of_ascii c in
  ((9 <=? n)%nat && (n <=? 13)%nat) || (n =? 32)%nat.

Fixpoint trimStart (s : string) : string :=
  match s with
  | EmptyString => EmptyString
  | String c r => if is_white c then trimStart r else s
  end.

Fixpoint trimEnd (s : string) : string :=
  match s with
  | EmptyString => EmptyString
  | String c r =>
      match trimEnd r with
      | EmptyString => if is_white c then EmptyString else String c EmptyString
      | r' => String c r'
      end
  end.

Definition trim (s : string) : string := trimEnd (trimStart s).

(** Truthiness of a string: only the empty string is falsy. *)
Definition truthy (s : string) : bool :=
  match s with EmptyString => false | _ => true end.

(** [a || b] on strings. *)
Definition or_else (a b : string) : string := if truthy a then a else b.

(** [a || b] where [a] may be [undefined] / [null]. *)
Definition opt_or_else (a : option string) (b : string) : string :=
  match a with
  | Some s => or_else s b
  | None => b
  end.

End JsString.
Import JsString.

(** ** Plain JavaScript objects used as dictionaries *)

Module JsObject.

(** Own enumerable string-keyed data properties, in creation order. *)
Definition t : Type := list (string * string).

Definition digit_of (c : ascii) : option N :=
  let n := N_of_ascii c in
  if (48 <=? n)%N && (n <=? 57)%N then Some (n - 48)%N else None.

Fixpoint decimal_value (acc : N) (s : string) : option N :=
  match s with
  | EmptyString => Some acc
  | String c r =>
      match digit_of c with
      | Some d => decimal_value (10 * acc + d)%N r
      | None => None
      end
  end.

(** A property key is an array index when it is the canonical decimal
    numeral of an integer in [0, 2^32 - 2]. *)
Definition array_index (k : string) : option N :=
  match k with
  | EmptyString => None
  | String c r =>
      if Ascii.eqb c "0"%char && truthy r then None
      else match decimal_value 0 k with
           | Some n => if (n <? 4294967295)%N then Some n else None
           | None => None
           end
  end.

Definition is_index (kv : string * string) : bool :=
  match array_index (fst kv) with Some _ => true | None => false end.

Definition index_of (kv : string * string) : N :=
  match array_index (fst kv) with Some n => n | None => 0%N end.

Fixpoint insert_by_index (e : string * string) (l : list (string * string))
  : list (string * string) :=
  match l with
  | [] => [e]
  | x :: r =>
      if (index_of e <=? index_of x)%N then e :: l
      else x :: insert_by_index e r
  end.

Definition sort_by_index (l : list (string * string)) : list (string * string) :=
  List.fold_right insert_by_index [] l.

(** [Object.entries(o)]: array-index keys in ascending numeric order, then
    the other keys in creation order. *)
Definition Object_entries (o : t) : list (string * string) :=
  sort_by_index (List.filter is_index o)
  ++ List.filter (fun kv => negb (is_index kv)) o.

Definition has_own (o : t) (k : string) : bool :=
  existsb (fun kv => String.eqb (fst kv) k) o.

(** [o[k]] for an own property. *)
Definition get (o : t) (k : string) : option string :=
  match List.find (fun kv => String.eqb (fst kv) k) o with
  | Some kv => Some (snd kv)
  | None => None
  end.

Fixpoint overwrite (o : t) (k v : string) : t :=
  match o with
  | [] => []
  | kv :: r =>
      if String.eqb (fst kv) k then (k, v) :: r
      else kv :: overwrite r k v
  end.

(** [o[k] = v] with [v] a string, on an object whose prototype is
    [Object.prototype]: an own property is overwritten in place; a new key
    is created last; the one inherited accessor, [__proto__], swallows the
    assignment of a primitive and creates nothing. *)
Definition set (o : t) (k v : string) : t :=
  if has_own o k then overwrite o k v
  else if String.eqb k "__proto__" then o
  else o ++ [(k, v)].

End JsObject.

(** ** The answer resolver *)

(** Pre-defined answers to common screening questions. *)
Definition SCREENING_ANSWERS : list (string * string) :=
  [ ("right to work",       "Yes");
    ("work in australia",   "Yes");
    ("australian citizen",  "Yes");
    ("visa",                "Yes");
    ("salary",              "65000");
    ("expected salary",     "65000");
    ("salary expectation",  "65000");
    ("years of experience", "2");
    ("how many years",      "2");
    ("experience",          "2");
    ("notice period",       "2 weeks");
    ("available",           "Immediately");
    ("start date",          "Immediately");
    ("full time",           "Yes");
    ("part time",           "Yes") ].

(** [q.includes(key.toLowerCase())] for an entry [(key, val)]. *)
Definition key_matches (q : string) (kv : string * string) : bool :=
  includes q (toLowerCase (fst kv)).

(** The reconciliation predicate of [options.find] for a rule value [val]. *)
Definition option_matches (val o : string) : bool :=
  includes (toLowerCase o) (toLowerCase val)
  || includes (toLowerCase val) (toLowerCase o).

(** [findAnswer(questionText, options)], reading the learned cache
    [savedAnswers].  [None] is JavaScript's [null]. *)
Definition findAnswer (savedAnswers : JsObject.t)
    (questionText : string) (options : list string) : option string :=
  let q := toLowerCase questionText in
  match List.find (key_matches q) (JsObject.Object_entries savedAnswers) with
  | Some (_, val) => Some val
  | None =>
      match List.find (key_matches q) SCREENING_ANSWERS with
      | Some (_, val) =>
          if (0 <? length options)%nat then
            let match_ := List.find (option_matches val) options in
            Some (opt_or_else match_ (hd EmptyString options))
          else Some val
      | None =>
          if existsb (String.eqb "Yes") options
             && existsb (String.eqb "No") options
          then Some "Yes"
          else None
      end
  end.

(** [persistAnswer(question, answer)]: the in-memory part.  The file write
    that follows is wrapped in a [try] whose handler is empty. *)
Definition persistAnswer (savedAnswers : JsObject.t) (question answer : string)
  : JsObject.t :=
  JsObject.set savedAnswers question answer.

(** ** The document seen by in-page scripts *)

(** The DOM properties of an element that the scripts of [seek.ts] read.
    An element is identified by its position in document order. *)
Record Element := {
  tagName : string;                         (* lower-case local name *)
  el_id : string;                           (* [id], empty when absent *)
  el_for : option string;                   (* [getAttribute('for')] *)
  el_role : option string;                  (* [getAttribute('role')] *)
  el_type : string;                         (* [type], empty when absent *)
  el_disabled : bool;                       (* [hasAttribute('disabled')] *)
  textContent : string;
  el_value : string;                        (* [value], empty when absent *)
  el_options : list (string * string);      (* [(value, textContent)] of the
                                               [option] descendants *)
  el_control : option nat;                  (* [querySelector('input, select,
                                               textarea')] inside the element *)
  el_container_text : string                (* [textContent] of
                                               [closest('label') || parentElement] *)
}.

(** What the search script reads from one [article] card: the text of the
    first title element, the [href] of the first job link, and the texts of
    the advertiser, location, work-type and salary elements, when present. *)
Record Article := {
  art_title : option string;
  art_href : option string;
  art_company : option string;
  art_location : option string;
  art_workType : option string;
  art_salary : option string
}.

Record Document := {
  body_innerText : string;
  elements : list Element;
  articles : list Article
}.

(** What a script does to the page. *)
Inductive DomEffect :=
| ElementClick (i : nat)          (* [el.click()] *)
| ElementDispatchClick (i : nat)  (* [el.dispatchEvent(new MouseEvent('click'))] *)
| WindowScrollToBottom.

(** First element satisfying [p], with its position. *)
Fixpoint find_from (p : Element -> bool) (i : nat) (l : list Element)
  : option (nat * Element) :=
  match l with
  | [] => None
  | el :: r => if p el then Some (i, el) else find_from p (S i) r
  end.

Definition find_element (p : Element -> bool) (d : Document) : option (nat * Element) :=
  find_from p 0 (elements d).

Definition getElementById (d : Document) (id : string) : option (nat * Element) :=
  find_element (fun el => String.eqb (el_id el) id) d.

Definition has_role (r : string) (el : Element) : bool :=
  match el_role el with Some x => String.eqb x r | None => false end.

(** [label, button, [role=button]] *)
Definition sel_label_or_button (el : Element) : bool :=
  String.eqb (tagName el) "label" || String.eqb (tagName el) "button"
  || has_role "button" el.

(** [button, [role=button], input[type=submit]] *)
Definition sel_clickable (el : Element) : bool :=
  String.eqb (tagName el) "button" || has_role "button" el
  || (String.eqb (tagName el) "input" && String.eqb (el_type el) "submit").

(** [button] *)
Definition sel_button (el : Element) : bool := String.eqb (tagName el) "button".

(** [input[type=radio]] *)
Definition sel_radio (el : Element) : bool :=
  String.eqb (tagName el) "input" && String.eqb (el_type el) "radio".

(** The completion check at the top of each step. *)
Definition isDone_script (d : Document) : bool * list DomEffect :=
  let body := toLowerCase (body_innerText d) in
  (includes body "application submitted"
   || includes body "you've applied"
   || includes body "successfully applied"
   || includes body "thank you for applying", []).

(** The predicate handed to [page.waitForFunction] after a submit.  Whether
    it comes to hold within the timeout is the page's business: the flow only
    learns whether the [WaitForFunction] call resolved or rejected. *)
Definition confirmation_shown (d : Document) : bool :=
  let body := toLowerCase (body_innerText d) in
  includes body "application has been sent"
  || includes body "keep it up"
  || includes body "application submitted"
  || includes body "you've applied"
  || includes body "thank you for applying"
  || includes body "you might also like".

(** Step 1 of the loop body: skip the cover letter. *)
Definition skip_cover_letter_script (d : Document) : bool * list DomEffect :=
  let wanted el :=
    let t := toLowerCase (textContent el) in
    includes t "don't include a cover letter"
    || includes t "don't attach"
    || includes t "no cover letter"
    || includes t "without cover" in
  match find_element (fun el => sel_label_or_button el && wanted el) d with
  | Some (i, target) =>
      match el_for target with
      | Some forId =>
          if truthy forId then
            match getElementById d forId with
            | Some (j, _) => (true, [ElementClick j])
            | None => (true, [ElementClick i])
            end
          else (true, [ElementClick i])
      | None => (true, [ElementClick i])
      end
  | None => (false, [])
  end.

Definition scroll_script (d : Document) : unit * list DomEffect :=
  (tt, [WindowScrollToBottom]).

(** The text [clickButtonByText] compares: trimmed text content, else the
    value, else empty; lower-cased. *)
Definition button_text (el : Element) : string :=
  toLowerCase (or_else (trim (textContent el)) (or_else (el_value el) "")).

Definition text_matches (searchTexts : list string) (el : Element) : bool :=
  let t := button_text el in
  existsb (fun s => String.eqb t s || includes t s) searchTexts.

(** The script of [clickButtonByText(page, texts)]. *)
Definition clickButtonByText_script (searchTexts : list string) (d : Document)
  : bool * list DomEffect :=
  match find_element (fun el => sel_clickable el && text_matches searchTexts el) d with
  | Some (i, btn) =>
      if negb (el_disabled btn) then (true, [ElementClick i]) else (false, [])
  | None => (false, [])
  end.

Definition is_submit_button (b : Element) : bool :=
  let text := toLowerCase (trim (textContent b)) in
  includes text "submit application" || String.eqb text "submit".

(** Step 5 of the loop body: find the submit button and dispatch a click. *)
Definition submit_script (d : Document) : bool * list DomEffect :=
  match find_element (fun b => sel_button b && is_submit_button b) d with
  | Some (i, _) => (true, [ElementDispatchClick i])
  | None => (false, [])
  end.

(** ** Screening questions *)

Inductive QType := q_text | q_select | q_radio | q_checkbox | q_textarea.

Record Question := {
  q_label : string;
  q_type : QType;
  q_id : string;
  q_options : list string
}.

(** The question built from one [label] element, when it has a control. *)
Definition question_of_label (d : Document) (lbl : Element) : option Question :=
  let text := toLowerCase (trim (textContent lbl)) in
  let forId := match el_for lbl with Some f => or_else f "" | None => "" end in
  let input :=
    if truthy forId then snd <$> getElementById d forId
    else match el_control lbl with
         | Some j => nth_error (elements d) j
         | None => None
         end in
  match input with
  | None => None
  | Some inp =>
      let tag := toLowerCase (tagName inp) in
      let inputType := or_else (toLowerCase (el_type inp)) "" in
      let type :=
        if String.eqb tag "select" then q_select
        else if String.eqb inputType "radio" then q_radio
        else if String.eqb inputType "checkbox" then q_checkbox
        else if String.eqb tag "textarea" then q_textarea
        else q_text in
      let options :=
        match type with
        | q_select =>
            List.map (fun o => or_else (trim (snd o)) "")
                     (List.filter (fun o => truthy (fst o)) (el_options inp))
        | _ => []
        end in
      Some {| q_label := text; q_type := type;
              q_id := or_else (el_id inp) ""; q_options := options |}
  end.

(** The extraction script at the head of [answerScreeningQuestions]. *)
Definition extract_questions_script (d : Document) : list Question * list DomEffect :=
  (omap (question_of_label d)
        (List.filter (fun el => String.eqb (tagName el) "label") (elements d)),
   []).

(** The script that answers a radio question: click the first radio whose
    container text contains the answer. *)
Definition radio_script (answerText : string) (d : Document) : unit * list DomEffect :=
  match find_element
          (fun el => sel_radio el
                     && includes (toLowerCase (el_container_text el))
                                 (toLowerCase answerText)) d with
  | Some (i, _) => (tt, [ElementClick i])
  | None => (tt, [])
  end.

(** ** Jobs *)

Record Job := {
  title : string;
  company : string;
  location : string;
  workType : string;
  salary : string;
  url : string;
  applied : bool;
  appliedAt : option string;
  platform : string;
  keyword : string
}.

(** What the search script returns for one card. *)
Record Scraped := {
  s_title : string;
  s_company : string;
  s_location : string;
  s_workType : string;
  s_salary : string;
  s_href : string;
  s_keyword : string
}.

(** [el?.textContent?.trim() || dflt] *)
Definition text_or (t : option string) (dflt : string) : string :=
  match t with
  | Some s => or_else (trim s) dflt
  | None => dflt
  end.

Definition scrape_card (kw : string) (card : Article) : option Scraped :=
  let title := text_or (art_title card) "" in
  let href := match art_href card with Some h => or_else h "" | None => "" end in
  if negb (truthy title) || negb (truthy href) then None
  else Some {| s_title := title;
               s_company := text_or (art_company card) "Unknown";
               s_location := text_or (art_location card) "Unknown";
               s_workType := text_or (art_workType card) "";
               s_salary := text_or (art_salary card) "Not listed";
               s_href := href;
               s_keyword := kw |}.

(** The script evaluated on each result page. *)
Definition scrape_script (kw : string) (d : Document) : list Scraped * list DomEffect :=
  (omap (scrape_card kw) (articles d), []).

Definition classifyWorkType (raw title : string) : string :=
  let text := toLowerCase (raw +:+ " " +:+ title) in
  if includes text "remote" then "🌐 Remote"
  else if includes text "hybrid" then "🔀 Hybrid"
  else if includes text "on-site" || includes text "onsite"
          || includes text "in office" then "🏢 On-site"
  else if truthy raw then raw
  else "❓ Not specified".

(** The absolute URL of a scraped link. *)
Definition job_url (href : string) : string :=
  if startsWith href "http" then href else "https://www.seek.com.au" +:+ href.

Definition job_of_scraped (j : Scraped) : Job :=
  {| title := s_title j; company := s_company j; location := s_location j;
     workType := classifyWorkType (s_workType j) (s_title j);
     salary := s_salary j; url := job_url (s_href j);
     applied := false; appliedAt := None;
     platform := "seek"; keyword := s_keyword j |}.

(** [encodeURIComponent] on ASCII text. *)
Definition hex_digit (n : nat) : ascii :=
  if (n <? 10)%nat then ascii_of_nat (48 + n) else ascii_of_nat (55 + n).

Definition unreserved (c : ascii) : bool :=
  let n := nat_of_ascii c in
  ((65 <=? n)%nat && (n <=? 90)%nat) || ((97 <=? n)%nat && (n <=? 122)%nat)
  || ((48 <=? n)%nat && (n <=? 57)%nat)
  || existsb (Nat.eqb n) [45; 95; 46; 33; 126; 42; 39; 40; 41]%nat.

Fixpoint encodeURIComponent (s : string) : string :=
  match s with
  | EmptyString => EmptyString
  | String c r =>
      if unreserved c then String c (encodeURIComponent r)
      else let n := nat_of_ascii c in
           String "%"%char
             (String (hex_digit (n / 16)) (String (hex_digit (n mod 16))
                (encodeURIComponent r)))
  end.

(** The part of [config.json] read by the search. *)
Record Config := {
  keywords : list string;
  cfg_location : string;
  maxPages : nat
}.

Definition search_url (cfg : Config) (kw : string) (pageNum : nat) : string :=
  "https://www.seek.com.au/jobs?"
  +:+ "keywords=" +:+ encodeURIComponent kw
  +:+ "&where=" +:+ encodeURIComponent (cfg_location cfg)
  +:+ "&page=" +:+ pretty pageNum.

(** Step 3 of [main]: merge the fresh jobs into the existing catalogue. *)
Definition existingUrls (existingJobs : list Job) : gset string :=
  list_to_set (List.map url existingJobs).

Definition newJobs (existingJobs freshJobs : list Job) : list Job :=
  List.filter (fun j => negb (bool_decide (url j ∈ existingUrls existingJobs)))
              freshJobs.

Definition mergeJobs (existingJobs freshJobs : list Job) : list Job :=
  existingJobs ++ newJobs existingJobs freshJobs.

(** The write-back of [main] after an attempt on the job with URL [u]:
    the first record with that URL gets [applied] and [appliedAt]; [now] is
    the time stamp [new Date().toISOString()]. *)
Fixpoint record_outcome (allJobs : list Job) (u : string) (success : bool)
    (now : string) : list Job :=
  match allJobs with
  | [] => []
  | j :: rest =>
      if String.eqb (url j) u then
        {| title := title j; company := company j; location := location j;
           workType := workType j; salary := salary j; url := url j;
           applied := success;
           appliedAt := if success then Some now else None;
           platform := platform j; keyword := keyword j |} :: rest
      else j :: record_outcome rest u success now
  end.

(** The catalogues the program writes, starting from an absent file: the
    merge of a written catalogue with a list of jobs with distinct URLs (as
    the search returns them), and the write-back after an attempt. *)
Inductive written_catalogue : list Job -> Prop :=
| written_first : written_catalogue []
| written_merge existingJobs freshJobs :
    written_catalogue existingJobs ->
    NoDup (List.map url freshJobs) ->
    written_catalogue (mergeJobs existingJobs freshJobs)
| written_outcome allJobs u success now :
    written_catalogue allJobs ->
    written_catalogue (record_outcome allJobs u success now).

(** ** The page driver *)

(** A thrown value; the handlers only read its [message]. *)
Record Exn := { message : string }.

(** The locators used by the flow. *)
Inductive Selector :=
| ByAutomation (name : string)       (* [data-automation=name] *)
| ButtonHasText (text : string)      (* button:has-text(text) *)
| LinkHasText (text : string)        (* a:has-text(text) *)
| ById (id : string).                (* #id *)

Inductive Script :=
| ScrapeCards (kw : string)
| IsDone
| SkipCoverLetter
| ExtractQuestions
| ClickRadio (answerText : string)
| Scroll
| ClickButtonByText (searchTexts : list string)
| ClickSubmit.

Inductive SelectBy := by_label | by_value.

(** The calls made on the outside world.  [Evaluate] carries what the
    script did to the document, so that the page can react to it. *)
Inductive Call :=
| Goto (target : string) (timeout : N)
| WaitForTimeout (ms : N)
| IsVisible (sel : Selector) (timeout : N)
| LocatorClick (sel : Selector)
| Evaluate (script : Script) (effects : list DomEffect)
| WaitForFunction (timeout : N)
| SelectOption (sel : Selector) (by_ : SelectBy) (answer : string)
| Fill (sel : Selector) (answer : string)
| WriteAnswersFile (content : JsObject.t).

(** The world behind the page: the document it shows, which locators are
    visible, and how it moves on each call; a call rejects when [respond]
    yields an exception. *)
Class Page (W : Type) := {
  document : W -> Document;
  visible : Selector -> W -> bool;
  respond : Call -> W -> W * option Exn
}.

(** Lines written with [console.log]. *)
Inductive LogLine :=
| LogSearching (keyword location : string)
| LogJobFound (title company : string)
| LogJobFoundDetails (location workType salary : string)
| LogPage (pageNum added : nat)
| LogTotal (n : nat)
| LogApplying (title company : string)
| LogJobDetails (location workType salary : string)
| LogClickingApply
| LogNoApplyButton
| LogStep (step : nat)
| LogAlreadyConfirmed (title : string)
| LogCoverLetterSkipped
| LogAnswer (label answer : string)
| LogContinue
| LogSubmitClicked
| LogWaitingConfirmation
| LogConfirmed (title : string)
| LogNotDetected
| LogNoActionable
| LogCouldNotComplete (title : string)
| LogTabClosed
| LogError (msg : string).

Inductive Event :=
| Called (c : Call) (rejected : option Exn)
| Logged (l : LogLine).

(** ** State, exceptions and output *)

Inductive Completion (A : Type) :=
| Normal (a : A)
| Thrown (e : Exn).
Arguments Normal {A} a.
Arguments Thrown {A} e.

Section Flow.
Context {W : Type} `{Page W}.

(** The mutable state: the world and the module-level [savedAnswers]. *)
Record Mem := { world : W; savedAnswers : JsObject.t }.

(** One execution: final state, what was emitted, how it completed. *)
Record Run (A : Type) := {
  final : Mem;
  events : list Event;
  completion : Completion A
}.
Arguments final {A} r.
Arguments events {A} r.
Arguments completion {A} r.

Definition M (A : Type) : Type := Mem -> Run A.

Definition ret {A} (a : A) : M A :=
  fun m => {| final := m; events := []; completion := Normal a |}.

Definition bind {A B} (c : M A) (k : A -> M B) : M B :=
  fun m =>
    let r := c m in
    match completion r with
    | Normal a =>
        let r' := k a (final r) in
        {| final := final r'; events := events r ++ events r';
           completion := completion r' |}
    | Thrown e =>
        {| final := final r; events := events r; completion := Thrown e |}
    end.

(** [try { c } catch (e) { h(e) }] *)
Definition try_catch {A} (c : M A) (h : Exn -> M A) : M A :=
  fun m =>
    let r := c m in
    match completion r with
    | Normal a => r
    | Thrown e =>
        let r' := h e (final r) in
        {| final := final r'; events := events r ++ events r';
           completion := completion r' |}
    end.

Definition log (l : LogLine) : M unit :=
  fun m => {| final := m; events := [Logged l]; completion := Normal tt |}.

Definition call (c : Call) : M unit :=
  fun m =>
    let (w', r) := respond c (world m) in
    {| final := {| world := w'; savedAnswers := savedAnswers m |};
       events := [Called c r];
       completion := match r with None => Normal tt | Some e => Thrown e end |}.

Definition read_saved : M JsObject.t :=
  fun m => {| final := m; events := []; completion := Normal (savedAnswers m) |}.

Definition write_saved (o : JsObject.t) : M unit :=
  fun m => {| final := {| world := world m; savedAnswers := o |};
              events := []; completion := Normal tt |}.

End Flow.

Arguments Mem W : clear implicits.
Arguments Run W A : clear implicits.
Arguments M W A : clear implicits.
Arguments final {W A} r.
Arguments events {W A} r.
Arguments completion {W A} r.

Declare Scope flow_scope.
Delimit Scope flow_scope with flow.
Notation "x <- c ;; k" := (bind c (fun x => k))
  (at level 100, c at next level, right associativity) : flow_scope.
Notation "c ;; k" := (bind c (fun _ => k))
  (at level 100, right associativity) : flow_scope.

(** ** The application flow *)

Section Apply.
Context {W : Type} `{Page W}.
Local Open Scope flow_scope.

(** [page.evaluate(script)]: the script runs on the current document; the
    call resolves with its value unless the driver rejects. *)
Definition evaluate {A} (name : Script) (script : Document -> A * list DomEffect)
  : M W A :=
  fun m =>
    let (a, effects) := script (document (world m)) in
    (call (Evaluate name effects) ;; ret a) m.

(** [locator.isVisible({ timeout })] *)
Definition isVisible (sel : Selector) (timeout : N) : M W bool :=
  call (IsVisible sel timeout) ;;
  (fun m => ret (visible sel (world m)) m).

(** [promise.catch(() => d)] *)
Definition catch_with {A} (c : M W A) (d : M W A) : M W A :=
  try_catch c (fun _ => d).

Definition waitForTimeout (ms : N) : M W unit := call (WaitForTimeout ms).

(** [persistAnswer]: update the cache, then a best-effort file write. *)
Definition persist (question answer : string) : M W unit :=
  saved <- read_saved ;;
  let saved' := persistAnswer saved question answer in
  write_saved saved' ;;
  try_catch (call (WriteAnswersFile saved')) (fun _ => ret tt).

(** The [try] block that commits one answer to the form. *)
Definition fill_answer (q : Question) (answer : string) : M W unit :=
  match q_type q with
  | q_select =>
      catch_with (call (SelectOption (ById (q_id q)) by_label answer))
                 (call (SelectOption (ById (q_id q)) by_value answer))
  | q_radio => evaluate (ClickRadio answer) (radio_script answer)
  | q_text | q_textarea =>
      if truthy (q_id q) then
        shown <- catch_with (isVisible (ById (q_id q)) 1000%N) (ret false) ;;
        if shown then call (Fill (ById (q_id q)) answer) else ret tt
      else ret tt
  | q_checkbox => ret tt
  end.

(** The body of [for (const q of questions)]. *)
Definition answer_question (q : Question) : M W unit :=
  if negb (truthy (q_label q)) then ret tt
  else
    saved <- read_saved ;;
    match findAnswer saved (q_label q) (q_options q) with
    | None => ret tt
    | Some answer =>
        if negb (truthy answer) then ret tt
        else
          log (LogAnswer (q_label q) answer) ;;
          persist (q_label q) answer ;;
          try_catch (fill_answer q answer) (fun _ => ret tt)
    end.

Fixpoint answer_questions (qs : list Question) : M W unit :=
  match qs with
  | [] => ret tt
  | q :: rest => answer_question q ;; answer_questions rest
  end.

Definition answerScreeningQuestions (job : Job) : M W unit :=
  questions <- evaluate ExtractQuestions extract_questions_script ;;
  answer_questions questions.

Definition clickButtonByText (texts : list string) : M W bool :=
  evaluate (ClickButtonByText texts) (clickButtonByText_script texts).

Definition applySelectors : list Selector :=
  [ ByAutomation "job-detail-apply";
    ButtonHasText "Quick apply";
    ButtonHasText "Apply";
    LinkHasText "Apply" ].

(** The loop over [applySelectors]; its value is the final [clicked]. *)
Fixpoint click_apply (sels : list Selector) : M W bool :=
  match sels with
  | [] => ret false
  | sel :: rest =>
      shown <- catch_with (isVisible sel 3000%N) (ret false) ;;
      if shown then
        log LogClickingApply ;;
        call (LocatorClick sel) ;;
        waitForTimeout 3000%N ;;
        ret true
      else click_apply rest
  end.

Definition continue_texts : list string := ["continue"; "next"; "proceed"].

(** How one pass through the loop body ends. *)
Inductive StepEnd := NextStep | BreakLoop | ReturnValue (b : bool).

(** The body of [for (let step = 1; step <= 8; step++)]. *)
Definition step_body (job : Job) (step : nat) : M W StepEnd :=
  waitForTimeout 2000%N ;;
  log (LogStep step) ;;
  isDone <- evaluate IsDone isDone_script ;;
  if isDone then
    log (LogAlreadyConfirmed (title job)) ;;
    ret (ReturnValue true)
  else
    skippedCL <- evaluate SkipCoverLetter skip_cover_letter_script ;;
    (if skippedCL then log LogCoverLetterSkipped ;; waitForTimeout 1500%N
     else ret tt) ;;
    answerScreeningQuestions job ;;
    evaluate Scroll scroll_script ;;
    waitForTimeout 1500%N ;;
    continued <- clickButtonByText continue_texts ;;
    if continued then
      log LogContinue ;;
      waitForTimeout 2000%N ;;
      ret NextStep
    else
      submitClicked <- evaluate ClickSubmit submit_script ;;
      if submitClicked then
        log LogSubmitClicked ;;
        log LogWaitingConfirmation ;;
        try_catch (call (WaitForFunction 15000%N) ;; log (LogConfirmed (title job)))
                  (fun _ => log LogNotDetected) ;;
        ret (ReturnValue true)
      else
        log LogNoActionable ;;
        ret BreakLoop.

(** The step loop over the values [step] takes; [None] when the loop is
    left without a [return]. *)
Fixpoint step_loop (job : Job) (steps : list nat) : M W (option bool) :=
  match steps with
  | [] => ret None
  | step :: rest =>
      e <- step_body job step ;;
      match e with
      | NextStep => step_loop job rest
      | BreakLoop => ret None
      | ReturnValue b => ret (Some b)
      end
  end.

(** The values of [step] for which [step <= 8] holds, from [step = 1]. *)
Definition steps : list nat := seq 1 8.

(** The [try] block of [applyToSeekJob]. *)
Definition apply_attempt (job : Job) : M W bool :=
  call (Goto (url job) 60000%N) ;;
  waitForTimeout 2000%N ;;
  clicked <- click_apply applySelectors ;;
  if negb clicked then
    log LogNoApplyButton ;;
    ret false
  else
    r <- step_loop job steps ;;
    match r with
    | Some b => ret b
    | None =>
        log (LogCouldNotComplete (title job)) ;;
        ret false
    end.

(** The [catch (e)] block of [applyToSeekJob]. *)
Definition apply_handler (e : Exn) : M W bool :=
  let msg := or_else (message e) "" in
  (if includes msg "closed" || includes msg "Target"
   then log LogTabClosed
   else log (LogError msg)) ;;
  ret false.

Definition applyToSeekJob (job : Job) : M W bool :=
  log (LogApplying (title job) (company job)) ;;
  log (LogJobDetails (location job) (workType job) (salary job)) ;;
  try_catch (apply_attempt job) apply_handler.

End Apply.

(** ** The search *)

Section Search.
Context {W : Type} `{Page W}.
Local Open Scope flow_scope.

(** The loop [for (const j of jobs)] over one page of results; the state is
    [allJobs], [seenUrls] and the counter [added]. *)
Fixpoint add_jobs (jobs : list Scraped) (allJobs : list Job)
    (seenUrls : gset string) (added : nat)
  : M W (list Job * gset string * nat) :=
  match jobs with
  | [] => ret (allJobs, seenUrls, added)
  | j :: rest =>
      let jobUrl := job_url (s_href j) in
      if bool_decide (jobUrl ∈ seenUrls) then add_jobs rest allJobs seenUrls added
      else
        let job := job_of_scraped j in
        log (LogJobFound (s_title j) (s_company j)) ;;
        log (LogJobFoundDetails (s_location j) (workType job) (s_salary j)) ;;
        add_jobs rest (allJobs ++ [job]) ({[ jobUrl ]} ∪ seenUrls) (S added)
  end.

(** The loop over result pages of one keyword. *)
Fixpoint search_pages (cfg : Config) (kw : string) (pages : list nat)
    (allJobs : list Job) (seenUrls : gset string)
  : M W (list Job * gset string) :=
  match pages with
  | [] => ret (allJobs, seenUrls)
  | pageNum :: rest =>
      call (Goto (search_url cfg kw pageNum) 60000%N) ;;
      waitForTimeout 3000%N ;;
      jobs <- evaluate (ScrapeCards kw) (scrape_script kw) ;;
      r <- add_jobs jobs allJobs seenUrls 0 ;;
      log (LogPage pageNum (snd r)) ;;
      if (snd r =? 0)%nat && (1 <? pageNum)%nat then ret (fst r)
      else search_pages cfg kw rest (fst (fst r)) (snd (fst r))
  end.

Fixpoint search_keywords (cfg : Config) (kws : list string)
    (allJobs : list Job) (seenUrls : gset string)
  : M W (list Job * gset string) :=
  match kws with
  | [] => ret (allJobs, seenUrls)
  | kw :: rest =>
      log (LogSearching kw (cfg_location cfg)) ;;
      r <- search_pages cfg kw (seq 1 (maxPages cfg)) allJobs seenUrls ;;
      search_keywords cfg rest (fst r) (snd r)
  end.

Definition searchSeek (cfg : Config) : M W (list Job) :=
  r <- search_keywords cfg (keywords cfg) [] ∅ ;;
  log (LogTotal (length (fst r))) ;;
  ret (fst r).

End Search.

(** ** Observations on a run *)

Definition is_step_start (ev : Event) : bool :=
  match ev with Logged (LogStep _) => true | _ => false end.

(** The continue trigger was attempted: [clickButtonByText] was evaluated. *)
Definition is_continue_attempt (ev : Event) : bool :=
  match ev with Called (Evaluate (ClickButtonByText _) _) _ => true | _ => false end.

(** The continue control was clicked: the evaluation resolved after a click. *)
Definition is_continue_click (ev : Event) : bool :=
  match ev with
  | Called (Evaluate (ClickButtonByText _) (_ :: _)) None => true
  | _ => false
  end.

(** The submit trigger was attempted: the submit script was evaluated. *)
Definition is_submit_attempt (ev : Event) : bool :=
  match ev with Called (Evaluate ClickSubmit _) _ => true | _ => false end.

(** The submit button was clicked: the evaluation resolved after a dispatch. *)
Definition is_submit_click (ev : Event) : bool :=
  match ev with
  | Called (Evaluate ClickSubmit (_ :: _)) None => true
  | _ => false
  end.

Definition count_events (p : Event -> bool) (evs : list Event) : nat :=
  length (List.filter p evs).

(** Events that are neither a step header nor a trigger attempt. *)
Definition plain (ev : Event) : Prop :=
  is_step_start ev = false /\ is_continue_attempt ev = false
  /\ is_submit_attempt ev = false.

(** Calls whose rejection is not absorbed by a handler next to the call. *)
Definition propagating (c : Call) : bool :=
  match c with
  | Goto _ _ | WaitForTimeout _ | LocatorClick _ | Evaluate _ _ => true
  | _ => false
  end.

(** The trigger attempts among the events, in order. *)
Definition is_trigger_attempt (ev : Event) : bool :=
  is_continue_attempt ev || is_submit_attempt ev.

Definition attempts (evs : list Event) : list Event :=
  List.filter is_trigger_attempt evs.

(** How the trigger attempts of one pass through the loop body relate to the
    way the pass ends. *)
Inductive step_outcome : list Event -> Completion StepEnd -> Prop :=
| so_early r :
    (r = Normal (ReturnValue true) \/ exists e, r = Thrown e) ->
    step_outcome [] r
| so_continue_rejected effs e :
    step_outcome
      [Called (Evaluate (ClickButtonByText continue_texts) effs) (Some e)]
      (Thrown e)
| so_continued i r :
    (r = Normal NextStep \/ exists e, r = Thrown e) ->
    step_outcome
      [Called (Evaluate (ClickButtonByText continue_texts) [ElementClick i]) None]
      r
| so_submit_rejected seffs e :
    step_outcome
      [Called (Evaluate (ClickButtonByText continue_texts) []) None;
       Called (Evaluate ClickSubmit seffs) (Some e)]
      (Thrown e)
| so_submitted i :
    step_outcome
      [Called (Evaluate (ClickButtonByText continue_texts) []) None;
       Called (Evaluate ClickSubmit [ElementDispatchClick i]) None]
      (Normal (ReturnValue true))
| so_no_action :
    step_outcome
      [Called (Evaluate (ClickButtonByText continue_texts) []) None;
       Called (Evaluate ClickSubmit []) None]
      (Normal BreakLoop).

(** The learned cache after the loop body has handled question [q]. *)
Definition cache_after_question (saved : JsObject.t) (q : Question) : JsObject.t :=
  if truthy (q_label q) then
    match findAnswer saved (q_label q) (q_options q) with
    | Some answer =>
        if truthy answer then persistAnswer saved (q_label q) answer else saved
    | None => saved
    end
  else saved.

(** Every entry of the learned cache whose key occurs in [label] holds
    "Yes". *)
Definition matches_hold_yes (label : string) (saved : JsObject.t) : Prop :=
  forall k v, In (k, v) saved ->
    includes (toLowerCase label) (toLowerCase k) = true -> v = "Yes".

(** [satisfies c m Q]: the run of [c] from [m] ends in a state, with events
    and a completion, related by [Q]. *)
Definition satisfies {W A} (c : M W A) (m : Mem W)
    (Q : Mem W -> list Event -> Completion A -> Prop) : Prop :=
  Q (final (c m)) (events (c m)) (completion (c m)).

(** A run threw only if a propagating call was rejected by the page. *)
Definition blamed {W} `{Page W} {A} (r : Completion A) : Prop :=
  match r with
  | Normal _ => True
  | Thrown e => exists c w, propagating c = true /\ (respond c w).2 = Some e
  end.

(** ** Simulated forms *)

Definition button (text : string) (is_disabled : bool) : Element :=
  {| tagName := "button"; el_id := ""; el_for := None; el_role := None;
     el_type := "submit"; el_disabled := is_disabled; textContent := text;
     el_value := ""; el_options := []; el_control := None;
     el_container_text := "" |}.

Definition screen (text : string) (els : list Element) : Document :=
  {| body_innerText := text; elements := els; articles := [] |}.

(** A page that always shows the same document, on which every locator is
    visible, and that rejects the calls selected by [rejects]. *)
Definition static_page (d : Document) (rejects : Call -> option Exn) : Page unit :=
  {| document := fun _ => d;
     visible := fun _ _ => true;
     respond := fun c _ => (tt, rejects c) |}.

Definition never_rejects (c : Call) : option Exn := None.

(** A form that shows an enabled continue button on every screen. *)
Definition continue_form : Page unit :=
  static_page (screen "Step 1 of 3" [button "Continue" false]) never_rejects.

(** A screen with both an enabled continue and an enabled submit button. *)
Definition review_form : Page unit :=
  static_page (screen "Review your application"
                 [button "Submit application" false; button "Continue" false])
              never_rejects.

(** A screen with a submit button whose confirmation never shows up. *)
Definition timeout_on_wait (c : Call) : option Exn :=
  match c with
  | WaitForFunction _ => Some {| message := "Timeout 15000ms exceeded." |}
  | _ => None
  end.

Definition submit_form : Page unit :=
  static_page (screen "Review your application"
                 [button "Submit application" false])
              timeout_on_wait.

(** A tab that is closed when the job page is opened. *)
Definition closed_on_goto (c : Call) : option Exn :=
  match c with
  | Goto _ _ => Some {| message := "Target page, context or browser has been closed" |}
  | _ => None
  end.

Definition closed_tab : Page unit := static_page (screen "" []) closed_on_goto.

(** A screen whose only control is a disabled submit button. *)
Definition disabled_submit_form : Page unit :=
  static_page (screen "Complete all required fields" [button "Submit" true])
              never_rejects.

(** A screen that offers an enabled continue button below a disabled
    "Next" button. *)
Definition shadowed_continue_form : Page unit :=
  static_page (screen "Upload your documents"
                 [button "Next" true; button "Continue" false])
              never_rejects.

(** A page that walks through a list of screens: a click performed by a
    script moves to the next screen. *)
Definition clicks (effects : list DomEffect) : bool :=
  existsb (fun e => match e with WindowScrollToBottom => false | _ => true end) effects.

Definition scripted_page : Page (list Document) :=
  {| document := fun w => hd (screen "" []) w;
     visible := fun _ _ => true;
     respond := fun c w =>
       match c with
       | Evaluate _ effects => (if clicks effects then tl w else w, None)
       | LocatorClick _ => (tl w, None)
       | _ => (w, None)
       end |}.

Definition sample_job : Job :=
  {| title := "Data Analyst"; company := "Acme"; location := "Sydney NSW";
     workType := "Hybrid"; salary := "Not listed";
     url := "https://www.seek.com.au/job/1"; applied := false;
     appliedAt := None; platform := "seek"; keyword := "analyst" |}.

Definition start (W : Type) (w : W) : Mem W :=
  {| world := w; savedAnswers := [] |}.

(** Question fixtures. *)
Definition over_18 : Question :=
  {| q_label := "are you over 18?"; q_type := q_select; q_id := "q1";
     q_options := ["No"; "Yes"] |}.

Definition expected_salary : Question :=
  {| q_label := "expected salary"; q_type := q_text; q_id := "q2";
     q_options := [] |}.

Definition unlabelled : Question :=
  {| q_label := ""; q_type := q_select; q_id := "q1"; q_options := ["Yes"; "No"] |}.

Definition proto_question : Question :=
  {| q_label := "__proto__"; q_type := q_select; q_id := "q1";
     q_options := ["Yes"; "No"] |}.

(** Search fixtures: a result page that always lists the same cards. *)
Definition card (card_title href : string) : Article :=
  {| art_title := Some card_title; art_href := Some href;
     art_company := Some "Acme"; art_location := Some "Sydney NSW";
     art_workType := None; art_salary := None |}.

Definition results_page (cards : list Article) : Page unit :=
  static_page {| body_innerText := ""; elements := []; articles := cards |}
              never_rejects.

Definition sample_config : Config :=
  {| keywords := ["analyst"]; cfg_location := "Sydney NSW"; maxPages := 2 |}.

Definition applied_job : Job :=
  {| title := "Data Analyst"; company := "Acme"; location := "Sydney NSW";
     workType := "Hybrid"; salary := "Not listed";
     url := "https://www.seek.com.au/job/1"; applied := true;
     appliedAt := Some "2024-05-01T09:00:00.000Z"; platform := "seek";
     keyword := "analyst" |}.

(** Two cards for two different jobs, one of them already in the catalogue. *)
Definition two_cards : list Article :=
  [card "Data Analyst" "/job/1"; card "BI Developer" "/job/2"].

Definition found (card_title job_address : string) : Job :=
  {| title := card_title; company := "Acme"; location := "Sydney NSW";
     workType := "❓ Not specified"; salary := "Not listed"; url := job_address;
     applied := false; appliedAt := None; platform := "seek";
     keyword := "analyst" |}.

Definition two_jobs : list Job :=
  [found "Data Analyst" "https://www.seek.com.au/job/1";
   found "BI Developer" "https://www.seek.com.au/job/2"].

(** Two cards for the job already in the catalogue, one with another scheme
    and one with the host in capitals. *)
Definition variant_cards : list Article :=
  [card "Data Analyst" "http://www.seek.com.au/job/1";
   card "Data Analyst" "https://WWW.SEEK.COM.AU/job/1"].

Definition variant_jobs : list Job :=
  [found "Data Analyst" "http://www.seek.com.au/job/1";
   found "Data Analyst" "https://WWW.SEEK.COM.AU/job/1"].

(** ** The catalogue invariant and the spec's URL normalization *)

(** What the search loops maintain: the collected URLs are pairwise distinct,
    [seenUrls] holds exactly them, and every collected job was built from a
    scraped card. *)
Definition search_inv (allJobs : list Job) (seenUrls : gset string) : Prop :=
  NoDup (List.map url allJobs)
  /\ (forall u, u ∈ seenUrls <-> In u (List.map url allJobs))
  /\ Forall (fun j => exists c, j = job_of_scraped c) allJobs.

(** The fresh jobs whose URL no existing record has, stated without the
    set [existingUrls]. *)
Definition has_url (jobs : list Job) (u : string) : bool :=
  existsb (String.eqb u) (List.map url jobs).

Definition genuinely_new (existingJobs freshJobs : list Job) : list Job :=
  List.filter (fun j => negb (has_url existingJobs (url j))) freshJobs.

(** The normalization the specification's data model speaks of ("case- and
    scheme-normalized"): lower-case the URL and drop its scheme.  Nothing in
    the source computes it; it is defined here to state that claim. *)
Definition spec_strip_scheme (u : string) : string :=
  if startsWith u "https://" then String.substring 8 (String.length u - 8) u
  else if startsWith u "http://" then String.substring 7 (String.length u - 7) u
  else u.

Definition spec_normalized_url (u : string) : string :=
  spec_strip_scheme (toLowerCase u).

(** ** Observations on the search *)

(** The URL of [j] is the link of a card that a document of the page
    shows, prefixed with the site origin unless the link starts with
    "http", and otherwise as the card has it. *)
Definition url_of_shown_card {W} `{Page W} (j : Job) : Prop :=
  exists w card href,
    In card (articles (document w))
    /\ art_href card = Some href
    /\ url j = (if startsWith href "http" then href
                else "https://www.seek.com.au" +:+ href).

(** A job as the search builds it under one of the keywords [kws]: from a
    card that has a heading and a link. *)
Definition built_by_search (kws : list string) (j : Job) : Prop :=
  exists kw card c,
    In kw kws /\ scrape_card kw card = Some c /\ j = job_of_scraped c.

(** A navigation of the page. *)
Definition is_goto (ev : Event) : bool :=
  match ev with Called (Goto _ _) _ => true | _ => false end.

(** A navigation to a result page of one of the keywords [kws]. *)
Definition result_page_visit (cfg : Config) (kws : list string) (pages : list nat)
    (ev : Event) : Prop :=
  match ev with
  | Called (Goto target _) _ =>
      exists kw pageNum,
        In kw kws /\ In pageNum pages /\ target = search_url cfg kw pageNum
  | _ => True
  end.

(** The address an event navigates to. *)
Definition visit (ev : Event) : option string :=
  match ev with Called (Goto target _) _ => Some target | _ => None end.

(** The addresses navigated to, in order, whether or not the navigation
    went through. *)
Definition visits (evs : list Event) : list string := omap visit evs.

(** The result pages 1 to [k] of keyword [kw]. *)
Definition result_pages (cfg : Config) (kw : string) (k : nat) : list string :=
  List.map (search_url cfg kw) (seq 1 k).

(** The event is not a rejected call. *)
Definition resolved (ev : Event) : Prop :=
  match ev with Called _ (Some _) => False | _ => True end.

(** A run either completes without a rejected call, or ends with the
    rejected call whose exception it throws. *)
Definition rethrows {A} (evs : list Event) (r : Completion A) : Prop :=
  match r with
  | Normal _ => Forall resolved evs
  | Thrown e =>
      exists pre c, evs = pre ++ [Called c (Some e)] /\ Forall resolved pre
  end.

(** What a stretch of the search leaves in the trace: at most [bound]
    navigations, each to a result page of a keyword of [kws] with a page
    number of [pages], and no rejected call other than a last one that is
    thrown on. *)
Definition search_trace {A} (cfg : Config) (kws : list string) (pages : list nat)
    (bound : nat) (evs : list Event) (r : Completion A) : Prop :=
  count_events is_goto evs <= bound
  /\ Forall (result_page_visit cfg kws pages) evs
  /\ rethrows evs r.

(** ** Footprints *)

(** [keeps J c]: every run of [c] relates its initial state, its events and
    its final state by [J], however it completes. *)
Definition keeps {W A} (J : Mem W -> list Event -> Mem W -> Prop) (c : M W A) : Prop :=
  forall m, satisfies c m (fun m' evs _ => J m evs m').

(** The events of the screening pass, apart from the write of the answers
    file. *)
Definition screening_event (ev : Event) : Prop :=
  match ev with
  | Logged (LogAnswer _ _) => True
  | Called (Evaluate ExtractQuestions _) _
  | Called (Evaluate (ClickRadio _) _) _ => True
  | Called (SelectOption (ById _) _ _) _
  | Called (Fill (ById _) _) _
  | Called (IsVisible (ById _) _) _ => True
  | _ => False
  end.

(** The events of the search for the Apply control. *)
Definition trigger_event (ev : Event) : Prop :=
  match ev with
  | Logged LogClickingApply => True
  | Called (IsVisible sel _) _ | Called (LocatorClick sel) _ =>
      In sel applySelectors
  | Called (WaitForTimeout _) _ => True
  | _ => False
  end.

(** The events of the step loop, apart from the write of the answers file. *)
Definition step_event (ev : Event) : Prop :=
  match ev with
  | Logged (LogStep _) | Logged (LogAlreadyConfirmed _)
  | Logged LogCoverLetterSkipped | Logged LogContinue
  | Logged LogSubmitClicked | Logged LogWaitingConfirmation
  | Logged (LogConfirmed _) | Logged LogNotDetected
  | Logged LogNoActionable => True
  | Called (WaitForTimeout _) _ | Called (WaitForFunction _) _ => True
  | Called (Evaluate IsDone _) _ | Called (Evaluate SkipCoverLetter _) _
  | Called (Evaluate Scroll _) _
  | Called (Evaluate (ClickButtonByText _) _) _
  | Called (Evaluate ClickSubmit _) _ => True
  | _ => screening_event ev
  end.

(** The events of one application, apart from the write of the answers
    file. *)
Definition apply_event (job : Job) (ev : Event) : Prop :=
  match ev with
  | Logged (LogApplying _ _) | Logged (LogJobDetails _ _ _)
  | Logged LogNoApplyButton | Logged (LogCouldNotComplete _)
  | Logged LogTabClosed | Logged (LogError _) => True
  | Called (Goto target _) _ => target = url job
  | _ => trigger_event ev \/ step_event ev
  end.

(** ** The answers file *)

(** The content an event writes to the answers file. *)
Definition written (ev : Event) : option JsObject.t :=
  match ev with
  | Called (WriteAnswersFile content) _ => Some content
  | _ => None
  end.

(** The contents written, whether or not the write went through, in order. *)
Definition writes (evs : list Event) : list JsObject.t := omap written evs.

(** Each content is the one before it, starting from [saved], with one
    answer assigned. *)
Fixpoint learning (saved : JsObject.t) (ws : list JsObject.t) : Prop :=
  match ws with
  | [] => True
  | o :: rest =>
      (exists question answer, o = persistAnswer saved question answer)
      /\ learning o rest
  end.

(** The last of the contents [ws], or [saved] when there is none. *)
Definition latest (saved : JsObject.t) (ws : list JsObject.t) : JsObject.t :=
  fold_left (fun _ o => o) ws saved.

(** The cache changes by assignments of answers only, and each new cache is
    written to the file at once. *)
Definition cache_trail {W} (m : Mem W) (evs : list Event) (m' : Mem W) : Prop :=
  learning (savedAnswers m) (writes evs)
  /\ savedAnswers m' = latest (savedAnswers m) (writes evs).

(** ** Observations on one application *)

(** An Apply locator was clicked. *)
Definition is_apply_click (ev : Event) : bool :=
  match ev with Called (LocatorClick _) _ => true | _ => false end.

(** The events of the form steps: no navigation and no click on a locator. *)
Definition in_form (ev : Event) : Prop :=
  is_goto ev = false /\ is_apply_click ev = false.

(** The completion text was found at the start of a step. *)
Definition is_already_confirmed (ev : Event) : bool :=
  match ev with Logged (LogAlreadyConfirmed _) => true | _ => false end.

(** The events on which [applyToSeekJob] reports success. *)
Definition is_success (ev : Event) : bool :=
  is_already_confirmed ev || is_submit_click ev.

(** What an application may do to the page besides writing the answers
    file. *)
Definition flow_event (job : Job) (ev : Event) : Prop :=
  match ev with
  | Called (WriteAnswersFile _) _ => True
  | _ => apply_event job ev
  end.

(** The click on an Apply locator went through. *)
Definition is_apply_clicked (ev : Event) : bool :=
  match ev with Called (LocatorClick _) None => true | _ => false end.

(** ** The batch of [main] *)

(** Step 4 of [main]: the unapplied jobs, cut at [maxApplications] (a
    count). *)
Definition toApply (allJobs : list Job) (maxApplications : nat) : list Job :=
  take maxApplications (List.filter (fun j => negb (applied j)) allJobs).

(** What [main] uses besides the page: the clock read by [new Date()] and
    the catalogue file written by [saveJobs], whose write may throw. *)
Class Host (W : Type) := {
  clock : W -> string;
  write_catalogue : list Job -> W -> W * option Exn
}.

(** What the batch does, in order: the progress line, one call of
    [applyToSeekJob] with its events and its result, the write of the
    catalogue, the line that announces a pause and the pause itself. *)
Inductive BatchEvent :=
| Progress (i n : nat)
| Applied (job : Job) (trace : list Event) (result : Completion bool)
| Saved (jobs : list Job) (rejected : option Exn)
| Waiting (delay : N)
| Pause (delay : N) (rejected : option Exn).

Section Batch.
Context {W : Type} `{Page W} `{Host W}.

(** The state of the loop over [toApply] when it is left. *)
Record BatchRun := {
  b_final : Mem W;
  b_allJobs : list Job;
  b_successCount : nat;
  b_events : list BatchEvent;
  b_completion : Completion unit
}.

Definition after (evs : list BatchEvent) (r : BatchRun) : BatchRun :=
  {| b_final := b_final r; b_allJobs := b_allJobs r;
     b_successCount := b_successCount r;
     b_events := evs ++ b_events r; b_completion := b_completion r |}.

(** The loop [for (let i = 0; i < toApply.length; i++)]: [n] is
    [toApply.length], [i] the index of the head of [jobs]. *)
Fixpoint apply_jobs (delay : N) (n i : nat) (jobs : list Job)
    (allJobs : list Job) (successCount : nat) (m : Mem W) : BatchRun :=
  match jobs with
  | [] =>
      {| b_final := m; b_allJobs := allJobs; b_successCount := successCount;
         b_events := []; b_completion := Normal tt |}
  | job :: rest =>
      let r := applyToSeekJob job m in
      let m1 := final r in
      let attempt := [Progress (S i) n; Applied job (events r) (completion r)] in
      match completion r with
      | Thrown e =>
          {| b_final := m1; b_allJobs := allJobs; b_successCount := successCount;
             b_events := attempt; b_completion := Thrown e |}
      | Normal success =>
          let allJobs1 :=
            record_outcome allJobs (url job) success (clock (world m1)) in
          let (w2, saved) := write_catalogue allJobs1 (world m1) in
          let m2 := {| world := w2; savedAnswers := savedAnswers m1 |} in
          match saved with
          | Some e =>
              {| b_final := m2; b_allJobs := allJobs1;
                 b_successCount := successCount;
                 b_events := attempt ++ [Saved allJobs1 (Some e)];
                 b_completion := Thrown e |}
          | None =>
              let successCount1 :=
                if success then S successCount else successCount in
              match rest with
              | [] =>
                  {| b_final := m2; b_allJobs := allJobs1;
                     b_successCount := successCount1;
                     b_events := attempt ++ [Saved allJobs1 None];
                     b_completion := Normal tt |}
              | _ :: _ =>
                  let (w3, paused) := respond (WaitForTimeout delay) w2 in
                  let m3 := {| world := w3; savedAnswers := savedAnswers m1 |} in
                  let evs := attempt ++ [Saved allJobs1 None; Waiting delay;
                                         Pause delay paused] in
                  match paused with
                  | Some e =>
                      {| b_final := m3; b_allJobs := allJobs1;
                         b_successCount := successCount1;
                         b_events := evs; b_completion := Thrown e |}
                  | None =>
                      after evs (apply_jobs delay n (S i) rest allJobs1
                                            successCount1 m3)
                  end
              end
          end
      end
  end.

(** Step 4 of [main], up to the summary. *)
Definition apply_batch (maxApplications : nat) (delay : N) (allJobs : list Job)
    (m : Mem W) : BatchRun :=
  let jobs := toApply allJobs maxApplications in
  apply_jobs delay (length jobs) 0 jobs allJobs 0 m.

End Batch.

Arguments BatchRun W : clear implicits.

(** The jobs handed to [applyToSeekJob], in order. *)
Definition attempted (evs : list BatchEvent) : list Job :=
  omap (fun ev => match ev with Applied job _ _ => Some job | _ => None end) evs.

(** The applications that returned [true]. *)
Definition succeeded (ev : BatchEvent) : bool :=
  match ev with Applied _ _ (Normal true) => true | _ => false end.

Definition is_pause (ev : BatchEvent) : bool :=
  match ev with Pause _ _ => true | _ => false end.

(** The outcome an event reports is held by a record of [catalogue]. *)
Definition recorded (catalogue : list Job) (ev : BatchEvent) : Prop :=
  match ev with
  | Applied job _ (Normal result) =>
      exists j,
        In j catalogue /\ url j = url job /\ applied j = result
        /\ (appliedAt j = None <-> result = false)
  | _ => True
  end.

(** A host whose disk is full: every catalogue write throws. *)
Definition full_disk : Host unit :=
  {| clock := fun _ => "2024-05-02T10:00:00.000Z";
     write_catalogue := fun _ _ => (tt, Some {| message := "ENOSPC: no space left on device" |}) |}.

(** A host whose catalogue writes always go through. *)
Definition steady_host : Host unit :=
  {| clock := fun _ => "2024-05-02T10:00:00.000Z";
     write_catalogue := fun _ _ => (tt, None) |}.

(** ** The summary of [main] *)

(** The positions of the records that satisfy [p], counted from [i]. *)
Fixpoint positions_from (p : Job -> bool) (i : nat) (l : list Job) : list nat :=
  match l with
  | [] => []
  | j :: rest =>
      if p j then i :: positions_from p (S i) rest
      else positions_from p (S i) rest
  end.

(** [toApply] as references: [filter] and [slice] copy the array, not the
    records, so the elements of [toApply] are records of [allJobs], here the
    positions they have there. *)
Definition toApply_refs (allJobs : list Job) (maxApplications : nat) : list nat :=
  take maxApplications (positions_from (fun j => negb (applied j)) 0 allJobs).

(** The records behind the references, as [catalogue] holds them. *)
Definition current (catalogue : list Job) (refs : list nat) : list Job :=
  omap (fun i => catalogue !! i) refs.

(** What [printSummary] prints: the jobs applied to, and the three counts. *)
Record Summary := {
  sum_applied : list Job;
  sum_failed : nat;
  sum_total : nat
}.

Definition printSummary (jobs : list Job) : Summary :=
  {| sum_applied := List.filter applied jobs;
     sum_failed := length (List.filter (fun j => negb (applied j)) jobs);
     sum_total := length jobs |}.

(** ** More fixtures *)

(** A form with one radio question: a label bound to a radio input. *)
Definition radio_form : Document :=
  {| body_innerText := "Are you willing to relocate?";
     elements :=
       [ {| tagName := "label"; el_id := ""; el_for := Some "relocate";
            el_role := None; el_type := ""; el_disabled := false;
            textContent := " Are you willing to relocate? "; el_value := "";
            el_options := []; el_control := None; el_container_text := "" |};
         {| tagName := "input"; el_id := "relocate"; el_for := None;
            el_role := None; el_type := "radio"; el_disabled := false;
            textContent := ""; el_value := "yes"; el_options := [];
            el_control := None; el_container_text := "Yes" |} ];
     articles := [] |}.

Definition relocate_question : Question :=
  {| q_label := "are you willing to relocate?"; q_type := q_radio;
     q_id := "relocate"; q_options := [] |}.

(** A state whose cache already holds an answer learned in an earlier run. *)
Definition returning_user : Mem unit :=
  {| world := tt; savedAnswers := [("sponsorship", "No")] |}.

(** * Properties *)

(** ** Reasoning about runs *)

Section Runs.
Context {W : Type} `{Page W}.
Local Open Scope flow_scope.

Lemma sat_ret {A} (a : A) (m : Mem W) Q :
  Q m [] (Normal a) -> satisfies (ret a) m Q.
Proof. intros HQ; exact HQ. Qed.

Lemma sat_log l (m : Mem W) Q :
  Q m [Logged l] (Normal tt) -> satisfies (log l) m Q.
Proof. intros HQ; exact HQ. Qed.

Lemma sat_read_saved (m : Mem W) Q :
  Q m [] (Normal (savedAnswers m)) -> satisfies read_saved m Q.
Proof. intros HQ; exact HQ. Qed.

Lemma sat_write_saved o (m : Mem W) Q :
  Q {| world := world m; savedAnswers := o |} [] (Normal tt) ->
  satisfies (write_saved o) m Q.
Proof. intros HQ; exact HQ. Qed.

Lemma sat_bind {A B} (c : M W A) (k : A -> M W B) m Q :
  satisfies c m (fun m1 ev1 r1 =>
    match r1 with
    | Normal a => satisfies (k a) m1 (fun m2 ev2 r2 => Q m2 (ev1 ++ ev2) r2)
    | Thrown e => Q m1 ev1 (Thrown e)
    end) ->
  satisfies (bind c k) m Q.
Proof.
  unfold satisfies, bind. destruct (completion (c m)); simpl; auto.
Qed.

Lemma sat_try {A} (c : M W A) (h : Exn -> M W A) m Q :
  satisfies c m (fun m1 ev1 r1 =>
    match r1 with
    | Normal a => Q m1 ev1 (Normal a)
    | Thrown e => satisfies (h e) m1 (fun m2 ev2 r2 => Q m2 (ev1 ++ ev2) r2)
    end) ->
  satisfies (try_catch c h) m Q.
Proof.
  unfold satisfies, try_catch, catch_with.
  destruct (completion (c m)) eqn:E; simpl; auto.
  intros HQ. rewrite E. exact HQ.
Qed.

Lemma sat_call c (m : Mem W) Q :
  Q {| world := (respond c (world m)).1; savedAnswers := savedAnswers m |}
    [Called c (respond c (world m)).2]
    (match (respond c (world m)).2 with
     | None => Normal tt
     | Some e => Thrown e
     end) ->
  satisfies (call c) m Q.
Proof.
  unfold satisfies, call. destruct (respond c (world m)); simpl; auto.
Qed.

Lemma sat_evaluate {A} name (script : Document -> A * list DomEffect)
    (m : Mem W) Q :
  (let c := Evaluate name (script (document (world m))).2 in
   Q {| world := (respond c (world m)).1; savedAnswers := savedAnswers m |}
     [Called c (respond c (world m)).2]
     (match (respond c (world m)).2 with
      | None => Normal (script (document (world m))).1
      | Some e => Thrown e
      end)) ->
  satisfies (evaluate name script) m Q.
Proof.
  unfold satisfies, evaluate.
  destruct (script (document (world m))) as [a effs]. simpl.
  unfold bind, call. destruct (respond _ (world m)) as [w' [e|]]; simpl; auto.
Qed.

Lemma sat_isVisible sel t (m : Mem W) Q :
  (let c := IsVisible sel t in
   let m' := {| world := (respond c (world m)).1; savedAnswers := savedAnswers m |} in
   Q m' [Called c (respond c (world m)).2]
     (match (respond c (world m)).2 with
      | None => Normal (visible sel (world m'))
      | Some e => Thrown e
      end)) ->
  satisfies (isVisible sel t) m Q.
Proof.
  unfold satisfies, isVisible, bind, call.
  destruct (respond _ (world m)) as [w' [e|]]; simpl; auto.
Qed.

Lemma sat_mono {A} (c : M W A) m (Q Q' : Mem W -> list Event -> Completion A -> Prop) :
  satisfies c m Q ->
  (forall m' evs r, Q m' evs r -> Q' m' evs r) ->
  satisfies c m Q'.
Proof. unfold satisfies; auto. Qed.

End Runs.

(** One step of symbolic execution of a run. *)
Ltac run_step :=
  lazymatch goal with
  | |- satisfies (bind _ _) _ _ => apply sat_bind
  | |- satisfies (ret _) _ _ => apply sat_ret
  | |- satisfies (log _) _ _ => apply sat_log
  | |- satisfies (call _) _ _ => apply sat_call
  | |- satisfies (waitForTimeout _) _ _ => apply sat_call
  | |- satisfies (evaluate _ _) _ _ => apply sat_evaluate
  | |- satisfies (clickButtonByText _) _ _ => apply sat_evaluate
  | |- satisfies (isVisible _ _) _ _ => apply sat_isVisible
  | |- satisfies (try_catch _ _) _ _ => apply sat_try
  | |- satisfies (catch_with _ _) _ _ => apply sat_try
  | |- satisfies read_saved _ _ => apply sat_read_saved
  | |- satisfies (write_saved _) _ _ => apply sat_write_saved
  | |- satisfies (if ?b then _ else _) _ _ => destruct b eqn:?
  | |- satisfies (match ?x with _ => _ end) _ _ => destruct x eqn:?
  | |- context [respond ?c ?w] =>
      let w' := fresh "w" in
      let e := fresh "e" in
      destruct (respond c w) as [w' [e|]] eqn:?
  end; cbv beta iota zeta; cbn [fst snd world savedAnswers].

Ltac run := repeat run_step.

Ltac plain_events :=
  repeat rewrite Forall_app; repeat rewrite Forall_cons; repeat rewrite Forall_nil;
  unfold plain; simpl; repeat split; auto.

(** A thrown completion is blamed on the rejected call it came from. *)
Ltac solve_blamed :=
  unfold blamed;
  first
    [ exact I
    | match goal with
      | E : respond ?c ?w = (_, Some ?e) |- _ =>
          exists c, w; split; [reflexivity | rewrite E; reflexivity]
      end ].

(** ** The screening pass *)

Section Screening.
Context {W : Type} `{Page W}.

Lemma persist_spec question answer (m : Mem W) :
  satisfies (persist question answer) m (fun m' evs r =>
    r = Normal tt /\ Forall plain evs
    /\ savedAnswers m' = persistAnswer (savedAnswers m) question answer).
Proof. unfold persist. run; plain_events. Qed.

Lemma fill_answer_spec q answer (m : Mem W) :
  satisfies (fill_answer q answer) m (fun m' evs r =>
    Forall plain evs /\ savedAnswers m' = savedAnswers m).
Proof. unfold fill_answer. run; plain_events. Qed.

Lemma answer_question_spec q (m : Mem W) :
  satisfies (answer_question q) m (fun m' evs r =>
    r = Normal tt /\ Forall plain evs
    /\ savedAnswers m' = cache_after_question (savedAnswers m) q).
Proof.
  unfold answer_question, cache_after_question.
  destruct (truthy (q_label q)); simpl; [| run; plain_events].
  run_step. run_step.
  destruct (findAnswer (savedAnswers m) (q_label q) (q_options q)) as [answer|];
    [| run; plain_events].
  destruct (truthy answer); simpl; [| run; plain_events].
  run_step. run_step. run_step.
  eapply sat_mono; [apply persist_spec |].
  intros m1 ev1 r1 (-> & Hev1 & Hs1).
  run_step.
  eapply sat_mono; [apply fill_answer_spec |].
  intros m2 ev2 r2 (Hev2 & Hs2).
  destruct r2 as [[]|]; run; rewrite Hs2, Hs1; plain_events.
Qed.

Lemma answer_questions_spec qs (m : Mem W) :
  satisfies (answer_questions qs) m (fun m' evs r =>
    r = Normal tt /\ Forall plain evs
    /\ savedAnswers m' = fold_left cache_after_question qs (savedAnswers m)).
Proof.
  revert m. induction qs as [|q qs IH]; intros m; simpl.
  - run; plain_events.
  - run_step.
    eapply sat_mono; [apply answer_question_spec |].
    intros m1 ev1 r1 (-> & Hev1 & Hs1).
    eapply sat_mono; [apply IH |].
    intros m2 ev2 r2 (-> & Hev2 & Hs2).
    rewrite Hs2, Hs1. plain_events.
Qed.

Lemma answerScreeningQuestions_spec job (m : Mem W) :
  satisfies (answerScreeningQuestions job) m (fun m' evs r =>
    Forall plain evs /\ blamed r).
Proof.
  unfold answerScreeningQuestions. run_step. run_step. run_step.
  - plain_events. solve_blamed.
  - eapply sat_mono; [apply answer_questions_spec |].
    intros m2 ev2 r2 (-> & Hev2 & _). plain_events.
Qed.

Lemma click_apply_spec sels (m : Mem W) :
  satisfies (click_apply sels) m (fun m' evs r =>
    Forall plain evs /\ blamed r).
Proof.
  revert m. induction sels as [|sel sels IH]; intros m; simpl.
  - run; plain_events.
  - run; try (plain_events; solve_blamed);
      (eapply sat_mono; [apply IH |]; intros m2 ev2 r2 (Hev2 & Hb); plain_events).
Qed.

End Screening.

(** ** The trigger scripts *)

Lemma clickButtonByText_script_cases texts d :
  (exists i, clickButtonByText_script texts d = (true, [ElementClick i]))
  \/ clickButtonByText_script texts d = (false, []).
Proof.
  unfold clickButtonByText_script.
  destruct (find_element _ d) as [[i btn]|]; [| now right].
  destruct (el_disabled btn); simpl; [now right | left; now exists i].
Qed.

Lemma submit_script_cases d :
  (exists i, submit_script d = (true, [ElementDispatchClick i]))
  \/ submit_script d = (false, []).
Proof.
  unfold submit_script.
  destruct (find_element _ d) as [[i b]|]; [left; now exists i | now right].
Qed.

(** ** Events of plain runs *)

Lemma plain_no_step evs :
  Forall plain evs -> List.filter is_step_start evs = [].
Proof.
  induction 1 as [|ev evs (Hs & _ & _) _ IH]; simpl; [reflexivity |].
  now rewrite Hs.
Qed.

Lemma plain_no_attempt evs :
  Forall plain evs -> List.filter is_trigger_attempt evs = [].
Proof.
  induction 1 as [|ev evs (_ & Hc & Hs) _ IH]; simpl; [reflexivity |].
  unfold is_trigger_attempt. now rewrite Hc, Hs.
Qed.

Ltac project_events :=
  unfold count_events, attempts;
  repeat first
    [ progress simpl
    | rewrite List.filter_app
    | match goal with
      | Hp : Forall plain ?l |- context [List.filter is_step_start ?l] =>
          rewrite (plain_no_step l Hp)
      | Hp : Forall plain ?l |- context [List.filter is_trigger_attempt ?l] =>
          rewrite (plain_no_attempt l Hp)
      end ].

(** Expose what the two trigger scripts returned. *)
Ltac trigger_cases :=
  repeat match goal with
    | |- context [clickButtonByText_script ?t ?d] =>
        let i := fresh "i" in
        let E := fresh "E" in
        destruct (clickButtonByText_script_cases t d) as [[i E] | E];
        rewrite E in *; cbn [fst snd] in *
    | |- context [submit_script ?d] =>
        let i := fresh "i" in
        let E := fresh "E" in
        destruct (submit_script_cases d) as [[i E] | E];
        rewrite E in *; cbn [fst snd] in *
    end.

Lemma count_events_app p evs evs' :
  count_events p (evs ++ evs') = count_events p evs + count_events p evs'.
Proof. unfold count_events. now rewrite List.filter_app, length_app. Qed.

Lemma count_events_absent p evs :
  Forall (fun ev => p ev = false) evs -> count_events p evs = 0.
Proof.
  unfold count_events. induction 1 as [|ev evs Hev _ IH]; simpl; [reflexivity |].
  now rewrite Hev.
Qed.

Lemma count_events_present p evs ev :
  In ev evs -> p ev = true -> 0 < count_events p evs.
Proof.
  unfold count_events. intros Hin Hp.
  assert (Hf : In ev (List.filter p evs)) by (apply List.filter_In; auto).
  destruct (List.filter p evs); [destruct Hf | simpl; lia].
Qed.

Lemma click_is_attempt ev :
  (is_continue_click ev = true -> is_continue_attempt ev = true)
  /\ (is_submit_click ev = true -> is_submit_attempt ev = true).
Proof.
  destruct ev as [[? ?|?|? ?|?|[] [|? ?]|?|? ? ?|? ?|?] [?|]|?];
    simpl; split; congruence.
Qed.

Lemma plain_no_clicks evs :
  Forall plain evs ->
  count_events is_continue_click evs = 0 /\ count_events is_submit_click evs = 0.
Proof.
  intros Hp; split; apply count_events_absent;
    (eapply Forall_impl; [exact Hp |]); intros ev (_ & Hc & Hs);
    destruct (click_is_attempt ev) as [Hcc Hsc].
  - destruct (is_continue_click ev); [specialize (Hcc eq_refl); congruence | reflexivity].
  - destruct (is_submit_click ev); [specialize (Hsc eq_refl); congruence | reflexivity].
Qed.

Lemma plain_count_step evs :
  Forall plain evs -> count_events is_step_start evs = 0.
Proof.
  intros Hp. apply count_events_absent.
  eapply Forall_impl; [exact Hp |]. now intros ev (Hs & _).
Qed.

Lemma filter_within {A} (p q : A -> bool) l :
  (forall x, p x = true -> q x = true) ->
  List.filter p (List.filter q l) = List.filter p l.
Proof.
  intros Hpq. induction l as [|x l IH]; simpl; [reflexivity |].
  destruct (q x) eqn:Eq; simpl.
  - destruct (p x); now rewrite IH.
  - destruct (p x) eqn:Ep; [rewrite (Hpq x Ep) in Eq; discriminate | exact IH].
Qed.

Lemma count_events_cons p ev evs :
  count_events p (ev :: evs) = (if p ev then 1 else 0) + count_events p evs.
Proof. unfold count_events; simpl. now destruct (p ev). Qed.

Lemma count_events_nil p : count_events p [] = 0.
Proof. reflexivity. Qed.

(** Split the counts of a concatenation and evaluate them on the events
    that are known. *)
Ltac count_up :=
  rewrite ?count_events_app, ?count_events_cons, ?count_events_nil;
  cbn [is_step_start is_continue_click is_submit_click is_submit_attempt
       is_continue_attempt].

(** Clicks are among the attempts. *)
Lemma count_clicks_attempts evs :
  count_events is_continue_click evs = count_events is_continue_click (attempts evs)
  /\ count_events is_submit_click evs = count_events is_submit_click (attempts evs).
Proof.
  unfold count_events, attempts.
  split; rewrite filter_within; auto; intros ev Hev;
    destruct (click_is_attempt ev) as [Hcc Hsc]; unfold is_trigger_attempt.
  - now rewrite (Hcc Hev).
  - rewrite (Hsc Hev). apply orb_true_r.
Qed.

Lemma count_submit_attempts evs :
  count_events is_submit_attempt evs = count_events is_submit_attempt (attempts evs).
Proof.
  unfold count_events, attempts. rewrite filter_within; auto.
  intros ev Hev. unfold is_trigger_attempt. rewrite Hev. apply orb_true_r.
Qed.

(** ** One pass through the loop body *)

Ltac run_flow_step :=
  lazymatch goal with
  | |- satisfies (answerScreeningQuestions _) _ _ =>
      eapply sat_mono; [apply answerScreeningQuestions_spec |];
      let r := fresh "r" in
      let Hp := fresh "Hp" in
      let Hb := fresh "Hb" in
      intros ? ? r [Hp Hb]; destruct r; cbv beta iota
  | _ => run_step
  end.

Ltac outcome :=
  trigger_cases; try discriminate; project_events;
  (split; [lia | split; [first [assumption | solve_blamed] | constructor; eauto]]).

Section Step.
Context {W : Type} `{Page W}.

Lemma step_body_spec job step (m : Mem W) :
  satisfies (step_body job step) m (fun m' evs r =>
    count_events is_step_start evs <= 1
    /\ blamed r
    /\ step_outcome (attempts evs) r).
Proof. unfold step_body. repeat run_flow_step; outcome. Qed.

Lemma step_outcome_counts atts (r : Completion StepEnd) :
  step_outcome atts r ->
  count_events is_continue_click atts <= 1
  /\ (count_events is_submit_click atts = 0 \/ r = Normal (ReturnValue true))
  /\ (r = Normal NextStep -> count_events is_submit_attempt atts = 0).
Proof.
  destruct 1 as [r Hr|effs e|i r Hr|seffs e|i|]; unfold count_events; simpl;
    repeat split; auto; try congruence; try lia.
  - destruct effs; simpl; lia.
  - destruct seffs; simpl; auto.
Qed.

Lemma step_body_counts job step (m : Mem W) :
  satisfies (step_body job step) m (fun m' evs r =>
    count_events is_step_start evs <= 1
    /\ count_events is_continue_click evs <= 1
    /\ blamed r
    /\ (count_events is_submit_click evs = 0 \/ r = Normal (ReturnValue true))).
Proof.
  eapply sat_mono; [apply step_body_spec |].
  intros m' evs r (Hstep & Hb & Hout).
  destruct (count_clicks_attempts evs) as [-> ->].
  apply step_outcome_counts in Hout as (Hc & Hs & _). auto.
Qed.

End Step.

(** ** The step loop and the whole attempt *)

Section Loop.
Context {W : Type} `{Page W}.

Lemma step_loop_spec job steps (m : Mem W) :
  satisfies (step_loop job steps) m (fun m' evs r =>
    count_events is_step_start evs <= length steps
    /\ count_events is_continue_click evs <= length steps
    /\ blamed r
    /\ (count_events is_submit_click evs = 0 \/ r = Normal (Some true))).
Proof.
  revert m. induction steps as [|step steps IH]; intros m; simpl.
  - run. unfold count_events; simpl. repeat split; auto.
  - run_step.
    eapply sat_mono; [apply step_body_counts |].
    intros m1 ev1 r1 (Hstep & Hcont & Hb & Hsub).
    destruct r1 as [[| |b]|e].
    + eapply sat_mono; [apply IH |].
      intros m2 ev2 r2 (Hstep2 & Hcont2 & Hb2 & Hsub2).
      rewrite !count_events_app.
      destruct Hsub as [Hsub | Hsub]; [| discriminate].
      repeat split; try lia; auto.
      destruct Hsub2 as [Hsub2 | ->]; [left; lia | now right].
    + run. rewrite !count_events_app. unfold count_events at 2 4 6. simpl.
      destruct Hsub as [Hsub | Hsub]; [| discriminate].
      repeat split; try lia; auto.
    + run. rewrite !count_events_app. unfold count_events at 2 4 6. simpl.
      repeat split; try lia; auto.
      destruct Hsub as [Hsub | Hsub]; [left; lia | right; congruence].
    + destruct Hsub as [Hsub | Hsub]; [| discriminate].
      repeat split; try lia; auto.
Qed.

End Loop.

Section Attempt.
Context {W : Type} `{Page W}.

Lemma apply_attempt_spec job (m : Mem W) :
  satisfies (apply_attempt job) m (fun m' evs r =>
    count_events is_step_start evs <= 8
    /\ count_events is_continue_click evs <= 8
    /\ blamed r
    /\ (count_events is_submit_click evs = 0 \/ r = Normal true)).
Proof.
  unfold apply_attempt.
  run_step. run_step.
  run_step; [count_up; repeat split; auto; try lia; solve_blamed |].
  run_step. run_step.
  run_step; [count_up; repeat split; auto; try lia; solve_blamed |].
  run_step.
  eapply sat_mono; [apply click_apply_spec |].
  intros m1 ev1 r1 (Hp1 & Hb1).
  destruct (plain_no_clicks _ Hp1) as [Hc1 Hs1].
  pose proof (plain_count_step _ Hp1) as Hst1.
  destruct r1 as [[|]|e]; cbn [negb]; cbv beta iota.
  - run_step.
    eapply sat_mono; [apply step_loop_spec |].
    intros m2 ev2 r2 (Hst2 & Hc2 & Hb2 & Hs2). simpl in Hst2, Hc2.
    destruct r2 as [[b|]|e]; run; count_up; rewrite Hc1, Hs1, Hst1;
      (repeat split; auto; try lia);
      (destruct Hs2 as [Hs2 | Hs2]; [left; lia | right; congruence]).
  - run. count_up. rewrite Hc1, Hs1, Hst1. repeat split; auto; lia.
  - count_up. rewrite Hc1, Hs1, Hst1. repeat split; auto; lia.
Qed.

Lemma apply_handler_spec e (m : Mem W) :
  satisfies (apply_handler e) m (fun m' evs r =>
    r = Normal false
    /\ evs = [Logged (if includes (message e) "closed" || includes (message e) "Target"
                      then LogTabClosed else LogError (message e))]).
Proof.
  unfold apply_handler.
  assert (Hmsg : or_else (message e) "" = message e)
    by (unfold or_else; now destruct (message e)).
  rewrite Hmsg. run; auto.
Qed.

Lemma applyToSeekJob_spec job (m : Mem W) :
  satisfies (applyToSeekJob job) m (fun m' evs r =>
    (exists b, r = Normal b)
    /\ count_events is_step_start evs <= 8
    /\ count_events is_continue_click evs <= 8
    /\ (count_events is_submit_click evs = 0 \/ r = Normal true)).
Proof.
  unfold applyToSeekJob. run_step. run_step. run_step. run_step. run_step.
  eapply sat_mono; [apply apply_attempt_spec |].
  intros m1 ev1 r1 (Hst & Hc & _ & Hs).
  destruct r1 as [b|e].
  - count_up. repeat split; eauto.
  - eapply sat_mono; [apply apply_handler_spec |].
    intros m2 ev2 r2 (-> & ->).
    destruct Hs as [Hs | Hs]; [| discriminate].
    count_up. destruct (_ || _); count_up; repeat split; eauto; lia.
Qed.

End Attempt.

Lemma plain_count_submit_attempt evs :
  Forall plain evs -> count_events is_submit_attempt evs = 0.
Proof.
  intros Hp. apply count_events_absent.
  eapply Forall_impl; [exact Hp |]. now intros ev (_ & _ & Hs).
Qed.

(** ** A form that always offers an enabled continue control *)

Section Ceiling.
Context {W : Type} `{Page W}.
Variable sel0 : Selector.
Hypothesis calls_resolve :
  forall c w, propagating c = true -> (respond c w).2 = None.
Hypothesis apply_listed : In sel0 applySelectors.
Hypothesis apply_shown : forall t w, (respond (IsVisible sel0 t) w).2 = None.
Hypothesis apply_visible : forall w, visible sel0 w = true.
Hypothesis never_done : forall w, (isDone_script (document w)).1 = false.
Hypothesis continue_offered : forall w, exists i btn,
  find_element (fun el => sel_clickable el && text_matches continue_texts el)
               (document w) = Some (i, btn)
  /\ el_disabled btn = false.

Lemma continue_clicks w :
  exists i, clickButtonByText_script continue_texts (document w)
            = (true, [ElementClick i]).
Proof.
  destruct (continue_offered w) as (i & btn & Hfind & Hen).
  exists i. unfold clickButtonByText_script. now rewrite Hfind, Hen.
Qed.

Ltac impossible :=
  match goal with
  | E : respond ?c ?w = (_, Some _) |- _ =>
      let X := fresh in
      pose proof (calls_resolve c w eq_refl) as X; rewrite E in X; discriminate X
  | E : (isDone_script (document ?w)).1 = true |- _ =>
      rewrite never_done in E; discriminate E
  | E : (clickButtonByText_script continue_texts (document ?w)).1 = false |- _ =>
      let i := fresh in
      let X := fresh in
      destruct (continue_clicks w) as [i X]; rewrite X in E; discriminate E
  | Hb : blamed (Thrown _) |- _ =>
      let c := fresh in
      let w := fresh in
      let Hc := fresh in
      let Hr := fresh in
      destruct Hb as (c & w & Hc & Hr);
      rewrite (calls_resolve c w Hc) in Hr; discriminate Hr
  end.

Lemma step_body_continues job step (m : Mem W) :
  satisfies (step_body job step) m (fun m' evs r =>
    r = Normal NextStep
    /\ count_events is_step_start evs = 1
    /\ count_events is_continue_click evs = 1
    /\ count_events is_submit_attempt evs = 0).
Proof.
  unfold step_body. repeat run_flow_step; try impossible.
  all: match goal with
       | |- context [clickButtonByText_script continue_texts (document ?w)] =>
           destruct (continue_clicks w) as [i ->]
       end.
  all: match goal with
       | Hp : Forall plain ?evs |- _ =>
           destruct (plain_no_clicks _ Hp) as [Hc _];
           pose proof (plain_count_step _ Hp) as Hst;
           pose proof (plain_count_submit_attempt _ Hp) as Hsa
       end.
  all: count_up; rewrite Hc, Hst, Hsa; auto.
Qed.

Lemma step_loop_continues job steps (m : Mem W) :
  satisfies (step_loop job steps) m (fun m' evs r =>
    r = Normal None
    /\ count_events is_step_start evs = length steps
    /\ count_events is_continue_click evs = length steps
    /\ count_events is_submit_attempt evs = 0).
Proof.
  revert m. induction steps as [|step steps IH]; intros m; simpl.
  - run. count_up. auto.
  - run_step.
    eapply sat_mono; [apply step_body_continues |].
    intros m1 ev1 r1 (-> & Hst1 & Hc1 & Hs1).
    eapply sat_mono; [apply IH |].
    intros m2 ev2 r2 (-> & Hst2 & Hc2 & Hs2).
    count_up. rewrite Hst1, Hc1, Hs1, Hst2, Hc2, Hs2. auto.
Qed.

Lemma click_apply_finds sels (m : Mem W) :
  In sel0 sels ->
  satisfies (click_apply sels) m (fun m' evs r =>
    r = Normal true /\ Forall plain evs).
Proof.
  revert m. induction sels as [|sel sels IH]; intros m Hin; [destruct Hin |].
  assert (Hrest : sel <> sel0 -> In sel0 sels)
    by (destruct Hin; [congruence | auto]).
  simpl. run; try impossible; try (split; [reflexivity | plain_events]).
  - eapply sat_mono; [apply IH |].
    + apply Hrest. intros ->.
      match goal with
      | E : respond (IsVisible sel0 ?t) ?w = _ |- _ =>
          pose proof (apply_shown t w) as X; rewrite E in X; discriminate X
      end.
    + intros m2 ev2 r2 (-> & Hev2). split; [reflexivity | plain_events].
  - eapply sat_mono; [apply IH |].
    + apply Hrest. intros ->.
      match goal with
      | E : visible sel0 ?w = false |- _ => rewrite apply_visible in E; discriminate E
      end.
    + intros m2 ev2 r2 (-> & Hev2). split; [reflexivity | plain_events].
Qed.

Lemma apply_attempt_abandons job (m : Mem W) :
  satisfies (apply_attempt job) m (fun m' evs r =>
    r = Normal false
    /\ count_events is_step_start evs = 8
    /\ count_events is_continue_click evs = 8
    /\ count_events is_submit_attempt evs = 0).
Proof.
  unfold apply_attempt. run_step. run_step. run_step; [impossible |].
  run_step. run_step. run_step; [impossible |]. run_step.
  eapply sat_mono; [apply (click_apply_finds _ _ apply_listed) |].
  intros m1 ev1 r1 (-> & Hp1). cbn [negb]; cbv beta iota.
  destruct (plain_no_clicks _ Hp1) as [Hc1 _].
  pose proof (plain_count_step _ Hp1) as Hst1.
  pose proof (plain_count_submit_attempt _ Hp1) as Hsa1.
  run_step.
  eapply sat_mono; [apply step_loop_continues |].
  intros m2 ev2 r2 (-> & Hst2 & Hc2 & Hs2). simpl in Hst2, Hc2.
  run. count_up. rewrite Hc1, Hst1, Hsa1, Hst2, Hc2, Hs2. auto.
Qed.

Lemma applyToSeekJob_abandons job (m : Mem W) :
  satisfies (applyToSeekJob job) m (fun m' evs r =>
    r = Normal false
    /\ count_events is_step_start evs = 8
    /\ count_events is_continue_click evs = 8
    /\ count_events is_submit_attempt evs = 0).
Proof.
  unfold applyToSeekJob. run_step. run_step. run_step. run_step. run_step.
  eapply sat_mono; [apply apply_attempt_abandons |].
  intros m1 ev1 r1 (-> & Hst & Hc & Hs).
  count_up. rewrite Hst, Hc, Hs. auto.
Qed.

End Ceiling.

(** ** What the trigger scripts click *)

Lemma find_from_sound p i l j el :
  find_from p i l = Some (j, el) ->
  i <= j /\ nth_error l (j - i) = Some el /\ p el = true.
Proof.
  revert i. induction l as [|x l IH]; intros i; simpl; [discriminate |].
  destruct (p x) eqn:Ep.
  - intros [= <- <-]. rewrite Nat.sub_diag. auto.
  - intros Hf. apply IH in Hf as (Hle & Hnth & Hp).
    replace (j - i) with (S (j - S i)) by lia. simpl. repeat split; auto; lia.
Qed.

Lemma find_element_sound p d j el :
  find_element p d = Some (j, el) ->
  nth_error (elements d) j = Some el /\ p el = true.
Proof.
  unfold find_element. intros Hf.
  apply find_from_sound in Hf as (_ & Hnth & Hp).
  rewrite Nat.sub_0_r in Hnth. auto.
Qed.

Lemma clickButtonByText_script_sound texts d effs :
  clickButtonByText_script texts d = (true, effs) ->
  exists i btn, effs = [ElementClick i]
    /\ nth_error (elements d) i = Some btn
    /\ sel_clickable btn = true
    /\ text_matches texts btn = true
    /\ el_disabled btn = false.
Proof.
  unfold clickButtonByText_script.
  destruct (find_element _ d) as [[i btn]|] eqn:Hf; [| discriminate].
  apply find_element_sound in Hf as (Hnth & Hp).
  apply andb_true_iff in Hp as [Hsel Hm].
  destruct (el_disabled btn) eqn:Hd; simpl; [discriminate |].
  intros [= <-]. exists i, btn. auto.
Qed.

Lemma attempts_split evs pre ev post :
  evs = pre ++ ev :: post -> is_trigger_attempt ev = true ->
  attempts evs = attempts pre ++ ev :: attempts post.
Proof.
  intros -> Hev. unfold attempts. rewrite List.filter_app. simpl. now rewrite Hev.
Qed.

Lemma in_attempts ev evs :
  In ev evs -> is_trigger_attempt ev = true -> In ev (attempts evs).
Proof. intros Hin Hev. apply List.filter_In. auto. Qed.

Lemma attempts_incl ev evs : In ev (attempts evs) -> In ev evs.
Proof. intros Hin. now apply List.filter_In in Hin. Qed.

Lemma sole_attempt (c ev : Event) pre post :
  [c] = pre ++ ev :: post -> ev = c.
Proof.
  destruct pre as [|x pre]; simpl; intros [= -> Hrest]; [reflexivity |].
  destruct pre; discriminate.
Qed.

Lemma second_attempt (c s ev : Event) pre post :
  [c; s] = pre ++ ev :: post -> ev <> c -> In c pre.
Proof.
  destruct pre as [|x pre]; simpl; intros [= -> Hrest] Hne; [congruence | auto].
Qed.

(** * The flow controller *)

(** X23 -- the step ceiling.  For every page and job the run of
    [applyToSeekJob] starts at most 8 iterations of the step loop and clicks
    continue at most 8 times.  When no propagating call is rejected, an apply
    locator is visible, the completion check never succeeds and the first
    clickable element matching the continue texts is always enabled, the run
    clicks continue exactly 8 times in exactly 8 iterations, never attempts
    submit, and returns [false]. *)
Theorem step_ceiling {W} `{Page W} (job : Job) (m : Mem W) :
  let r := applyToSeekJob job m in
  (count_events is_step_start (events r) <= 8
   /\ count_events is_continue_click (events r) <= 8)
  /\ ((forall c w, propagating c = true -> (respond c w).2 = None) ->
      (exists sel0, In sel0 applySelectors
                    /\ (forall t w, (respond (IsVisible sel0 t) w).2 = None)
                    /\ (forall w, visible sel0 w = true)) ->
      (forall w, (isDone_script (document w)).1 = false) ->
      (forall w, exists i btn,
          find_element (fun el => sel_clickable el && text_matches continue_texts el)
                       (document w) = Some (i, btn)
          /\ el_disabled btn = false) ->
      completion r = Normal false
      /\ count_events is_step_start (events r) = 8
      /\ count_events is_continue_click (events r) = 8
      /\ count_events is_submit_attempt (events r) = 0).
Proof.
  intros r. split.
  - destruct (applyToSeekJob_spec job m) as (_ & Hst & Hc & _). auto.
  - intros Hres (sel0 & Hin & Hshown & Hvis) Hdone Hcont.
    exact (applyToSeekJob_abandons sel0 Hres Hin Hshown Hvis Hdone Hcont job m).
Qed.

(** The form of the spec's scenario: one enabled "Continue" button, forever. *)
Lemma step_ceiling_witness :
  let r := @applyToSeekJob unit continue_form sample_job (start unit tt) in
  completion r = Normal false
  /\ count_events is_step_start (events r) = 8
  /\ count_events is_continue_click (events r) = 8
  /\ count_events is_submit_attempt (events r) = 0.
Proof.
  apply (proj2 (@step_ceiling unit continue_form sample_job (start unit tt))).
  - intros c w _. reflexivity.
  - exists (ByAutomation "job-detail-apply").
    split; [simpl; auto | split; intros; reflexivity].
  - intros w. reflexivity.
  - intros w. exists 0, (button "Continue" false). split; reflexivity.
Defined.

(** [clickButtonByText] looks at the first match only: when it is disabled,
    nothing is clicked, whatever enabled matches follow it. *)
Lemma disabled_first_match_blocks texts d i btn :
  find_element (fun el => sel_clickable el && text_matches texts el) d = Some (i, btn) ->
  el_disabled btn = true ->
  clickButtonByText_script texts d = (false, []).
Proof.
  intros Hfind Hdis. unfold clickButtonByText_script. now rewrite Hfind, Hdis.
Qed.

(** C1 -- a disabled first match hides the continue control.  On a form
    that never shows a completion text and offers, on every screen, an
    enabled "Continue" button below a disabled "Next" button,
    [clickButtonByText] finds the disabled button first and clicks nothing:
    the run starts one iteration, clicks continue zero times instead of 8,
    and returns [false]. *)
Theorem disabled_match_hides_continue :
  let d := screen "Upload your documents"
                  [button "Next" true; button "Continue" false] in
  let r := @applyToSeekJob unit shadowed_continue_form sample_job (start unit tt) in
  (isDone_script d).1 = false
  /\ nth_error (elements d) 1 = Some (button "Continue" false)
  /\ sel_clickable (button "Continue" false)
     && text_matches continue_texts (button "Continue" false) = true
  /\ el_disabled (button "Continue" false) = false
  /\ clickButtonByText_script continue_texts d = (false, [])
  /\ count_events is_step_start (events r) = 1
  /\ count_events is_continue_click (events r) = 0
  /\ completion r = Normal false.
Proof.
  intros d r. vm_compute. repeat split.
Qed.

(** C2 -- continue before submit.  In one pass through the loop body, every
    evaluation of the submit script comes after an evaluation of
    [clickButtonByText] with the continue texts; and when that evaluation
    clicked, the pass contains no evaluation of the submit script and ends by
    moving to the next step (or by an exception of a later wait). *)
Theorem continue_before_submit {W} `{Page W} job step (m : Mem W) :
  let evs := events (step_body job step m) in
  (forall pre ev post,
      evs = pre ++ ev :: post -> is_submit_attempt ev = true ->
      exists effs rej,
        In (Called (Evaluate (ClickButtonByText continue_texts) effs) rej) pre)
  /\ (forall ev,
        In ev evs -> is_continue_click ev = true ->
        (forall ev', In ev' evs -> is_submit_attempt ev' = false)
        /\ (completion (step_body job step m) = Normal NextStep
            \/ exists e, completion (step_body job step m) = Thrown e)).
Proof.
  intros evs. destruct (step_body_spec job step m) as (_ & _ & Hout).
  fold evs in Hout. split.
  - intros pre ev post Hsplit Hsub.
    assert (Hatt : is_trigger_attempt ev = true)
      by (unfold is_trigger_attempt; rewrite Hsub; apply orb_true_r).
    rewrite (attempts_split _ _ _ _ Hsplit Hatt) in Hout.
    inversion Hout as [r Hr Hl|effs e Hl|i r Hr Hl|seffs e Hl|i Hl|Hl].
    + destruct (attempts pre); discriminate.
    + apply sole_attempt in Hl. subst ev. discriminate.
    + apply sole_attempt in Hl. subst ev. discriminate.
    + exists [], None. apply attempts_incl.
      eapply second_attempt; [exact Hl | intros ->; discriminate].
    + exists [], None. apply attempts_incl.
      eapply second_attempt; [exact Hl | intros ->; discriminate].
    + exists [], None. apply attempts_incl.
      eapply second_attempt; [exact Hl | intros ->; discriminate].
  - intros ev Hin Hclick.
    assert (Hatt : In ev (attempts evs)).
    { apply in_attempts; [exact Hin |].
      unfold is_trigger_attempt.
      now rewrite (proj1 (click_is_attempt ev) Hclick). }
    assert (Hnone : forall atts, attempts evs = atts ->
              Forall (fun ev' => is_submit_attempt ev' = false) atts ->
              forall ev', In ev' evs -> is_submit_attempt ev' = false).
    { intros atts Ha Hall ev' Hin'.
      destruct (is_submit_attempt ev') eqn:Hs; [| reflexivity].
      assert (Hin'' : In ev' (attempts evs))
        by (apply in_attempts; [exact Hin' |
            unfold is_trigger_attempt; rewrite Hs; apply orb_true_r]).
      rewrite Ha in Hin''. rewrite Forall_forall in Hall.
      apply list_elem_of_In in Hin''. rewrite (Hall _ Hin'') in Hs. discriminate. }
    inversion Hout as [r Hr Hl|effs e Hl|i r Hr Hl|seffs e Hl|i Hl|Hl];
      rewrite <- Hl in Hatt; simpl in Hatt;
      repeat (destruct Hatt as [<- | Hatt]; try discriminate);
      try (destruct Hatt);
      try (destruct effs; discriminate).
    split; [| exact Hr].
    apply (Hnone _ (eq_sym Hl)). repeat constructor.
Qed.

(** Membership in a computed list of events. *)
Ltac pick_event := vm_compute; repeat first [left; reflexivity | right].

(** A screen offering both controls: continue is clicked, submit is not
    evaluated. *)
Lemma continue_before_submit_witness :
  let r := @step_body unit review_form sample_job 1 (start unit tt) in
  let click := Called (Evaluate (ClickButtonByText continue_texts) [ElementClick 1]) None in
  In click (events r)
  /\ is_continue_click click = true
  /\ Forall (fun ev => is_submit_attempt ev = false) (events r)
  /\ completion r = Normal NextStep.
Proof.
  intros r click.
  assert (Hin : In click (events r)) by pick_event.
  destruct (proj2 (@continue_before_submit unit review_form sample_job 1 (start unit tt))
              click Hin eq_refl) as [Hnone _].
  split; [exact Hin | split; [reflexivity | split; [| reflexivity]]].
  apply Forall_forall. intros ev Hev. apply Hnone. now apply list_elem_of_In.
Defined.


(** C3 -- a dispatched submit click is success.  Whenever the run of
    [applyToSeekJob] contains a resolved evaluation of the submit script that
    dispatched a click, the run returns [true], whatever the wait for the
    confirmation did afterwards. *)
Theorem submit_click_is_success {W} `{Page W} (job : Job) (m : Mem W) (ev : Event) :
  In ev (events (applyToSeekJob job m)) ->
  is_submit_click ev = true ->
  completion (applyToSeekJob job m) = Normal true.
Proof.
  intros Hin Hclick.
  destruct (applyToSeekJob_spec job m) as (_ & _ & _ & [Hnone | Hret]); [| exact Hret].
  pose proof (count_events_present _ _ _ Hin Hclick). lia.
Qed.

(** The submit click is dispatched and the confirmation wait times out. *)
Lemma submit_click_is_success_witness :
  let r := @applyToSeekJob unit submit_form sample_job (start unit tt) in
  In (Called (WaitForFunction 15000%N)
             (Some {| message := "Timeout 15000ms exceeded." |})) (events r)
  /\ completion r = Normal true.
Proof.
  intros r. split; [pick_event |].
  apply (@submit_click_is_success unit submit_form sample_job (start unit tt)
           (Called (Evaluate ClickSubmit [ElementDispatchClick 0]) None)).
  - pick_event.
  - reflexivity.
Defined.

(** C8 -- error containment.  The run of [applyToSeekJob] always completes
    normally with a boolean; when the attempt inside the [try] throws [e],
    the run returns [false] and its last output line classifies [e]: the
    closed-tab line when the message contains "closed" or "Target", the
    generic error line otherwise. *)
Theorem errors_are_contained {W} `{Page W} (job : Job) (m : Mem W) :
  (exists b, completion (applyToSeekJob job m) = Normal b)
  /\ (forall e,
        completion (apply_attempt job m) = Thrown e ->
        completion (applyToSeekJob job m) = Normal false
        /\ exists pre,
            events (applyToSeekJob job m)
            = pre ++ [Logged (if includes (message e) "closed"
                                 || includes (message e) "Target"
                              then LogTabClosed
                              else LogError (message e))]).
Proof.
  split.
  - destruct (applyToSeekJob_spec job m) as (Hb & _). exact Hb.
  - intros e He.
    pose proof (apply_handler_spec e (final (apply_attempt job m))) as (Hr & Hev).
    unfold applyToSeekJob, bind, log, try_catch. simpl. rewrite He. simpl.
    split; [exact Hr |].
    rewrite Hev.
    exists (Logged (LogApplying (title job) (company job))
            :: Logged (LogJobDetails (location job) (workType job) (salary job))
            :: events (apply_attempt job m)).
    reflexivity.
Qed.

(** The tab is closed while the job page loads. *)
Lemma errors_are_contained_witness :
  let r := @applyToSeekJob unit closed_tab sample_job (start unit tt) in
  completion r = Normal false
  /\ exists pre, events r = pre ++ [Logged LogTabClosed].
Proof.
  apply (proj2 (@errors_are_contained unit closed_tab sample_job (start unit tt))
           {| message := "Target page, context or browser has been closed" |}).
  reflexivity.
Defined.

(** * The answer resolver *)

(** ** Enumeration of a dictionary *)

Lemma in_insert_by_index x e l :
  In x (JsObject.insert_by_index e l) <-> x = e \/ In x l.
Proof.
  induction l as [|y l IH]; simpl.
  - intuition.
  - destruct (_ <=? _)%N; simpl; [intuition | rewrite IH; intuition].
Qed.

Lemma in_sort_by_index x l :
  In x (JsObject.sort_by_index l) <-> In x l.
Proof.
  unfold JsObject.sort_by_index.
  induction l as [|y l IH]; simpl; [reflexivity |].
  rewrite in_insert_by_index, IH. intuition.
Qed.

(** [Object.entries] lists exactly the own properties. *)
Lemma in_Object_entries x (o : JsObject.t) :
  In x (JsObject.Object_entries o) <-> In x o.
Proof.
  unfold JsObject.Object_entries.
  rewrite in_app_iff, in_sort_by_index, !List.filter_In.
  destruct (JsObject.is_index x); simpl; intuition.
Qed.

Lemma find_none_iff {A} (p : A -> bool) l :
  List.find p l = None <-> forall x, In x l -> p x = false.
Proof.
  split; [apply List.find_none |].
  induction l as [|y l IH]; simpl; intros Hall; [reflexivity |].
  rewrite (Hall y) by auto. apply IH. auto.
Qed.

Lemma prefix_refl s : String.prefix s s = true.
Proof.
  induction s as [|c s IH]; simpl; [reflexivity |].
  destruct (ascii_dec c c); [exact IH | congruence].
Qed.

Lemma includes_refl s : includes s s = true.
Proof. destruct s; simpl; [reflexivity |]. rewrite prefix_refl.
  destruct (ascii_dec a a); [reflexivity | congruence]. Qed.

(** ** The learned cache *)

Lemma get_set_new (o : JsObject.t) k v :
  JsObject.has_own o k = false -> k <> "__proto__" ->
  JsObject.get (JsObject.set o k v) k = Some v.
Proof.
  unfold JsObject.set, JsObject.get, JsObject.has_own. intros Hnew Hk.
  rewrite Hnew.
  destruct (String.eqb_spec k "__proto__") as [|_]; [contradiction |].
  induction o as [|kv o IH]; simpl in *.
  - now rewrite String.eqb_refl.
  - apply orb_false_iff in Hnew as [Hkv Ho]. rewrite Hkv. auto.
Qed.

Lemma get_set_own (o : JsObject.t) k v :
  JsObject.has_own o k = true ->
  JsObject.get (JsObject.set o k v) k = Some v.
Proof.
  unfold JsObject.set, JsObject.get, JsObject.has_own. intros Hown.
  rewrite Hown.
  induction o as [|kv o IH]; simpl in *; [discriminate |].
  destruct (String.eqb (fst kv) k) eqn:Hkv; simpl.
  - now rewrite String.eqb_refl.
  - rewrite Hkv. auto.
Qed.

Lemma unmatched_not_own (saved : JsObject.t) label :
  (forall k v, In (k, v) saved ->
     includes (toLowerCase label) (toLowerCase k) = false) ->
  JsObject.has_own saved label = false.
Proof.
  intros Hno. unfold JsObject.has_own.
  destruct (existsb _ saved) eqn:Hex; [| reflexivity].
  apply existsb_exists in Hex as ([k v] & Hin & Heq). simpl in Heq.
  apply String.eqb_eq in Heq. subst k.
  pose proof (includes_refl (toLowerCase label)) as Hr.
  rewrite (Hno _ _ Hin) in Hr. discriminate.
Qed.

Lemma cache_miss (saved : JsObject.t) label :
  (forall k v, In (k, v) saved ->
     includes (toLowerCase label) (toLowerCase k) = false) ->
  List.find (key_matches (toLowerCase label)) (JsObject.Object_entries saved) = None.
Proof.
  intros Hcache. apply find_none_iff. intros [k v] Hin.
  apply (proj1 (in_Object_entries _ _)) in Hin. exact (Hcache _ _ Hin).
Qed.

Lemma rules_miss label :
  (forall k v, In (k, v) SCREENING_ANSWERS ->
     includes (toLowerCase label) (toLowerCase k) = false) ->
  List.find (key_matches (toLowerCase label)) SCREENING_ANSWERS = None.
Proof.
  intros Hrules. apply find_none_iff. intros [k v] Hin. exact (Hrules _ _ Hin).
Qed.

(** Without a cache or rule match only the last test of [findAnswer] is left. *)
Lemma findAnswer_unmatched (saved : JsObject.t) label options :
  List.find (key_matches (toLowerCase label)) (JsObject.Object_entries saved) = None ->
  List.find (key_matches (toLowerCase label)) SCREENING_ANSWERS = None ->
  findAnswer saved label options
  = if existsb (String.eqb "Yes") options && existsb (String.eqb "No") options
    then Some "Yes" else None.
Proof. intros Hc Hr. unfold findAnswer. now rewrite Hc, Hr. Qed.

Lemma options_include s options :
  In s options -> existsb (String.eqb s) options = true.
Proof.
  intros Hin. apply existsb_exists. exists s. split; [exact Hin | apply String.eqb_refl].
Qed.

(** C10 -- the "Yes" default fires on containment.  When the label matches
    no key of the learned cache and no key of the rule table, and the option
    list contains both "Yes" and "No" (among any other options, in any
    order), [findAnswer] returns "Yes". *)
Theorem yes_default_on_containment (saved : JsObject.t) label options :
  (forall k v, In (k, v) saved ->
     includes (toLowerCase label) (toLowerCase k) = false) ->
  (forall k v, In (k, v) SCREENING_ANSWERS ->
     includes (toLowerCase label) (toLowerCase k) = false) ->
  In "Yes" options -> In "No" options ->
  findAnswer saved label options = Some "Yes".
Proof.
  intros Hcache Hrules Hyes Hno.
  rewrite (findAnswer_unmatched _ _ _ (cache_miss _ _ Hcache) (rules_miss _ Hrules)).
  rewrite (options_include _ _ Hyes), (options_include _ _ Hno).
  reflexivity.
Qed.

(** Three options, "Yes" last. *)
Lemma yes_default_on_containment_witness :
  findAnswer [("notice", "2 weeks")] "are you over 18?" ["Maybe"; "No"; "Yes"]
  = Some "Yes".
Proof.
  apply yes_default_on_containment.
  - intros k v [[= <- <-] | []]. reflexivity.
  - intros k v Hin. simpl in Hin.
    repeat (destruct Hin as [[= <- <-] | Hin]; [reflexivity |]). destruct Hin.
  - simpl; auto.
  - simpl; auto.
Defined.

(** C4 -- the learned cache is consulted first.  When the label matches a
    key of the learned cache and a key of the rule table, [findAnswer]
    returns the value of the first matching entry of the learned cache in
    enumeration order, whatever the rule table and the options are; when all
    matching cache entries carry the value [vc] (in particular when one key
    matches), it returns [vc]. *)
Theorem learned_cache_first (saved : JsObject.t) label options kc vc kr vr :
  In (kc, vc) saved ->
  includes (toLowerCase label) (toLowerCase kc) = true ->
  In (kr, vr) SCREENING_ANSWERS ->
  includes (toLowerCase label) (toLowerCase kr) = true ->
  (exists k v,
      List.find (key_matches (toLowerCase label)) (JsObject.Object_entries saved)
      = Some (k, v)
      /\ In (k, v) saved
      /\ includes (toLowerCase label) (toLowerCase k) = true
      /\ findAnswer saved label options = Some v)
  /\ ((forall k v, In (k, v) saved ->
         includes (toLowerCase label) (toLowerCase k) = true -> v = vc) ->
      findAnswer saved label options = Some vc).
Proof.
  intros Hc Hcm _ _.
  assert (Hfound : exists k v,
             List.find (key_matches (toLowerCase label))
                       (JsObject.Object_entries saved) = Some (k, v)).
  { destruct (List.find _ (JsObject.Object_entries saved)) as [[k v]|] eqn:Hf;
      [eauto |].
    rewrite find_none_iff in Hf.
    specialize (Hf (kc, vc) (proj2 (in_Object_entries _ _) Hc)).
    unfold key_matches in Hf; simpl in Hf. congruence. }
  destruct Hfound as (k & v & Hf).
  pose proof (List.find_some _ _ Hf) as [Hin Hm].
  apply (proj1 (in_Object_entries _ _)) in Hin.
  assert (Hres : findAnswer saved label options = Some v)
    by (unfold findAnswer; now rewrite Hf).
  split.
  - exists k, v. auto.
  - intros Hsame. rewrite Hres. f_equal. exact (Hsame _ _ Hin Hm).
Qed.

(** A learned salary beats the rule-table salary. *)
Lemma learned_cache_first_witness :
  findAnswer [("salary", "70000")] "Expected salary?" ["60000"; "65000"]
  = Some "70000".
Proof.
  apply (learned_cache_first [("salary", "70000")] "Expected salary?"
           ["60000"; "65000"] "salary" "70000" "expected salary" "65000").
  - simpl; auto.
  - reflexivity.
  - simpl; auto 10.
  - reflexivity.
  - intros k v [[= <- <-] | []] _. reflexivity.
Defined.

(** ** Substrings *)

Lemma append_cons c (a b : string) : String c a +:+ b = String c (a +:+ b).
Proof. reflexivity. Qed.

Lemma append_nil (b : string) : "" +:+ b = b.
Proof. reflexivity. Qed.

Lemma append_assoc (a b c : string) : (a +:+ b) +:+ c = a +:+ (b +:+ c).
Proof.
  induction a as [|x a IH]; [reflexivity |].
  now rewrite !append_cons, IH.
Qed.

Lemma prefix_spec t s :
  String.prefix t s = true <-> exists b, s = t +:+ b.
Proof.
  revert s. induction t as [|c t IH]; intros s.
  - split; [intros _; now exists s | intros _; now destruct s].
  - destruct s as [|d s]; simpl; [split; [discriminate | intros (b & [=])] |].
    destruct (ascii_dec c d) as [<-|Hne].
    + rewrite IH. split; intros (b & Hb); exists b.
      * now rewrite append_cons, Hb.
      * rewrite append_cons in Hb. now injection Hb.
    + split; [discriminate |].
      intros (b & Hb). rewrite append_cons in Hb. congruence.
Qed.

Lemma includes_nil t : includes "" t = String.prefix t "".
Proof. simpl. apply orb_false_r. Qed.

Lemma includes_cons c s t :
  includes (String c s) t = String.prefix t (String c s) || includes s t.
Proof. reflexivity. Qed.

Lemma includes_spec s t :
  includes s t = true <-> exists a b, s = a +:+ t +:+ b.
Proof.
  split.
  - induction s as [|c s IH].
    + rewrite includes_nil, prefix_spec. intros (b & Hb). now exists "", b.
    + rewrite includes_cons, orb_true_iff, prefix_spec. intros [(b & Hb) | Hin].
      * now exists "", b.
      * destruct (IH Hin) as (a & b & ->). now exists (String c a), b.
  - intros (a & b & ->). induction a as [|c a IH].
    + rewrite append_nil.
      assert (Hp : String.prefix t (t +:+ b) = true) by (apply prefix_spec; eauto).
      destruct (t +:+ b); [now rewrite includes_nil | now rewrite includes_cons, Hp].
    + rewrite append_cons, includes_cons, IH. apply orb_true_r.
Qed.

Lemma includes_trans s t u :
  includes s t = true -> includes t u = true -> includes s u = true.
Proof.
  rewrite !includes_spec. intros (a & b & ->) (a' & b' & ->).
  exists (a +:+ a'), (b' +:+ b). now rewrite !append_assoc.
Qed.

(** ** Entries of the learned cache that match a label *)

Lemma in_set (o : JsObject.t) k v kv :
  In kv (JsObject.set o k v) -> In kv o \/ kv = (k, v).
Proof.
  unfold JsObject.set. destruct (JsObject.has_own o k).
  - induction o as [|x o IH]; simpl; [tauto |].
    destruct (String.eqb (fst x) k); simpl; intuition.
  - destruct (String.eqb k "__proto__"); [tauto |].
    rewrite in_app_iff. simpl. intuition.
Qed.

Lemma get_set_other (o : JsObject.t) k v k' :
  k <> k' -> JsObject.get (JsObject.set o k v) k' = JsObject.get o k'.
Proof.
  intros Hne. unfold JsObject.set, JsObject.get.
  assert (Hk : String.eqb k k' = false) by now apply String.eqb_neq.
  destruct (JsObject.has_own o k).
  - induction o as [|x o IH]; simpl; [reflexivity |].
    destruct (String.eqb (fst x) k) eqn:Hx; simpl.
    + apply String.eqb_eq in Hx. rewrite Hx, Hk.
      destruct (List.find _ o); reflexivity.
    + destruct (String.eqb (fst x) k'); [reflexivity | exact IH].
  - destruct (String.eqb k "__proto__"); [reflexivity |].
    induction o as [|x o IH]; simpl; [now rewrite Hk |].
    destruct (String.eqb (fst x) k'); [reflexivity | exact IH].
Qed.

Lemma get_own (o : JsObject.t) k v :
  JsObject.get o k = Some v -> JsObject.has_own o k = true.
Proof.
  unfold JsObject.get, JsObject.has_own.
  destruct (List.find _ o) as [kv|] eqn:Hf; [| discriminate].
  intros _. apply List.find_some in Hf as [Hin Hk].
  apply existsb_exists. eauto.
Qed.

Section Learned.
Variable label : string.
Hypothesis no_rule :
  forall k v, In (k, v) SCREENING_ANSWERS ->
    includes (toLowerCase label) (toLowerCase k) = false.


Lemma findAnswer_holds_yes saved k options answer :
  matches_hold_yes label saved ->
  includes (toLowerCase label) (toLowerCase k) = true ->
  findAnswer saved k options = Some answer ->
  answer = "Yes".
Proof.
  intros Hall Hk. unfold findAnswer.
  destruct (List.find _ (JsObject.Object_entries saved)) as [[k' v']|] eqn:Hc.
  - intros [= <-]. apply List.find_some in Hc as [Hin Hm].
    apply (proj1 (in_Object_entries _ _)) in Hin.
    apply (Hall _ _ Hin). exact (includes_trans _ _ _ Hk Hm).
  - destruct (List.find _ SCREENING_ANSWERS) as [[r val]|] eqn:Hr.
    + apply List.find_some in Hr as [Hin Hm]. unfold key_matches in Hm; simpl in Hm.
      pose proof (no_rule _ _ Hin) as Hno.
      rewrite (includes_trans _ _ _ Hk Hm) in Hno. discriminate.
    + destruct (_ && _); [now intros [= <-] | discriminate].
Qed.

Lemma cache_after_question_holds_yes saved q :
  matches_hold_yes label saved -> matches_hold_yes label (cache_after_question saved q).
Proof.
  intros Hall. unfold cache_after_question.
  destruct (truthy (q_label q)); [| exact Hall].
  destruct (findAnswer saved (q_label q) (q_options q)) as [answer|] eqn:Hf;
    [| exact Hall].
  destruct (truthy answer); [| exact Hall].
  intros k v Hin Hk. apply in_set in Hin as [Hin | [= -> ->]].
  - exact (Hall _ _ Hin Hk).
  - exact (findAnswer_holds_yes _ _ _ _ Hall Hk Hf).
Qed.

Lemma cache_after_question_keeps saved q :
  matches_hold_yes label saved ->
  JsObject.get saved label = Some "Yes" ->
  JsObject.get (cache_after_question saved q) label = Some "Yes".
Proof.
  intros Hall Hget. unfold cache_after_question.
  destruct (truthy (q_label q)); [| exact Hget].
  destruct (findAnswer saved (q_label q) (q_options q)) as [answer|] eqn:Hf;
    [| exact Hget].
  destruct (truthy answer); [| exact Hget].
  unfold persistAnswer.
  destruct (String.eqb_spec (q_label q) label) as [Heq | Hne].
  - rewrite Heq in *.
    rewrite (findAnswer_holds_yes _ _ _ _ Hall (includes_refl _) Hf).
    apply get_set_own. exact (get_own _ _ _ Hget).
  - now rewrite get_set_other.
Qed.

Lemma later_questions_keep qs saved :
  matches_hold_yes label saved ->
  JsObject.get saved label = Some "Yes" ->
  JsObject.get (fold_left cache_after_question qs saved) label = Some "Yes".
Proof.
  revert saved. induction qs as [|q qs IH]; intros saved Hall Hget; simpl; [exact Hget |].
  apply IH; [apply cache_after_question_holds_yes | apply cache_after_question_keeps];
    assumption.
Qed.

End Learned.

(** C5, amended -- binary default.  For a question whose label is not empty
    (and is not the inherited accessor name [__proto__]), whose options are
    exactly "Yes" and "No" in any order, and whose label matches no key of
    the learned cache and no key of the rule table, [findAnswer] returns
    "Yes", the loop body of [answerScreeningQuestions] stores "Yes" under the
    label in the learned cache, and the entry is still there when the loop
    has handled any further questions. *)
Theorem binary_default_is_learned {W} `{Page W} (q : Question) (m : Mem W) :
  q_label q <> "" ->
  q_label q <> "__proto__" ->
  (forall o, In o (q_options q) <-> o = "Yes" \/ o = "No") ->
  (forall k v, In (k, v) (savedAnswers m) ->
     includes (toLowerCase (q_label q)) (toLowerCase k) = false) ->
  (forall k v, In (k, v) SCREENING_ANSWERS ->
     includes (toLowerCase (q_label q)) (toLowerCase k) = false) ->
  findAnswer (savedAnswers m) (q_label q) (q_options q) = Some "Yes"
  /\ JsObject.get (savedAnswers (final (answer_question q m))) (q_label q)
     = Some "Yes"
  /\ (forall rest,
        JsObject.get (savedAnswers (final (answer_questions (q :: rest) m)))
                     (q_label q)
        = Some "Yes").
Proof.
  intros Hlabel Hproto Hopts Hcache Hrules.
  assert (Hfind : findAnswer (savedAnswers m) (q_label q) (q_options q) = Some "Yes").
  { rewrite (findAnswer_unmatched _ _ _ (cache_miss _ _ Hcache) (rules_miss _ Hrules)).
    rewrite !options_include; [reflexivity | |]; apply Hopts; auto. }
  assert (Hafter : cache_after_question (savedAnswers m) q
                   = JsObject.set (savedAnswers m) (q_label q) "Yes").
  { unfold cache_after_question. rewrite Hfind.
    destruct (q_label q); [congruence | reflexivity]. }
  assert (Hget : JsObject.get (cache_after_question (savedAnswers m) q) (q_label q)
                 = Some "Yes").
  { rewrite Hafter. apply get_set_new; [| exact Hproto].
    apply unmatched_not_own. exact Hcache. }
  split; [exact Hfind | split].
  - destruct (answer_question_spec q m) as (_ & _ & ->). exact Hget.
  - intros rest.
    destruct (answer_questions_spec (q :: rest) m) as (_ & _ & ->). simpl.
    apply later_questions_keep; [exact Hrules | | exact Hget].
    rewrite Hafter. intros k v Hin Hk.
    apply in_set in Hin as [Hin | [= _ ->]]; [| reflexivity].
    rewrite (Hcache _ _ Hin) in Hk. discriminate.
Qed.

(** A labelled Yes/No question on an empty cache, followed by a salary
    question. *)
Lemma binary_default_is_learned_witness :
  let r := @answer_questions unit continue_form [over_18; expected_salary]
             (start unit tt) in
  JsObject.get (savedAnswers (final r)) "are you over 18?" = Some "Yes"
  /\ JsObject.get (savedAnswers (final r)) "expected salary" = Some "65000".
Proof.
  split; [| reflexivity].
  apply (@binary_default_is_learned unit continue_form over_18 (start unit tt)).
  - discriminate.
  - discriminate.
  - intros o; simpl; intuition.
  - intros k v [].
  - intros k v Hin. simpl in Hin.
    repeat (destruct Hin as [[= <- <-] | Hin]; [reflexivity |]). destruct Hin.
Defined.

(** C5 as stated fails on a question without a label: [findAnswer] would
    answer "Yes", but the loop body skips the question before resolving it
    and the cache is left as it was. *)
Lemma binary_default_unlabelled_not_learned :
  let m := start unit tt in
  let r := @answer_question unit continue_form unlabelled m in
  q_options unlabelled = ["Yes"; "No"]
  /\ existsb (key_matches (toLowerCase (q_label unlabelled))) (savedAnswers m) = false
  /\ existsb (key_matches (toLowerCase (q_label unlabelled))) SCREENING_ANSWERS = false
  /\ findAnswer (savedAnswers m) (q_label unlabelled) (q_options unlabelled) = Some "Yes"
  /\ JsObject.get (savedAnswers (final r)) (q_label unlabelled) = None
  /\ savedAnswers (final r) = savedAnswers m.
Proof. repeat split. Qed.

(** The assignment [savedAnswers["__proto__"] = "Yes"] reaches the setter
    inherited from [Object.prototype] and stores nothing. *)
Example proto_label_not_learned :
  let m := start unit tt in
  let r := @answer_question unit continue_form proto_question m in
  findAnswer (savedAnswers m) "__proto__" ["Yes"; "No"] = Some "Yes"
  /\ savedAnswers (final r) = [].
Proof. repeat split. Qed.

(** * Trigger detection and disabled controls *)

(** The continue detection never clicks a disabled element. *)
Lemma clickButtonByText_skips_disabled texts d i :
  In (ElementClick i) (clickButtonByText_script texts d).2
  \/ In (ElementDispatchClick i) (clickButtonByText_script texts d).2 ->
  exists btn, nth_error (elements d) i = Some btn /\ el_disabled btn = false.
Proof.
  destruct (clickButtonByText_script texts d) as [b effs] eqn:Hs. simpl.
  destruct b.
  - apply clickButtonByText_script_sound in Hs
      as (j & btn & -> & Hnth & _ & _ & Hen).
    intros [[[= <-] | []] | [[=] | []]]. eauto.
  - destruct (clickButtonByText_script_cases texts d) as [[j Hj] | Hj];
      rewrite Hj in Hs; [discriminate |].
    injection Hs as <-. intros [[] | []].
Qed.

(** C9 -- the submit detection has no disabled check.  On a screen whose
    only control is a disabled "Submit" button, the submit script dispatches
    a click on that button and [applyToSeekJob] returns [true]. *)
Theorem submit_clicks_disabled_button :
  let d := screen "Complete all required fields" [button "Submit" true] in
  let r := @applyToSeekJob unit disabled_submit_form sample_job (start unit tt) in
  nth_error (elements d) 0 = Some (button "Submit" true)
  /\ el_disabled (button "Submit" true) = true
  /\ submit_script d = (true, [ElementDispatchClick 0])
  /\ In (Called (Evaluate ClickSubmit [ElementDispatchClick 0]) None) (events r)
  /\ completion r = Normal true.
Proof.
  intros d r. repeat split. pick_event.
Qed.

(** * The search *)

Section SearchProofs.
Context {W : Type} `{Page W}.

Lemma search_inv_empty : search_inv [] ∅.
Proof.
  split; [constructor | split; [intros u; simpl; set_solver | constructor]].
Qed.

Lemma search_inv_add allJobs seenUrls c :
  search_inv allJobs seenUrls ->
  url (job_of_scraped c) ∉ seenUrls ->
  search_inv (allJobs ++ [job_of_scraped c])
             ({[ url (job_of_scraped c) ]} ∪ seenUrls).
Proof.
  intros (Hnd & Hseen & Hcards) Hnew. split; [| split].
  - rewrite List.map_app. simpl. apply NoDup_app. repeat split.
    + exact Hnd.
    + intros u Hu Hu'. apply list_elem_of_In in Hu.
      apply list_elem_of_singleton in Hu'. subst u.
      apply Hnew, Hseen, Hu.
    + apply NoDup_singleton.
  - intros u. rewrite List.map_app, in_app_iff. simpl.
    rewrite elem_of_union, elem_of_singleton, Hseen. intuition.
  - apply Forall_app. split; [exact Hcards |].
    constructor; [now exists c | constructor].
Qed.

Lemma add_jobs_inv jobs allJobs seenUrls added (m : Mem W) :
  search_inv allJobs seenUrls ->
  satisfies (add_jobs jobs allJobs seenUrls added) m (fun m' evs r =>
    exists allJobs' seenUrls' added',
      r = Normal (allJobs', seenUrls', added')
      /\ search_inv allJobs' seenUrls').
Proof.
  revert allJobs seenUrls added m.
  induction jobs as [|j jobs IH]; intros allJobs seenUrls added m Hinv; simpl.
  - run. eauto.
  - destruct (bool_decide _) eqn:Hseen.
    + apply IH, Hinv.
    + apply bool_decide_eq_false in Hseen.
      run. eapply sat_mono; [apply IH |]; [| auto].
      apply (search_inv_add _ _ j Hinv Hseen).
Qed.

Lemma search_pages_inv cfg kw pages allJobs seenUrls (m : Mem W) :
  search_inv allJobs seenUrls ->
  satisfies (search_pages cfg kw pages allJobs seenUrls) m (fun m' evs r =>
    forall allJobs' seenUrls',
      r = Normal (allJobs', seenUrls') -> search_inv allJobs' seenUrls').
Proof.
  revert allJobs seenUrls m.
  induction pages as [|pageNum pages IH]; intros allJobs seenUrls m Hinv; simpl.
  - run. intros ? ? [= <- <-]. exact Hinv.
  - run_step. run_step. run_step; [discriminate |].
    run_step. run_step. run_step; [discriminate |].
    run_step. run_step. run_step; [discriminate |].
    run_step.
    eapply sat_mono; [apply (add_jobs_inv _ _ _ _ _ Hinv) |].
    intros m1 ev1 r1 (allJobs1 & seenUrls1 & added1 & -> & Hinv1).
    run_step. run_step. cbn [fst snd].
    destruct (_ && _).
    + run. intros ? ? [= <- <-]. exact Hinv1.
    + eapply sat_mono; [apply (IH _ _ _ Hinv1) |]. auto.
Qed.

Lemma search_keywords_inv cfg kws allJobs seenUrls (m : Mem W) :
  search_inv allJobs seenUrls ->
  satisfies (search_keywords cfg kws allJobs seenUrls) m (fun m' evs r =>
    forall allJobs' seenUrls',
      r = Normal (allJobs', seenUrls') -> search_inv allJobs' seenUrls').
Proof.
  revert allJobs seenUrls m.
  induction kws as [|kw kws IH]; intros allJobs seenUrls m Hinv; simpl.
  - run. intros ? ? [= <- <-]. exact Hinv.
  - run_step. run_step. run_step.
    eapply sat_mono; [apply (search_pages_inv _ _ _ _ _ _ Hinv) |].
    intros m1 ev1 [[allJobs1 seenUrls1]|e] Hinv1; [| discriminate].
    eapply sat_mono; [apply (IH _ _ _ (Hinv1 _ _ eq_refl)) |]. auto.
Qed.

Lemma searchSeek_inv cfg (m : Mem W) freshJobs :
  completion (searchSeek cfg m) = Normal freshJobs ->
  exists seenUrls, search_inv freshJobs seenUrls.
Proof.
  assert (Hs : satisfies (searchSeek cfg) m (fun m' evs r =>
            forall fresh, r = Normal fresh ->
                          exists seenUrls, search_inv fresh seenUrls)).
  { unfold searchSeek. run_step.
    eapply sat_mono; [apply (search_keywords_inv _ _ _ _ _ search_inv_empty) |].
    intros m1 ev1 [[allJobs1 seenUrls1]|e] Hinv1; [| discriminate].
    run. intros ? [= <-]. exists seenUrls1. exact (Hinv1 _ _ eq_refl). }
  exact (Hs freshJobs).
Qed.

(** The search never returns two jobs with the same URL string. *)
Lemma searchSeek_distinct_urls cfg (m : Mem W) freshJobs :
  completion (searchSeek cfg m) = Normal freshJobs ->
  NoDup (List.map url freshJobs).
Proof.
  intros Hsearch. destruct (searchSeek_inv _ _ _ Hsearch) as (seen & Hnd & _).
  exact Hnd.
Qed.

End SearchProofs.

(** * The catalogue *)

Lemma has_url_spec jobs u : has_url jobs u = true <-> In u (List.map url jobs).
Proof.
  unfold has_url. rewrite existsb_exists. split.
  - intros (x & Hin & Heq). apply String.eqb_eq in Heq. now subst.
  - intros Hin. exists u. split; [exact Hin | apply String.eqb_refl].
Qed.

Lemma existingUrls_spec jobs u : u ∈ existingUrls jobs <-> In u (List.map url jobs).
Proof.
  unfold existingUrls. rewrite elem_of_list_to_set. apply list_elem_of_In.
Qed.

(** The set-based filter of [main] keeps exactly the genuinely new jobs. *)
Lemma newJobs_genuinely_new existingJobs freshJobs :
  newJobs existingJobs freshJobs = genuinely_new existingJobs freshJobs.
Proof.
  unfold newJobs, genuinely_new. apply List.filter_ext. intros j. f_equal.
  destruct (has_url existingJobs (url j)) eqn:Hu.
  - apply bool_decide_eq_true, existingUrls_spec, has_url_spec, Hu.
  - apply bool_decide_eq_false. rewrite existingUrls_spec, <- has_url_spec.
    congruence.
Qed.

Lemma in_genuinely_new existingJobs freshJobs j :
  In j (genuinely_new existingJobs freshJobs)
  <-> In j freshJobs /\ ~ In (url j) (List.map url existingJobs).
Proof.
  unfold genuinely_new. rewrite List.filter_In, negb_true_iff.
  rewrite <- has_url_spec. destruct (has_url existingJobs (url j)); intuition congruence.
Qed.

Lemma NoDup_map_filter {A B} (f : A -> B) (p : A -> bool) l :
  NoDup (List.map f l) -> NoDup (List.map f (List.filter p l)).
Proof.
  induction l as [|x l IH]; simpl; [auto |].
  rewrite NoDup_cons. intros [Hx Hl].
  destruct (p x); simpl; [| auto].
  apply NoDup_cons. split; [| auto].
  intros Hin. apply Hx.
  apply list_elem_of_In, in_map_iff in Hin as (y & Hy & Hin).
  apply List.filter_In in Hin as [Hin _].
  apply list_elem_of_In, in_map_iff. eauto.
Qed.

Lemma merge_distinct_urls existingJobs freshJobs :
  NoDup (List.map url freshJobs) ->
  NoDup (List.map url existingJobs) ->
  NoDup (List.map url (mergeJobs existingJobs freshJobs)).
Proof.
  intros Hfresh Hexisting. unfold mergeJobs.
  rewrite newJobs_genuinely_new, List.map_app. apply NoDup_app. repeat split.
  - exact Hexisting.
  - intros u Hu Hu'. apply list_elem_of_In in Hu.
    apply list_elem_of_In, in_map_iff in Hu' as (j & <- & Hj).
    apply in_genuinely_new in Hj as [_ Hnew]. contradiction.
  - apply NoDup_map_filter, Hfresh.
Qed.

Lemma record_outcome_urls allJobs u success now :
  List.map url (record_outcome allJobs u success now) = List.map url allJobs.
Proof.
  induction allJobs as [|j rest IH]; simpl; [reflexivity |].
  destruct (String.eqb (url j) u); simpl; [reflexivity | now rewrite IH].
Qed.

(** Every catalogue the program writes has pairwise distinct URLs. *)
Lemma written_catalogue_distinct allJobs :
  written_catalogue allJobs -> NoDup (List.map url allJobs).
Proof.
  induction 1 as [|existingJobs freshJobs _ IH Hfresh|allJobs u success now _ IH].
  - constructor.
  - apply merge_distinct_urls; assumption.
  - now rewrite record_outcome_urls.
Qed.

(** C6 -- catalogue merge.  For a fresh list returned by [searchSeek] and
    any existing list: a fresh job whose URL an existing record has is not
    among the appended records; the existing records stand unchanged at the
    head of the merged list; the appended records are the fresh jobs with
    new URLs, in order, so the length is the existing length plus their
    number; and when the existing URLs are pairwise distinct -- as they are
    in every catalogue the program has written -- so are the merged ones. *)
Theorem merge_keeps_existing {W} `{Page W} cfg (m : Mem W) existingJobs freshJobs :
  completion (searchSeek cfg m) = Normal freshJobs ->
  let allJobs := mergeJobs existingJobs freshJobs in
  (forall j, In j freshJobs -> In (url j) (List.map url existingJobs) ->
             ~ In j (drop (length existingJobs) allJobs))
  /\ take (length existingJobs) allJobs = existingJobs
  /\ drop (length existingJobs) allJobs = genuinely_new existingJobs freshJobs
  /\ length allJobs
     = length existingJobs + length (genuinely_new existingJobs freshJobs)
  /\ (NoDup (List.map url existingJobs) -> NoDup (List.map url allJobs))
  /\ (written_catalogue existingJobs -> NoDup (List.map url allJobs)).
Proof.
  intros Hsearch allJobs.
  assert (Hdrop : drop (length existingJobs) allJobs
                  = genuinely_new existingJobs freshJobs).
  { unfold allJobs, mergeJobs. rewrite drop_app_length. apply newJobs_genuinely_new. }
  repeat split.
  - intros j _ Hold Hin. rewrite Hdrop in Hin.
    apply in_genuinely_new in Hin as [_ Hnew]. contradiction.
  - unfold allJobs, mergeJobs. apply take_app_length.
  - exact Hdrop.
  - unfold allJobs, mergeJobs. now rewrite length_app, newJobs_genuinely_new.
  - apply merge_distinct_urls. exact (searchSeek_distinct_urls _ _ _ Hsearch).
  - intros Hwritten. apply merge_distinct_urls.
    + exact (searchSeek_distinct_urls _ _ _ Hsearch).
    + exact (written_catalogue_distinct _ Hwritten).
Qed.

(** One job already applied to, found again next to a new one. *)
Lemma merge_keeps_existing_witness :
  let allJobs := mergeJobs [applied_job] two_jobs in
  take 1 allJobs = [applied_job]
  /\ length allJobs = 2
  /\ NoDup (List.map url allJobs).
Proof.
  destruct (@merge_keeps_existing unit (results_page two_cards) sample_config
              (start unit tt) [applied_job] two_jobs)
    as (_ & Htake & _ & Hlen & Hnd & _).
  - vm_compute. reflexivity.
  - split; [exact Htake | split; [exact Hlen |]].
    apply Hnd. apply NoDup_singleton.
Defined.

Lemma scrape_card_href kw card c :
  scrape_card kw card = Some c -> art_href card = Some (s_href c).
Proof.
  unfold scrape_card. cbv zeta.
  destruct (negb (truthy (text_or (art_title card) ""))); [discriminate |].
  destruct (art_href card) as [h|]; simpl; [| discriminate].
  unfold or_else. destruct h; simpl; [discriminate |].
  now intros [= <-].
Qed.

Section ExactUrls.
Context {W : Type} `{Page W}.

Lemma scraped_from_shown_card kw (w : W) c :
  In c (scrape_script kw (document w)).1 ->
  exists card, In card (articles (document w)) /\ art_href card = Some (s_href c).
Proof.
  unfold scrape_script. cbn [fst]. intros Hin.
  apply list_elem_of_In, list_elem_of_omap in Hin as (card & Hcard & Hc).
  exists card. split; [now apply list_elem_of_In | now apply (scrape_card_href kw)].
Qed.

Lemma add_jobs_shown jobs allJobs seenUrls added (m : Mem W) :
  (forall c, In c jobs ->
     exists w card, In card (articles (document w))
                    /\ art_href card = Some (s_href c)) ->
  Forall url_of_shown_card allJobs ->
  satisfies (add_jobs jobs allJobs seenUrls added) m (fun m' evs r =>
    exists allJobs' seenUrls' added',
      r = Normal (allJobs', seenUrls', added')
      /\ Forall url_of_shown_card allJobs').
Proof.
  revert allJobs seenUrls added m.
  induction jobs as [|j jobs IH]; intros allJobs seenUrls added m Hjobs Hall; simpl.
  - run. eauto.
  - destruct (bool_decide _).
    + apply IH; [intros c Hc; apply Hjobs; now right | exact Hall].
    + run. eapply sat_mono; [apply IH |]; [| | auto].
      * intros c Hc; apply Hjobs; now right.
      * apply Forall_app. split; [exact Hall |].
        constructor; [| constructor].
        destruct (Hjobs j (or_introl eq_refl)) as (w & card & Hcard & Hhref).
        exists w, card, (s_href j). repeat split; assumption.
Qed.

Lemma search_pages_shown cfg kw pages allJobs seenUrls (m : Mem W) :
  Forall url_of_shown_card allJobs ->
  satisfies (search_pages cfg kw pages allJobs seenUrls) m (fun m' evs r =>
    forall allJobs' seenUrls',
      r = Normal (allJobs', seenUrls') -> Forall url_of_shown_card allJobs').
Proof.
  revert allJobs seenUrls m.
  induction pages as [|pageNum pages IH]; intros allJobs seenUrls m Hall; simpl.
  - run. intros ? ? [= <- <-]. exact Hall.
  - run_step. run_step. run_step; [discriminate |].
    run_step. run_step. run_step; [discriminate |].
    run_step. run_step. run_step; [discriminate |].
    run_step.
    eapply sat_mono; [apply add_jobs_shown; [| exact Hall] |].
    + intros c Hc. destruct (scraped_from_shown_card _ _ _ Hc) as (card & Hcard).
      eauto.
    + intros m1 ev1 r1 (allJobs1 & seenUrls1 & added1 & -> & Hall1).
      run_step. run_step. cbn [fst snd].
      destruct (_ && _).
      * run. intros ? ? [= <- <-]. exact Hall1.
      * eapply sat_mono; [apply (IH _ _ _ Hall1) |]. auto.
Qed.

Lemma search_keywords_shown cfg kws allJobs seenUrls (m : Mem W) :
  Forall url_of_shown_card allJobs ->
  satisfies (search_keywords cfg kws allJobs seenUrls) m (fun m' evs r =>
    forall allJobs' seenUrls',
      r = Normal (allJobs', seenUrls') -> Forall url_of_shown_card allJobs').
Proof.
  revert allJobs seenUrls m.
  induction kws as [|kw kws IH]; intros allJobs seenUrls m Hall; simpl.
  - run. intros ? ? [= <- <-]. exact Hall.
  - run_step. run_step. run_step.
    eapply sat_mono; [apply (search_pages_shown _ _ _ _ _ _ Hall) |].
    intros m1 ev1 [[allJobs1 seenUrls1]|e] Hall1; [| discriminate].
    eapply sat_mono; [apply (IH _ _ _ (Hall1 _ _ eq_refl)) |]. auto.
Qed.

Lemma searchSeek_shown cfg (m : Mem W) freshJobs :
  completion (searchSeek cfg m) = Normal freshJobs ->
  Forall url_of_shown_card freshJobs.
Proof.
  assert (Hs : satisfies (searchSeek cfg) m (fun m' evs r =>
            forall fresh, r = Normal fresh -> Forall url_of_shown_card fresh)).
  { unfold searchSeek. run_step.
    eapply sat_mono; [apply search_keywords_shown; constructor |].
    intros m1 ev1 [[allJobs1 seenUrls1]|e] Hall1; [| discriminate].
    run. intros ? [= <-]. exact (Hall1 _ _ eq_refl). }
  exact (Hs freshJobs).
Qed.

(** The loop over one page of results keeps a card exactly when no job with
    the same URL string has been collected. *)
Lemma add_jobs_exact jobs allJobs seenUrls added (m : Mem W) :
  search_inv allJobs seenUrls ->
  exists allJobs' seenUrls' added',
    completion (add_jobs jobs allJobs seenUrls added m)
    = Normal (allJobs', seenUrls', added')
    /\ search_inv allJobs' seenUrls'
    /\ forall u,
         In u (List.map url allJobs')
         <-> In u (List.map url allJobs)
             \/ exists c, In c jobs
                          /\ u = (if startsWith (s_href c) "http" then s_href c
                                  else "https://www.seek.com.au" +:+ s_href c).
Proof.
  intros Hinv.
  assert (Hs : satisfies (add_jobs jobs allJobs seenUrls added) m (fun m' evs r =>
            exists allJobs' seenUrls' added',
              r = Normal (allJobs', seenUrls', added')
              /\ search_inv allJobs' seenUrls'
              /\ forall u,
                   In u (List.map url allJobs')
                   <-> In u (List.map url allJobs)
                       \/ exists c, In c jobs
                            /\ u = (if startsWith (s_href c) "http" then s_href c
                                    else "https://www.seek.com.au" +:+ s_href c)));
    [| exact Hs].
  revert allJobs seenUrls added m Hinv.
  induction jobs as [|j jobs IH]; intros allJobs seenUrls added m Hinv; simpl.
  - run. exists allJobs, seenUrls, added. split; [reflexivity | split; [exact Hinv |]].
    intros u. split; [auto | intros [Hu | (c & [] & _)]; exact Hu].
  - destruct (bool_decide _) eqn:Hseen.
    + apply bool_decide_eq_true in Hseen.
      eapply sat_mono; [apply (IH _ _ _ _ Hinv) |].
      intros m' evs r (allJobs' & seenUrls' & added' & -> & Hinv' & Hurls).
      exists allJobs', seenUrls', added'. split; [reflexivity | split; [exact Hinv' |]].
      intros u. rewrite Hurls. split.
      * intros [Hu | (c & Hc & ->)]; [now left | right; exists c; split; [now right | reflexivity]].
      * intros [Hu | (c & [<- | Hc] & ->)]; [now left | | right; eauto].
        left. destruct Hinv as (_ & Hset & _). apply Hset. exact Hseen.
    + apply bool_decide_eq_false in Hseen.
      run. eapply sat_mono; [apply IH, (search_inv_add _ _ j Hinv Hseen) |].
      intros m' evs r (allJobs' & seenUrls' & added' & -> & Hinv' & Hurls).
      exists allJobs', seenUrls', added'. split; [reflexivity | split; [exact Hinv' |]].
      intros u. rewrite Hurls, List.map_app, in_app_iff. simpl. split.
      * intros [[Hu | [<- | []]] | (c & Hc & ->)];
          [now left | right; exists j; split; [now left | reflexivity]
          | right; exists c; split; [now right | reflexivity]].
      * intros [Hu | (c & [<- | Hc] & ->)];
          [left; now left | left; right; now left | right; eauto].
Qed.

End ExactUrls.

(** C7 as stated fails: a job already in the catalogue, found again under a
    URL with another scheme and under a URL with the host in capitals, is
    merged as two more records; the three URLs are equal up to case and
    scheme. *)
Lemma catalogue_keeps_url_variants :
  let allJobs := mergeJobs [applied_job] variant_jobs in
  completion (@searchSeek unit (results_page variant_cards) sample_config
                (start unit tt)) = Normal variant_jobs
  /\ List.map url allJobs
     = ["https://www.seek.com.au/job/1";
        "http://www.seek.com.au/job/1";
        "https://WWW.SEEK.COM.AU/job/1"]
  /\ List.map (fun j => spec_normalized_url (url j)) allJobs
     = ["www.seek.com.au/job/1"; "www.seek.com.au/job/1"; "www.seek.com.au/job/1"].
Proof. vm_compute. repeat split. Qed.

(** C7, amended -- the deduplication key is the URL string itself.  The URL
    of a found job is the link of a card the page shows, prefixed with the
    site origin unless it starts with "http", and nothing else is done to
    it; the search returns no two jobs with the same URL string; the loop
    over a page of results keeps a card exactly when no job with the same URL
    string has been collected, so that the URL string of every card is among
    the collected ones afterwards; the merge keeps a fresh job exactly when
    no existing record has the same URL string; and a catalogue whose URL
    strings are pairwise distinct stays so. *)
Theorem dedup_key_is_exact_url {W} `{Page W} cfg (m : Mem W) existingJobs freshJobs :
  completion (searchSeek cfg m) = Normal freshJobs ->
  (forall j, In j freshJobs ->
     exists w card href,
       In card (articles (document w))
       /\ art_href card = Some href
       /\ url j = (if startsWith href "http" then href
                   else "https://www.seek.com.au" +:+ href))
  /\ NoDup (List.map url freshJobs)
  /\ (forall jobs allJobs seenUrls added (m' : Mem W),
        search_inv allJobs seenUrls ->
        exists allJobs' seenUrls' added',
          completion (add_jobs jobs allJobs seenUrls added m')
          = Normal (allJobs', seenUrls', added')
          /\ search_inv allJobs' seenUrls'
          /\ forall u,
               In u (List.map url allJobs')
               <-> In u (List.map url allJobs)
                   \/ exists c,
                        In c jobs
                        /\ u = (if startsWith (s_href c) "http" then s_href c
                                else "https://www.seek.com.au" +:+ s_href c))
  /\ (forall j, In j freshJobs ->
        (In j (newJobs existingJobs freshJobs)
         <-> ~ In (url j) (List.map url existingJobs)))
  /\ (NoDup (List.map url existingJobs) ->
      NoDup (List.map url (mergeJobs existingJobs freshJobs))).
Proof.
  intros Hsearch.
  pose proof (searchSeek_distinct_urls _ _ _ Hsearch) as Hfresh.
  pose proof (searchSeek_shown _ _ _ Hsearch) as Hshown.
  rewrite Forall_forall in Hshown.
  split; [| split; [exact Hfresh | split; [| split]]].
  - intros j Hj. exact (Hshown j (proj2 (list_elem_of_In _ _) Hj)).
  - intros jobs allJobs seenUrls added m' Hinv. now apply add_jobs_exact.
  - intros j Hj. rewrite newJobs_genuinely_new, in_genuinely_new. intuition.
  - apply merge_distinct_urls, Hfresh.
Qed.

(** The three URL variants are three distinct keys: the page loop collects
    both variants it is shown, under the URL strings of their cards. *)
Lemma dedup_key_is_exact_url_witness :
  NoDup (List.map url variant_jobs)
  /\ NoDup (List.map url (mergeJobs [applied_job] variant_jobs))
  /\ (forall j, In j variant_jobs ->
        exists w card href,
          In card (articles (@document unit (results_page variant_cards) w))
          /\ art_href card = Some href
          /\ url j = (if startsWith href "http" then href
                      else "https://www.seek.com.au" +:+ href))
  /\ exists allJobs' seenUrls' added',
       completion
         (@add_jobs unit
            (scrape_script "analyst"
               (@document unit (results_page variant_cards) tt)).1
            [] ∅ 0 (start unit tt))
       = Normal (allJobs', seenUrls', added')
       /\ In "http://www.seek.com.au/job/1" (List.map url allJobs')
       /\ In "https://WWW.SEEK.COM.AU/job/1" (List.map url allJobs').
Proof.
  destruct (@dedup_key_is_exact_url unit (results_page variant_cards) sample_config
              (start unit tt) [applied_job] variant_jobs)
    as (Hcards & Hfresh & Hloop & _ & Hnd).
  - vm_compute. reflexivity.
  - split; [exact Hfresh | split; [apply Hnd; apply NoDup_singleton | split]];
      [exact Hcards |].
    destruct (Hloop (scrape_script "analyst"
                       (@document unit (results_page variant_cards) tt)).1
                    [] ∅ 0 (start unit tt) search_inv_empty)
      as (allJobs' & seenUrls' & added' & Hrun & _ & Hurls).
    exists allJobs', seenUrls', added'. split; [exact Hrun |].
    split; apply Hurls; right; cbv [scrape_script fst]; simpl.
    + eexists. split; [left; reflexivity | reflexivity].
    + eexists. split; [right; left; reflexivity | reflexivity].
Defined.

(** * Scenarios *)

(** The scenario of the specification: the rule table answers the
    right-to-work question. *)
Example right_to_work :
  findAnswer [] "Do you have the right to work in Australia?" ["Yes"; "No"]
  = Some "Yes".
Proof. reflexivity. Qed.

(** A rule value that no option matches falls back to the first option; an
    empty option that "matches" is discarded the same way. *)
Example rule_fallback :
  findAnswer [] "Notice period" ["Immediately"; "One month"] = Some "Immediately"
  /\ findAnswer [] "Expected salary?" ["No"; ""] = Some "No".
Proof. split; reflexivity. Qed.

(** Array-index keys are enumerated first, in ascending order. *)
Example entries_order :
  JsObject.Object_entries [("visa", "Yes"); ("10", "x"); ("2", "y")]
  = [("2", "y"); ("10", "x"); ("visa", "Yes")].
Proof. reflexivity. Qed.

(** A two-step form: "Next" on the first screen, submit on the second (whose
    "Continue" is disabled), confirmation on the third. *)
Example two_step_application :
  let screens :=
    [screen "Data Analyst at Acme" [];
     screen "Step 1" [button "Next" false];
     screen "Step 2" [button "Continue" true; button " Submit " false];
     screen "Thank you for applying" []] in
  let r := @applyToSeekJob _ scripted_page sample_job (start _ screens) in
  completion r = Normal true
  /\ count_events is_step_start (events r) = 2
  /\ count_events is_continue_click (events r) = 1
  /\ count_events is_submit_click (events r) = 1.
Proof. vm_compute. repeat split. Qed.

(** * Further properties of the code *)

(** * More on the answer resolver *)

Lemma find_first {A} (p : A -> bool) l before x after :
  l = before ++ x :: after ->
  (forall y, In y before -> p y = false) ->
  p x = true ->
  List.find p l = Some x.
Proof.
  intros -> Hbefore Hx. induction before as [|y before IH]; simpl.
  - now rewrite Hx.
  - rewrite (Hbefore y) by now left. apply IH. intros z Hz. apply Hbefore. now right.
Qed.

(** X1 -- a rule answer is reconciled with the options on offer.  When no
    learned-cache key occurs in the label, [(kr, vr)] is the first rule in
    table order whose key occurs in it, and the question comes with a
    non-empty option list, [findAnswer] returns one of the listed options:
    the first option that contains the rule value [vr] or is contained in
    it, letter case apart, when that option is not the empty string, and the
    first option of the list otherwise (no option matches, or the first
    match is empty). *)
Theorem rule_answer_is_an_option (saved : JsObject.t) label options
    earlier kr vr later :
  (forall k v, In (k, v) saved ->
     includes (toLowerCase label) (toLowerCase k) = false) ->
  SCREENING_ANSWERS = earlier ++ (kr, vr) :: later ->
  (forall k v, In (k, v) earlier ->
     includes (toLowerCase label) (toLowerCase k) = false) ->
  includes (toLowerCase label) (toLowerCase kr) = true ->
  options <> [] ->
  exists answer,
    findAnswer saved label options = Some answer
    /\ In answer options
    /\ (forall before o after,
          options = before ++ o :: after ->
          (forall x, In x before -> option_matches vr x = false) ->
          option_matches vr o = true ->
          answer = if truthy o then o else hd EmptyString options)
    /\ ((forall o, In o options -> option_matches vr o = false) ->
        answer = hd EmptyString options).
Proof.
  intros Hcache Htable Hearlier Hm Hopts. unfold findAnswer.
  rewrite (cache_miss _ _ Hcache).
  rewrite (find_first (key_matches (toLowerCase label)) _ earlier (kr, vr) later Htable);
    [| intros [k v] Hin; exact (Hearlier k v Hin) | exact Hm].
  destruct options as [|o1 options]; [congruence |].
  change (0 <? length (o1 :: options))%nat with true. cbv beta iota.
  eexists. split; [reflexivity | split; [| split]].
  - destruct (List.find (option_matches vr) (o1 :: options)) as [s|] eqn:Hf;
      unfold opt_or_else, or_else; simpl hd.
    + destruct (truthy s); [| now left].
      exact (proj1 (List.find_some _ _ Hf)).
    + now left.
  - intros before o after Hsplit Hbefore Ho.
    rewrite (find_first (option_matches vr) _ before o after Hsplit Hbefore Ho).
    reflexivity.
  - intros Hnone.
    assert (Hf : List.find (option_matches vr) (o1 :: options) = None)
      by now apply find_none_iff.
    now rewrite Hf.
Qed.

(** The notice-period rule on a list whose second option holds its value. *)
Lemma rule_answer_is_an_option_witness :
  exists answer,
    findAnswer [] "What is your notice period?" ["Immediately"; "2 weeks"; "1 month"]
    = Some answer
    /\ In answer ["Immediately"; "2 weeks"; "1 month"]
    /\ (forall before o after,
          ["Immediately"; "2 weeks"; "1 month"] = before ++ o :: after ->
          (forall x, In x before -> option_matches "2 weeks" x = false) ->
          option_matches "2 weeks" o = true ->
          answer = if truthy o then o
                   else hd EmptyString ["Immediately"; "2 weeks"; "1 month"])
    /\ ((forall o, In o ["Immediately"; "2 weeks"; "1 month"] ->
                   option_matches "2 weeks" o = false) ->
        answer = hd EmptyString ["Immediately"; "2 weeks"; "1 month"]).
Proof.
  apply (rule_answer_is_an_option [] "What is your notice period?"
           ["Immediately"; "2 weeks"; "1 month"]
           (firstn 10 SCREENING_ANSWERS) "notice period" "2 weeks"
           (skipn 11 SCREENING_ANSWERS)).
  - intros k v [].
  - reflexivity.
  - intros k v Hin. simpl in Hin.
    repeat (destruct Hin as [[= <- <-] | Hin]; [reflexivity |]). destruct Hin.
  - reflexivity.
  - discriminate.
Defined.

(** X2 -- when a question stays unanswered.  [findAnswer] returns [null]
    exactly when no learned-cache key and no rule-table key occurs in the
    label and the options do not hold both "Yes" and "No"; in particular a
    matching rule always yields an answer, whatever the options are. *)
Theorem unresolved_iff (saved : JsObject.t) label options :
  findAnswer saved label options = None
  <-> (forall k v, In (k, v) saved ->
         includes (toLowerCase label) (toLowerCase k) = false)
      /\ (forall k v, In (k, v) SCREENING_ANSWERS ->
            includes (toLowerCase label) (toLowerCase k) = false)
      /\ ~ (In "Yes" options /\ In "No" options).
Proof.
  split.
  - unfold findAnswer.
    destruct (List.find _ (JsObject.Object_entries saved)) as [[k v]|] eqn:Hc;
      [discriminate |].
    destruct (List.find _ SCREENING_ANSWERS) as [[r val]|] eqn:Hr.
    { destruct (0 <? length options)%nat; discriminate. }
    destruct (existsb (String.eqb "Yes") options && existsb (String.eqb "No") options)
      eqn:Hyn; [discriminate |].
    intros _. rewrite find_none_iff in Hc, Hr. repeat split.
    + intros k v Hin. exact (Hc (k, v) (proj2 (in_Object_entries _ _) Hin)).
    + intros k v Hin. exact (Hr (k, v) Hin).
    + intros [Hy Hn].
      rewrite (options_include _ _ Hy), (options_include _ _ Hn) in Hyn. discriminate.
  - intros (Hcache & Hrules & Hyn).
    rewrite (findAnswer_unmatched _ _ _ (cache_miss _ _ Hcache) (rules_miss _ Hrules)).
    destruct (existsb (String.eqb "Yes") options) eqn:Hy; [| reflexivity].
    destruct (existsb (String.eqb "No") options) eqn:Hn; [| reflexivity].
    exfalso. apply Hyn.
    apply existsb_exists in Hy as (y & Hy & Ey). apply String.eqb_eq in Ey. subst y.
    apply existsb_exists in Hn as (n & Hn & En). apply String.eqb_eq in En. subst n.
    auto.
Qed.



Lemma toLowerCase_app a b : toLowerCase (a +:+ b) = toLowerCase a +:+ toLowerCase b.
Proof.
  induction a as [|c a IH]; [reflexivity |].
  rewrite append_cons. simpl toLowerCase. now rewrite append_cons, IH.
Qed.

Lemma includes_app_l s s' t : includes s t = true -> includes (s +:+ s') t = true.
Proof.
  rewrite !includes_spec. intros (a & b & ->). exists a, (b +:+ s').
  now rewrite !append_assoc.
Qed.

Lemma includes_app_r s s' t : includes s' t = true -> includes (s +:+ s') t = true.
Proof.
  rewrite !includes_spec. intros (a & b & ->). exists (s +:+ a), b.
  now rewrite !append_assoc.
Qed.

(** X4 -- "remote" wins the work-type classification.  When the raw work
    type or the title contains "remote" in any letter case, the job is
    classified as remote, whatever else the two texts say about hybrid or
    on-site work. *)
Theorem remote_wins raw title :
  includes (toLowerCase raw) "remote" = true
  \/ includes (toLowerCase title) "remote" = true ->
  classifyWorkType raw title = "🌐 Remote".
Proof.
  intros Hr. unfold classifyWorkType. cbv zeta.
  rewrite !toLowerCase_app.
  assert (H : includes (toLowerCase raw +:+ toLowerCase " " +:+ toLowerCase title)
                       "remote" = true).
  { destruct Hr as [Hr | Hr].
    - now apply includes_app_l.
    - now apply includes_app_r, includes_app_r. }
  now rewrite H.
Qed.

(** A card marked "Hybrid" whose title mentions remote work. *)
Lemma remote_wins_witness :
  classifyWorkType "Hybrid" "Support Analyst (REMOTE optional)" = "🌐 Remote".
Proof.
  apply remote_wins. right. reflexivity.
Defined.

(** X5 -- only select questions carry options.  The extraction script
    collects options for [select] controls alone, so a radio, checkbox or
    text question reaches [findAnswer] with an empty option list; when no
    cache key and no rule key occurs in its label, the Yes/No default cannot
    fire and the question is left unanswered. *)
Theorem only_selects_have_options d q (saved : JsObject.t) :
  In q (extract_questions_script d).1 ->
  q_type q <> q_select ->
  (forall k v, In (k, v) saved ->
     includes (toLowerCase (q_label q)) (toLowerCase k) = false) ->
  (forall k v, In (k, v) SCREENING_ANSWERS ->
     includes (toLowerCase (q_label q)) (toLowerCase k) = false) ->
  q_options q = []
  /\ findAnswer saved (q_label q) (q_options q) = None.
Proof.
  intros Hin Htype Hcache Hrules.
  assert (Hopts : q_options q = []).
  { unfold extract_questions_script in Hin. cbn [fst] in Hin.
    apply list_elem_of_In, list_elem_of_omap in Hin as (lbl & _ & Hq).
    unfold question_of_label in Hq. cbv zeta in Hq.
    destruct (if truthy _ then _ else _) as [inp|]; [| discriminate].
    injection Hq as <-. cbn [q_type q_options] in *.
    repeat match goal with
           | |- context [if ?b then _ else _] => destruct b
           end; try reflexivity; contradiction. }
  split; [exact Hopts |]. rewrite Hopts.
  now rewrite (findAnswer_unmatched _ _ _ (cache_miss _ _ Hcache) (rules_miss _ Hrules)).
Qed.

(** A Yes/No radio question about relocation, with an empty cache. *)
Lemma only_selects_have_options_witness :
  q_options relocate_question = []
  /\ findAnswer [] (q_label relocate_question) (q_options relocate_question) = None.
Proof.
  apply (only_selects_have_options radio_form relocate_question []).
  - vm_compute. auto.
  - discriminate.
  - intros k v [].
  - intros k v Hin. simpl in Hin.
    repeat (destruct Hin as [[= <- <-] | Hin]; [reflexivity |]). destruct Hin.
Defined.

Section Pass.
Context {W : Type} `{Page W}.

(** X6 -- the screening pass learns whatever the form does.  The pass
    throws exactly when the extraction of the questions is rejected, and then
    the cache is untouched.  Otherwise it completes normally and the cache
    is the fold of the per-question update over the extracted questions:
    an answer is learned even when selecting, clicking or filling it on the
    page fails. *)
Theorem screening_learns_whatever_the_form_does job (m : Mem W) :
  match (respond (Evaluate ExtractQuestions []) (world m)).2 with
  | Some e =>
      completion (answerScreeningQuestions job m) = Thrown e
      /\ savedAnswers (final (answerScreeningQuestions job m)) = savedAnswers m
  | None =>
      completion (answerScreeningQuestions job m) = Normal tt
      /\ savedAnswers (final (answerScreeningQuestions job m))
         = fold_left cache_after_question
                     (extract_questions_script (document (world m))).1
                     (savedAnswers m)
  end.
Proof.
  assert (Hs : satisfies (answerScreeningQuestions job) m (fun m' evs r =>
            match (respond (Evaluate ExtractQuestions []) (world m)).2 with
            | Some e => r = Thrown e /\ savedAnswers m' = savedAnswers m
            | None =>
                r = Normal tt
                /\ savedAnswers m'
                   = fold_left cache_after_question
                               (extract_questions_script (document (world m))).1
                               (savedAnswers m)
            end)).
  { unfold answerScreeningQuestions. run_step. run_step.
    change (extract_questions_script (document (world m))).2 with (@nil DomEffect).
    run_step.
    - auto.
    - eapply sat_mono; [apply answer_questions_spec |].
      intros m2 ev2 r2 (-> & _ & Hsaved). auto. }
  exact Hs.
Qed.

End Pass.

(** * More on the search *)

Lemma text_or_default t dflt : dflt <> "" -> text_or t dflt <> "".
Proof.
  intros Hd. unfold text_or, or_else.
  destruct t as [s|]; [| exact Hd].
  destruct (trim s) eqn:E; simpl; [exact Hd | discriminate].
Qed.

Lemma truthy_nonempty s : truthy s = true -> s <> "".
Proof. destruct s; [discriminate | discriminate]. Qed.

Lemma classifyWorkType_nonempty raw title : classifyWorkType raw title <> "".
Proof.
  unfold classifyWorkType. cbv zeta.
  repeat match goal with
         | |- (if ?b then _ else _) <> _ => destruct b eqn:?
         end; try discriminate.
  now apply truthy_nonempty.
Qed.

Lemma job_url_http href : startsWith (job_url href) "http" = true.
Proof.
  unfold job_url. destruct (startsWith href "http") eqn:E; [exact E | reflexivity].
Qed.

Section SearchMore.
Context {W : Type} `{Page W}.

Lemma in_scrape_script kw d c :
  In c (scrape_script kw d).1 -> exists card, scrape_card kw card = Some c.
Proof.
  unfold scrape_script. cbn [fst]. intros Hin.
  apply list_elem_of_In, list_elem_of_omap in Hin as (card & _ & Hc). eauto.
Qed.

Lemma add_jobs_built kws kw jobs allJobs seenUrls added (m : Mem W) :
  In kw kws ->
  (forall c, In c jobs -> exists card, scrape_card kw card = Some c) ->
  Forall (built_by_search kws) allJobs ->
  satisfies (add_jobs jobs allJobs seenUrls added) m (fun m' evs r =>
    exists allJobs' seenUrls' added',
      r = Normal (allJobs', seenUrls', added')
      /\ Forall (built_by_search kws) allJobs').
Proof.
  intros Hkw. revert allJobs seenUrls added m.
  induction jobs as [|j jobs IH]; intros allJobs seenUrls added m Hjobs Hall; simpl.
  - run. eauto.
  - destruct (bool_decide _).
    + apply IH; [intros c Hc; apply Hjobs; now right | exact Hall].
    + run. eapply sat_mono; [apply IH |]; [| | auto].
      * intros c Hc; apply Hjobs; now right.
      * apply Forall_app. split; [exact Hall |].
        constructor; [| constructor].
        destruct (Hjobs j (or_introl eq_refl)) as (card & Hcard).
        now exists kw, card, j.
Qed.

Lemma search_pages_built cfg kws kw pages allJobs seenUrls (m : Mem W) :
  In kw kws ->
  Forall (built_by_search kws) allJobs ->
  satisfies (search_pages cfg kw pages allJobs seenUrls) m (fun m' evs r =>
    forall allJobs' seenUrls',
      r = Normal (allJobs', seenUrls') -> Forall (built_by_search kws) allJobs').
Proof.
  intros Hkw. revert allJobs seenUrls m.
  induction pages as [|pageNum pages IH]; intros allJobs seenUrls m Hall; simpl.
  - run. intros ? ? [= <- <-]. exact Hall.
  - run_step. run_step. run_step; [discriminate |].
    run_step. run_step. run_step; [discriminate |].
    run_step. run_step. run_step; [discriminate |].
    run_step.
    eapply sat_mono;
      [apply (add_jobs_built kws kw); [exact Hkw | apply in_scrape_script | exact Hall] |].
    intros m1 ev1 r1 (allJobs1 & seenUrls1 & added1 & -> & Hall1).
    run_step. run_step. cbn [fst snd].
    destruct (_ && _).
    + run. intros ? ? [= <- <-]. exact Hall1.
    + eapply sat_mono; [apply (IH _ _ _ Hall1) |]. auto.
Qed.

Lemma search_keywords_built cfg kws0 kws allJobs seenUrls (m : Mem W) :
  incl kws kws0 ->
  Forall (built_by_search kws0) allJobs ->
  satisfies (search_keywords cfg kws allJobs seenUrls) m (fun m' evs r =>
    forall allJobs' seenUrls',
      r = Normal (allJobs', seenUrls') -> Forall (built_by_search kws0) allJobs').
Proof.
  revert allJobs seenUrls m.
  induction kws as [|kw kws IH]; intros allJobs seenUrls m Hincl Hall; simpl.
  - run. intros ? ? [= <- <-]. exact Hall.
  - run_step. run_step. run_step.
    eapply sat_mono;
      [apply (search_pages_built cfg kws0 kw);
         [apply Hincl; now left | exact Hall] |].
    intros m1 ev1 [[allJobs1 seenUrls1]|e] Hall1; [| discriminate].
    eapply sat_mono; [apply IH |]; [| | auto].
    + intros k Hk. apply Hincl. now right.
    + exact (Hall1 _ _ eq_refl).
Qed.

(** X7 -- the jobs of a search are well formed.  Every job [searchSeek]
    returns is unapplied, carries the platform "seek" and one of the
    configured keywords, has a non-empty title, company, location, work type
    and salary text, and a URL that starts with "http": cards without a
    heading or a link are dropped and the missing texts get their
    defaults. *)
Theorem searchSeek_jobs_well_formed cfg (m : Mem W) freshJobs j :
  completion (searchSeek cfg m) = Normal freshJobs ->
  In j freshJobs ->
  applied j = false /\ appliedAt j = None /\ platform j = "seek"
  /\ In (keyword j) (keywords cfg)
  /\ title j <> "" /\ company j <> "" /\ location j <> ""
  /\ workType j <> "" /\ salary j <> ""
  /\ startsWith (url j) "http" = true.
Proof.
  intros Hsearch Hj.
  assert (Hs : satisfies (searchSeek cfg) m (fun m' evs r =>
            forall fresh, r = Normal fresh ->
                          Forall (built_by_search (keywords cfg)) fresh)).
  { unfold searchSeek. run_step.
    eapply sat_mono;
      [apply (search_keywords_built cfg (keywords cfg));
         [intros k Hk; exact Hk | constructor] |].
    intros m1 ev1 [[allJobs1 seenUrls1]|e] Hall1; [| discriminate].
    run. intros ? [= <-]. exact (Hall1 _ _ eq_refl). }
  specialize (Hs _ Hsearch). rewrite Forall_forall in Hs.
  destruct (Hs j (proj2 (list_elem_of_In _ _) Hj)) as (kw & card & c & Hkw & Hc & ->).
  unfold scrape_card in Hc. cbv zeta in Hc.
  destruct (truthy (text_or (art_title card) "")) eqn:Ht; [| discriminate].
  destruct (truthy (match art_href card with Some h => or_else h "" | None => "" end))
    eqn:Hh; [| discriminate].
  simpl in Hc. injection Hc as <-. simpl.
  repeat split; auto.
  - now apply truthy_nonempty.
  - now apply text_or_default.
  - now apply text_or_default.
  - apply classifyWorkType_nonempty.
  - now apply text_or_default.
  - apply job_url_http.
Qed.

End SearchMore.

(** The second card of a result page with two cards. *)
Lemma searchSeek_jobs_well_formed_witness :
  let j := found "BI Developer" "https://www.seek.com.au/job/2" in
  applied j = false /\ appliedAt j = None /\ platform j = "seek"
  /\ In (keyword j) (keywords sample_config)
  /\ title j <> "" /\ company j <> "" /\ location j <> ""
  /\ workType j <> "" /\ salary j <> ""
  /\ startsWith (url j) "http" = true.
Proof.
  apply (@searchSeek_jobs_well_formed unit (results_page two_cards) sample_config
           (start unit tt) two_jobs).
  - vm_compute. reflexivity.
  - simpl. auto.
Defined.



Lemma rethrows_app {A} ev1 ev2 (r : Completion A) :
  Forall resolved ev1 -> rethrows ev2 r -> rethrows (ev1 ++ ev2) r.
Proof.
  intros H1. destruct r as [a|e]; simpl.
  - intros H2. apply Forall_app. auto.
  - intros (pre & c & -> & Hpre). exists (ev1 ++ pre), c.
    split; [now rewrite <- app_assoc | apply Forall_app; auto].
Qed.

Lemma search_trace_app {A} cfg kws pages n1 n2 n ev1 ev2 (r : Completion A) :
  count_events is_goto ev1 <= n1 ->
  Forall (result_page_visit cfg kws pages) ev1 ->
  Forall resolved ev1 ->
  n1 + n2 <= n ->
  search_trace cfg kws pages n2 ev2 r ->
  search_trace cfg kws pages n (ev1 ++ ev2) r.
Proof.
  intros Hc Hv Hr Hn (Hc2 & Hv2 & Hr2). split; [| split].
  - rewrite count_events_app. lia.
  - apply Forall_app. auto.
  - now apply rethrows_app.
Qed.

Lemma search_trace_mono {A} cfg kws kws' pages pages' n n' evs (r : Completion A) :
  incl kws kws' -> incl pages pages' -> n <= n' ->
  search_trace cfg kws pages n evs r ->
  search_trace cfg kws' pages' n' evs r.
Proof.
  intros Hk Hp Hn (Hc & Hv & Hr). split; [lia | split; [| exact Hr]].
  eapply Forall_impl; [exact Hv |].
  intros [[] rej|l]; simpl; auto.
  intros (kw & p & Hkw & Hpn & ->). exists kw, p. auto.
Qed.

Lemma search_trace_thrown {A} cfg kws pages n c e :
  is_goto (Called c (Some e)) = false \/
    (1 <= n /\ result_page_visit cfg kws pages (Called c (Some e))) ->
  @search_trace A cfg kws pages n [Called c (Some e)] (Thrown e).
Proof.
  intros Hg. split; [| split].
  - rewrite count_events_cons, count_events_nil.
    destruct Hg as [-> | [Hn _]]; [lia |].
    destruct (is_goto _); lia.
  - constructor; [| constructor].
    destruct Hg as [Hg | [_ Hv]]; [| exact Hv].
    destruct c; simpl in *; auto; discriminate.
  - exists [], c. split; [reflexivity | constructor].
Qed.

Lemma visits_app evs evs' : visits (evs ++ evs') = visits evs ++ visits evs'.
Proof. unfold visits. apply omap_app. Qed.

Section SearchVisits.
Context {W : Type} `{Page W}.

Lemma add_jobs_visits jobs allJobs seenUrls added (m : Mem W) :
  satisfies (add_jobs jobs allJobs seenUrls added) m (fun m' evs r =>
    (exists v, r = Normal v) /\ visits evs = []).
Proof.
  revert allJobs seenUrls added m.
  induction jobs as [|j jobs IH]; intros allJobs seenUrls added m; simpl.
  - run. split; [eauto | reflexivity].
  - destruct (bool_decide _); [apply IH |].
    run. eapply sat_mono; [apply IH |].
    intros m' evs r [Hv Hvis]. split; [exact Hv |].
    rewrite !visits_app, Hvis. reflexivity.
Qed.

Lemma search_pages_visits cfg kw pages allJobs seenUrls (m : Mem W) :
  satisfies (search_pages cfg kw pages allJobs seenUrls) m (fun m' evs r =>
    exists k, k <= length pages
              /\ visits evs = List.map (search_url cfg kw) (take k pages)).
Proof.
  revert allJobs seenUrls m.
  induction pages as [|pageNum pages IH]; intros allJobs seenUrls m; simpl.
  - run. exists 0. split; [lia | reflexivity].
  - assert (Hone : forall evs : list Event,
               visits evs = [search_url cfg kw pageNum] ->
               exists k, k <= S (length pages)
                 /\ visits evs
                    = List.map (search_url cfg kw) (take k (pageNum :: pages))).
    { intros evs Hevs. exists 1. split; [lia |]. rewrite Hevs. reflexivity. }
    run_step. run_step. run_step; [now apply Hone |].
    run_step. run_step. run_step; [now apply Hone |].
    run_step. run_step. run_step; [now apply Hone |].
    run_step.
    eapply sat_mono; [apply add_jobs_visits |].
    intros m1 ev1 r1 [[[[allJobs1 seenUrls1] added1] ->] Hvis1].
    run_step. run_step. cbn [fst snd].
    destruct (_ && _).
    + run. apply Hone. rewrite !visits_app, Hvis1. reflexivity.
    + eapply sat_mono; [apply IH |]. intros m2 ev2 r2 (k & Hk & Hvis2).
      exists (S k). split; [lia |].
      rewrite !visits_app, Hvis1, Hvis2. reflexivity.
Qed.

Lemma search_keywords_visits cfg kws allJobs seenUrls (m : Mem W) :
  satisfies (search_keywords cfg kws allJobs seenUrls) m (fun m' evs r =>
    exists ks,
      length ks <= length kws
      /\ Forall (fun k => k <= maxPages cfg) ks
      /\ visits evs = concat (zip_with (result_pages cfg) kws ks)
      /\ ((exists v, r = Normal v) -> length ks = length kws)).
Proof.
  revert allJobs seenUrls m.
  induction kws as [|kw kws IH]; intros allJobs seenUrls m; simpl.
  - run. exists []. repeat split; auto.
  - run_step. run_step. run_step.
    eapply sat_mono; [apply search_pages_visits |].
    intros m1 ev1 r1 (k & Hk & Hvis1). rewrite length_seq in Hk.
    assert (Hpages : visits ev1 = result_pages cfg kw k).
    { rewrite Hvis1. unfold result_pages. f_equal.
      rewrite take_seq. f_equal. lia. }
    destruct r1 as [[allJobs1 seenUrls1]|e].
    + eapply sat_mono; [apply IH |].
      intros m2 ev2 r2 (ks & Hlen & Hks & Hvis2 & Hall).
      exists (k :: ks). split; [simpl; lia | split; [| split]].
      * constructor; assumption.
      * rewrite !visits_app, Hpages, Hvis2. reflexivity.
      * intros Hn. simpl. now rewrite (Hall Hn).
    + exists [k]. split; [simpl; lia | split; [| split]].
      * repeat constructor. exact Hk.
      * rewrite !visits_app, Hpages. simpl.
        destruct kws; simpl; now rewrite app_nil_r.
      * intros [v [=]].
Qed.

Lemma searchSeek_visits cfg (m : Mem W) :
  satisfies (searchSeek cfg) m (fun m' evs r =>
    exists ks,
      length ks <= length (keywords cfg)
      /\ Forall (fun k => k <= maxPages cfg) ks
      /\ visits evs = concat (zip_with (result_pages cfg) (keywords cfg) ks)
      /\ ((exists v, r = Normal v) -> length ks = length (keywords cfg))).
Proof.
  unfold searchSeek. run_step.
  eapply sat_mono; [apply search_keywords_visits |].
  intros m1 ev1 [[allJobs1 seenUrls1]|e] (ks & Hlen & Hks & Hvis & Hall).
  - run. exists ks. repeat split; auto.
    + rewrite !visits_app, Hvis. simpl. now rewrite app_nil_r.
    + intros _. apply Hall. eauto.
  - exists ks. repeat split; auto. intros [v [=]].
Qed.

End SearchVisits.

(** Account for one known event at the head of the trace. *)
Ltac peel k n :=
  eapply (search_trace_app _ _ _ k n _ [_]);
  [ cbv; lia
  | constructor; [simpl; eauto 10 using in_eq | constructor]
  | constructor; [exact I | constructor]
  | lia
  | ].

Section SearchTrace.
Context {W : Type} `{Page W}.

Lemma add_jobs_trace cfg kws pages jobs allJobs seenUrls added (m : Mem W) :
  satisfies (add_jobs jobs allJobs seenUrls added) m (fun m' evs r =>
    (exists v, r = Normal v) /\ search_trace cfg kws pages 0 evs r).
Proof.
  revert allJobs seenUrls added m.
  induction jobs as [|j jobs IH]; intros allJobs seenUrls added m; simpl.
  - run. split; [eauto |]. repeat split; constructor.
  - destruct (bool_decide _); [apply IH |].
    run. eapply sat_mono; [apply IH |].
    intros m' evs r [Hv Ht]. split; [exact Hv |].
    peel 0 0. peel 0 0. exact Ht.
Qed.

Lemma search_pages_trace cfg kw pages allJobs seenUrls (m : Mem W) :
  satisfies (search_pages cfg kw pages allJobs seenUrls) m (fun m' evs r =>
    search_trace cfg [kw] pages (length pages) evs r).
Proof.
  revert allJobs seenUrls m.
  induction pages as [|pageNum pages IH]; intros allJobs seenUrls m; simpl.
  - run. repeat split; constructor.
  - run_step. run_step. run_step.
    { apply search_trace_thrown. right. split; [lia |].
      exists kw, pageNum. simpl. auto. }
    run_step. run_step. run_step.
    { peel 1 0. apply search_trace_thrown. now left. }
    run_step. run_step. run_step.
    { peel 1 0. peel 0 0. apply search_trace_thrown. now left. }
    run_step.
    eapply sat_mono; [apply (add_jobs_trace cfg [kw] (pageNum :: pages)) |].
    intros m1 ev1 r1 [[[[allJobs1 seenUrls1] added1] ->] Hadd].
    destruct Hadd as (Hc1 & Hv1 & Hr1).
    run_step. run_step. cbn [fst snd].
    assert (Hrest : forall evs (r : Completion (list Job * gset string)),
               search_trace cfg [kw] (pageNum :: pages) (length pages) evs r ->
               search_trace cfg [kw] (pageNum :: pages) (S (length pages))
                 ([Called (Goto (search_url cfg kw pageNum) 60000) None] ++
                  [Called (WaitForTimeout 3000) None] ++
                  [Called (Evaluate (ScrapeCards kw)
                             (scrape_script kw (document w0)).2) None] ++
                  ev1 ++ [Logged (LogPage pageNum added1)] ++ evs) r).
    { intros evs r Ht. peel 1 (length pages). peel 0 (length pages).
      peel 0 (length pages).
      eapply (search_trace_app _ _ _ 0 (length pages)); [exact Hc1 | exact Hv1 | exact Hr1 | lia |].
      peel 0 (length pages). exact Ht. }
    destruct (_ && _).
    + run. apply Hrest.
      split; [rewrite count_events_nil; lia | split; constructor].
    + eapply sat_mono; [apply IH |]. intros m2 ev2 r2 Ht.
      apply Hrest.
      eapply search_trace_mono; [| | | exact Ht]; [intros x Hx; exact Hx | intros x Hx; now right | lia].
Qed.

Lemma search_keywords_trace cfg kws allJobs seenUrls (m : Mem W) :
  satisfies (search_keywords cfg kws allJobs seenUrls) m (fun m' evs r =>
    search_trace cfg kws (seq 1 (maxPages cfg)) (length kws * maxPages cfg) evs r).
Proof.
  revert allJobs seenUrls m.
  induction kws as [|kw kws IH]; intros allJobs seenUrls m; simpl.
  - run. repeat split; constructor.
  - run_step. run_step. run_step.
    eapply sat_mono; [apply search_pages_trace |].
    intros m1 ev1 [[allJobs1 seenUrls1]|e] Ht; rewrite length_seq in Ht.
    + eapply sat_mono; [apply IH |]. intros m2 ev2 r2 Ht2.
      destruct Ht as (Hc1 & Hv1 & Hr1).
      peel 0 (maxPages cfg + length kws * maxPages cfg).
      eapply (search_trace_app _ _ _ (maxPages cfg) (length kws * maxPages cfg));
        [exact Hc1 | | exact Hr1 | lia |].
      * eapply Forall_impl; [exact Hv1 |].
        intros [[] rej|l]; simpl; auto.
        intros (k & p & [<- | []] & Hp & ->). exists kw, p.
        split; [now left | auto].
      * eapply search_trace_mono; [| | | exact Ht2];
          [intros x Hx; now right | intros x Hx; exact Hx | lia].
    + peel 0 (maxPages cfg).
      eapply search_trace_mono; [| | | exact Ht];
        [intros x [<- | []]; now left | intros x Hx; exact Hx | lia].
Qed.

Lemma searchSeek_trace cfg (m : Mem W) :
  satisfies (searchSeek cfg) m (fun m' evs r =>
    search_trace cfg (keywords cfg) (seq 1 (maxPages cfg))
                 (length (keywords cfg) * maxPages cfg) evs r).
Proof.
  unfold searchSeek. run_step.
  eapply sat_mono; [apply search_keywords_trace |].
  intros m1 ev1 [[allJobs1 seenUrls1]|e] Ht; [| exact Ht].
  run. destruct Ht as (Hc1 & Hv1 & Hr1).
  eapply (search_trace_app _ _ _ (length (keywords cfg) * maxPages cfg) 0);
    [exact Hc1 | exact Hv1 | exact Hr1 | lia |].
  repeat split; [cbv; lia | repeat constructor | repeat constructor].
Qed.

(** X8 -- the search visits result pages only, and at most [maxPages] of
    them per keyword.  Whatever the page does, the navigations of
    [searchSeek] are, for the configured keywords in turn, the result pages
    1, 2, ..., k of the keyword in this order, with k at most [maxPages] (a
    search that throws stops within a keyword, one that returns has gone
    through all of them).  So there are at most [maxPages] navigations for
    each keyword and at most [maxPages] times the number of keywords in all,
    and every navigation goes to the result page of a configured keyword
    with a page number between 1 and [maxPages]. *)
Theorem searchSeek_visits_bounded cfg (m : Mem W) :
  (exists ks,
     length ks <= length (keywords cfg)
     /\ Forall (fun k => k <= maxPages cfg) ks
     /\ visits (events (searchSeek cfg m))
        = concat (zip_with (result_pages cfg) (keywords cfg) ks)
     /\ ((exists freshJobs, completion (searchSeek cfg m) = Normal freshJobs) ->
         length ks = length (keywords cfg)))
  /\ count_events is_goto (events (searchSeek cfg m))
     <= length (keywords cfg) * maxPages cfg
  /\ forall target timeout rejected,
       In (Called (Goto target timeout) rejected) (events (searchSeek cfg m)) ->
       exists kw pageNum,
         In kw (keywords cfg) /\ 1 <= pageNum <= maxPages cfg
         /\ target = search_url cfg kw pageNum.
Proof.
  split; [exact (searchSeek_visits cfg m) |].
  destruct (searchSeek_trace cfg m) as (Hc & Hv & _). split; [exact Hc |].
  intros target timeout rejected Hin.
  rewrite Forall_forall in Hv. specialize (Hv _ (proj2 (list_elem_of_In _ _) Hin)).
  destruct Hv as (kw & p & Hkw & Hp & ->). exists kw, p.
  apply in_seq in Hp. repeat split; auto; lia.
Qed.

(** X9 -- the search contains no error.  Unlike an application, a search
    stops at the first call the page rejects and throws its exception on:
    a run that returns has no rejected call, and a run that throws [e] ends
    with the one rejected call, which was rejected with [e]. *)
Theorem searchSeek_rethrows_first_rejection cfg (m : Mem W) :
  match completion (searchSeek cfg m) with
  | Normal freshJobs => Forall resolved (events (searchSeek cfg m))
  | Thrown e =>
      exists pre c,
        events (searchSeek cfg m) = pre ++ [Called c (Some e)]
        /\ Forall resolved pre
  end.
Proof.
  destruct (searchSeek_trace cfg m) as (_ & _ & Hr). exact Hr.
Qed.

End SearchTrace.

Section Footprint.
Context {W : Type} `{Page W}.
Variable J : Mem W -> list Event -> Mem W -> Prop.
Variable allowed : Event -> Prop.
Hypothesis J_nil : forall m, J m [] m.
Hypothesis J_app : forall m ev1 m1 ev2 m2,
  J m ev1 m1 -> J m1 ev2 m2 -> J m (ev1 ++ ev2) m2.
Hypothesis J_log : forall l, allowed (Logged l) -> keeps J (log l).
Hypothesis J_call : forall c,
  (forall rejected, allowed (Called c rejected)) -> keeps J (call c).
Hypothesis J_persist : forall question answer, keeps J (persist question answer).
Local Open Scope flow_scope.

Lemma keeps_ret {A} (a : A) : keeps J (ret a).
Proof. intros m. apply J_nil. Qed.

Lemma keeps_read_saved : keeps J read_saved.
Proof. intros m. apply J_nil. Qed.

Lemma keeps_bind {A B} (c : M W A) (k : A -> M W B) :
  keeps J c -> (forall a, keeps J (k a)) -> keeps J (bind c k).
Proof.
  intros Hc Hk m. apply sat_bind. eapply sat_mono; [apply Hc |].
  intros m1 ev1 [a|e] H1; [| exact H1].
  eapply sat_mono; [apply Hk |]. intros m2 ev2 r2 H2. eapply J_app; eauto.
Qed.

Lemma keeps_try {A} (c : M W A) (h : Exn -> M W A) :
  keeps J c -> (forall e, keeps J (h e)) -> keeps J (try_catch c h).
Proof.
  intros Hc Hh m. apply sat_try. eapply sat_mono; [apply Hc |].
  intros m1 ev1 [a|e] H1; [exact H1 |].
  eapply sat_mono; [apply Hh |]. intros m2 ev2 r2 H2. eapply J_app; eauto.
Qed.

Lemma keeps_evaluate {A} name (script : Document -> A * list DomEffect) :
  (forall effects rejected, allowed (Called (Evaluate name effects) rejected)) ->
  keeps J (evaluate name script).
Proof.
  intros Ha m. unfold satisfies, evaluate.
  destruct (script (document (world m))) as [a effs].
  apply (keeps_bind (call (Evaluate name effs)) (fun _ => ret a));
    [apply J_call, Ha | intros _; apply keeps_ret].
Qed.

Lemma keeps_isVisible sel timeout :
  (forall rejected, allowed (Called (IsVisible sel timeout) rejected)) ->
  keeps J (isVisible sel timeout).
Proof.
  intros Ha. unfold isVisible. apply keeps_bind; [apply J_call, Ha |].
  intros _ m. apply J_nil.
Qed.

Ltac keeps_step :=
  lazymatch goal with
  | |- keeps _ (bind _ _) => apply keeps_bind; [| intros ?]
  | |- keeps _ (ret _) => apply keeps_ret
  | |- keeps _ (log _) => apply J_log
  | |- keeps _ (call _) => apply J_call; intros ?
  | |- keeps _ (waitForTimeout _) => apply J_call; intros ?
  | |- keeps _ (evaluate _ _) => apply keeps_evaluate; intros ? ?
  | |- keeps _ (clickButtonByText _) => apply keeps_evaluate; intros ? ?
  | |- keeps _ (isVisible _ _) => apply keeps_isVisible; intros ?
  | |- keeps _ (try_catch _ _) => apply keeps_try; [| intros ?]
  | |- keeps _ (catch_with _ _) => apply keeps_try; [| intros ?]
  | |- keeps _ read_saved => apply keeps_read_saved
  | |- keeps _ (persist _ _) => apply J_persist
  | |- keeps _ (if ?b then _ else _) => destruct b
  | |- keeps _ (match ?x with _ => _ end) => destruct x
  end.

Section ScreeningFootprint.
Hypothesis allow_screening : forall ev, screening_event ev -> allowed ev.

Lemma fill_answer_keeps q answer : keeps J (fill_answer q answer).
Proof.
  unfold fill_answer. repeat keeps_step; apply allow_screening; exact I.
Qed.

Lemma answer_question_keeps q : keeps J (answer_question q).
Proof.
  unfold answer_question.
  repeat first [apply fill_answer_keeps | keeps_step];
    apply allow_screening; exact I.
Qed.

Lemma answer_questions_keeps qs : keeps J (answer_questions qs).
Proof.
  induction qs as [|q qs IH]; simpl; [apply keeps_ret |].
  apply keeps_bind; [apply answer_question_keeps | intros _; exact IH].
Qed.

Lemma answerScreeningQuestions_keeps job : keeps J (answerScreeningQuestions job).
Proof.
  unfold answerScreeningQuestions. apply keeps_bind.
  - apply keeps_evaluate. intros effs rej. apply allow_screening. exact I.
  - intros qs. apply answer_questions_keeps.
Qed.

End ScreeningFootprint.

Section StepFootprint.
Hypothesis allow_step : forall ev, step_event ev -> allowed ev.

Lemma allow_screening_of_step ev : screening_event ev -> allowed ev.
Proof.
  intros Hc. apply allow_step.
  destruct ev as [[| |sel| |[] | |sel|sel|] rej|[]]; try destruct sel;
    simpl in *; auto.
Qed.

Lemma step_body_keeps job step : keeps J (step_body job step).
Proof.
  unfold step_body.
  repeat first
    [ apply (answerScreeningQuestions_keeps allow_screening_of_step)
    | keeps_step ];
    apply allow_step; exact I.
Qed.

Lemma step_loop_keeps job steps : keeps J (step_loop job steps).
Proof.
  induction steps as [|step steps IH]; simpl; [apply keeps_ret |].
  apply keeps_bind; [apply step_body_keeps |].
  intros [| |b]; [exact IH | apply keeps_ret | apply keeps_ret].
Qed.

End StepFootprint.

Section TriggerFootprint.
Hypothesis allow_trigger : forall ev, trigger_event ev -> allowed ev.

Lemma click_apply_keeps sels :
  incl sels applySelectors -> keeps J (click_apply sels).
Proof.
  induction sels as [|sel sels IH]; intros Hincl; simpl; [apply keeps_ret |].
  assert (Hsel : In sel applySelectors) by (apply Hincl; now left).
  assert (Hrest : keeps J (click_apply sels))
    by (apply IH; intros s Hs; apply Hincl; now right).
  repeat first [exact Hrest | keeps_step]; apply allow_trigger; simpl; auto.
Qed.

End TriggerFootprint.

Section ApplyFootprint.
Variable job : Job.
Hypothesis allow_apply : forall ev, apply_event job ev -> allowed ev.

Lemma allow_trigger_of_apply ev : trigger_event ev -> allowed ev.
Proof.
  intros Hc. apply allow_apply.
  destruct ev as [[] rej|[]]; simpl in *; auto; contradiction.
Qed.

Lemma allow_step_of_apply ev : step_event ev -> allowed ev.
Proof.
  intros Hc. apply allow_apply.
  destruct ev as [[| |sel| |[] | |sel|sel|] rej|[]]; try destruct sel;
    simpl in *; auto; contradiction.
Qed.

Lemma apply_attempt_keeps : keeps J (apply_attempt job).
Proof.
  unfold apply_attempt.
  repeat first
    [ apply (step_loop_keeps allow_step_of_apply)
    | apply (click_apply_keeps allow_trigger_of_apply); intros s Hs; exact Hs
    | keeps_step ];
    apply allow_apply; simpl; auto.
Qed.

Lemma applyToSeekJob_keeps : keeps J (applyToSeekJob job).
Proof.
  unfold applyToSeekJob, apply_handler.
  repeat first [apply apply_attempt_keeps | keeps_step];
    apply allow_apply; exact I.
Qed.

End ApplyFootprint.

End Footprint.

(** Footprints that only constrain the events: every event satisfies [P]. *)
Section EventFootprint.
Context {W : Type} `{Page W}.
Variable P : Event -> Prop.
Hypothesis P_write : forall content rejected,
  P (Called (WriteAnswersFile content) rejected).

Let J : Mem W -> list Event -> Mem W -> Prop := fun _ evs _ => Forall P evs.

Lemma events_nil (m : Mem W) : J m [] m.
Proof. constructor. Qed.

Lemma events_app (m : Mem W) ev1 m1 ev2 m2 :
  J m ev1 m1 -> J m1 ev2 m2 -> J m (ev1 ++ ev2) m2.
Proof. intros H1 H2. apply Forall_app. auto. Qed.

Lemma events_log l : P (Logged l) -> keeps J (log l).
Proof. intros Hl m. constructor; [exact Hl | constructor]. Qed.

Lemma events_call c :
  (forall rejected, P (Called c rejected)) -> keeps J (call c).
Proof. intros Hc m. apply sat_call. constructor; [apply Hc | constructor]. Qed.

Lemma events_persist question answer : keeps J (persist question answer).
Proof.
  intros m. unfold persist. run; subst J; simpl; repeat constructor; apply P_write.
Qed.

Lemma answerScreeningQuestions_events job (m : Mem W) :
  (forall ev, screening_event ev -> P ev) ->
  Forall P (events (answerScreeningQuestions job m)).
Proof.
  intros Hc.
  exact (answerScreeningQuestions_keeps J P events_nil events_app
           events_log events_call events_persist Hc job m).
Qed.

Lemma click_apply_events (m : Mem W) :
  (forall ev, trigger_event ev -> P ev) ->
  Forall P (events (click_apply applySelectors m)).
Proof.
  intros Hc.
  apply (click_apply_keeps J P events_nil events_app events_log events_call Hc).
  intros s Hs. exact Hs.
Qed.

Lemma step_loop_events job steps (m : Mem W) :
  (forall ev, step_event ev -> P ev) ->
  Forall P (events (step_loop job steps m)).
Proof.
  intros Hc.
  exact (step_loop_keeps J P events_nil events_app
           events_log events_call events_persist Hc job steps m).
Qed.

Lemma applyToSeekJob_events job (m : Mem W) :
  (forall ev, apply_event job ev -> P ev) ->
  Forall P (events (applyToSeekJob job m)).
Proof.
  intros Hc.
  exact (applyToSeekJob_keeps J P events_nil events_app
           events_log events_call events_persist job Hc m).
Qed.

End EventFootprint.

Lemma learning_app saved ws ws' :
  learning saved ws -> learning (latest saved ws) ws' ->
  learning saved (ws ++ ws').
Proof.
  revert saved. induction ws as [|o ws IH]; intros saved; simpl; [auto |].
  intros [Ho Hws] Hws'. split; [exact Ho |]. apply IH; assumption.
Qed.

Lemma has_own_set (o : JsObject.t) k v k' :
  JsObject.has_own o k' = true -> JsObject.has_own (JsObject.set o k v) k' = true.
Proof.
  unfold JsObject.set, JsObject.has_own. intros Hown.
  destruct (existsb (fun kv => String.eqb (fst kv) k) o) eqn:Hk.
  - clear Hk. induction o as [|x o IH]; simpl in *; [discriminate |].
    destruct (String.eqb (fst x) k) eqn:Hx; simpl.
    + apply String.eqb_eq in Hx. rewrite Hx in Hown. exact Hown.
    + apply orb_true_iff in Hown as [Hx' | Ho]; [now rewrite Hx' |].
      rewrite (IH Ho). apply orb_true_r.
  - destruct (String.eqb k "__proto__"); [exact Hown |].
    rewrite existsb_app, Hown. reflexivity.
Qed.

Lemma learning_keeps_keys saved ws k :
  learning saved ws -> JsObject.has_own saved k = true ->
  JsObject.has_own (latest saved ws) k = true.
Proof.
  revert saved. induction ws as [|o ws IH]; intros saved; simpl; [auto |].
  intros [(q & a & ->) Hws] Hown.
  exact (IH _ Hws (has_own_set _ q a _ Hown)).
Qed.

Section CacheTrail.
Context {W : Type} `{Page W}.

Lemma cache_trail_nil (m : Mem W) : cache_trail m [] m.
Proof. split; [exact I | reflexivity]. Qed.

Lemma cache_trail_app (m : Mem W) ev1 m1 ev2 m2 :
  cache_trail m ev1 m1 -> cache_trail m1 ev2 m2 -> cache_trail m (ev1 ++ ev2) m2.
Proof.
  unfold cache_trail, writes. intros [Hl1 Hs1] [Hl2 Hs2].
  rewrite omap_app. split.
  - apply learning_app; [exact Hl1 | now rewrite <- Hs1].
  - unfold latest in *. now rewrite fold_left_app, <- Hs1.
Qed.

Lemma cache_trail_log l :
  written (Logged l) = None -> keeps (@cache_trail W) (log l).
Proof. intros _ m. split; [exact I | reflexivity]. Qed.

Lemma cache_trail_call c :
  (forall rejected, written (Called c rejected) = None) ->
  keeps (@cache_trail W) (call c).
Proof.
  intros Hc m. apply sat_call. unfold cache_trail, writes.
  cbn [omap list_omap savedAnswers]. rewrite Hc. simpl. auto.
Qed.

Lemma cache_trail_persist question answer :
  keeps (@cache_trail W) (persist question answer).
Proof.
  intros m. unfold persist. run; unfold cache_trail; simpl; eauto.
Qed.

Lemma apply_event_not_written job ev : apply_event job ev -> written ev = None.
Proof.
  destruct ev as [[] rej|l]; simpl; auto. intros [[] | []].
Qed.

Lemma applyToSeekJob_cache_trail job : keeps (@cache_trail W) (applyToSeekJob job).
Proof.
  apply (applyToSeekJob_keeps (@cache_trail W) (fun ev => written ev = None)).
  - apply cache_trail_nil.
  - apply cache_trail_app.
  - apply cache_trail_log.
  - apply cache_trail_call.
  - apply cache_trail_persist.
  - apply apply_event_not_written.
Qed.

(** X10 -- the answers file follows the cache.  During an application the
    cache changes by assignments of answers only, each new cache is handed
    to the file write at once, and the cache at the end is the content of
    the last write (the initial cache when nothing was written). *)
Theorem answers_file_mirrors_cache job (m : Mem W) :
  learning (savedAnswers m) (writes (events (applyToSeekJob job m)))
  /\ savedAnswers (final (applyToSeekJob job m))
     = latest (savedAnswers m) (writes (events (applyToSeekJob job m))).
Proof. exact (applyToSeekJob_cache_trail job m). Qed.

(** X11 -- learned keys are never dropped.  A key the cache holds when an
    application starts is still in the cache when it ends, however the
    application goes; its value may have been overwritten. *)
Theorem learned_keys_are_kept job (m : Mem W) k :
  JsObject.has_own (savedAnswers m) k = true ->
  JsObject.has_own (savedAnswers (final (applyToSeekJob job m))) k = true.
Proof.
  intros Hown. destruct (applyToSeekJob_cache_trail job m) as [Hl Hs].
  unfold satisfies in Hs. rewrite Hs. now apply learning_keeps_keys.
Qed.

End CacheTrail.

(** An application on a form with one continue button, started with a cache
    that holds the key "sponsorship". *)
Lemma learned_keys_are_kept_witness :
  JsObject.has_own
    (savedAnswers (final (@applyToSeekJob unit continue_form sample_job returning_user)))
    "sponsorship" = true.
Proof.
  apply (@learned_keys_are_kept unit continue_form sample_job returning_user).
  reflexivity.
Defined.

Section Site.
Context {W : Type} `{Page W}.

Lemma click_apply_clicks sels (m : Mem W) :
  satisfies (click_apply sels) m (fun m' evs r =>
    count_events is_apply_click evs <= 1 /\ count_events is_goto evs = 0).
Proof.
  revert m. induction sels as [|sel sels IH]; intros m; simpl.
  - run. split; [cbv; lia | reflexivity].
  - run; try (split; [cbv; lia | reflexivity]);
      (eapply sat_mono; [apply IH |]; intros m2 ev2 r2 [Hc Hg];
       rewrite ?count_events_app, ?count_events_cons, ?count_events_nil;
       simpl; lia).
Qed.

Lemma step_loop_in_form job steps (m : Mem W) :
  satisfies (step_loop job steps) m (fun m' evs r => Forall in_form evs).
Proof.
  unfold satisfies. apply step_loop_events.
  - intros o rej. split; reflexivity.
  - intros [[] rej|l] Hc; simpl in Hc; try contradiction; split; reflexivity.
Qed.

Lemma in_form_counts evs :
  Forall in_form evs ->
  count_events is_goto evs = 0 /\ count_events is_apply_click evs = 0.
Proof.
  intros Hf. split; apply count_events_absent;
    (eapply Forall_impl; [exact Hf |]); intros ev [Hg Hc]; assumption.
Qed.

Lemma apply_attempt_clicks job (m : Mem W) :
  satisfies (apply_attempt job) m (fun m' evs r =>
    count_events is_goto evs = 1 /\ count_events is_apply_click evs <= 1).
Proof.
  unfold apply_attempt. run_step. run_step. run_step.
  { split; [reflexivity | cbv; lia]. }
  run_step. run_step. run_step.
  { split; [reflexivity | cbv; lia]. }
  run_step.
  eapply sat_mono; [apply click_apply_clicks |].
  intros m1 ev1 [clicked|e] [Hc Hg].
  - destruct clicked; cbn [negb]; cbv beta iota.
    + run_step.
      eapply sat_mono; [apply step_loop_in_form |].
      intros m2 ev2 r2 Hf. apply in_form_counts in Hf as [Hg2 Hc2].
      destruct r2 as [[b|]|e]; run;
        rewrite ?count_events_app, ?count_events_cons, ?count_events_nil, Hg, Hg2, Hc2;
        simpl; lia.
    + run. rewrite ?count_events_app, ?count_events_cons, ?count_events_nil, Hg.
      simpl. lia.
  - rewrite ?count_events_app, ?count_events_cons, ?count_events_nil, Hg.
    simpl. lia.
Qed.

(** X12 -- an application stays on its job.  Whatever the page does, one
    run of [applyToSeekJob] navigates exactly once, clicks an Apply locator
    at most once, and every event is one of the flow: the navigation goes to
    the job's URL, locator probes and clicks use the four Apply selectors,
    form controls are addressed by id, and no search script is
    evaluated. *)
Theorem application_stays_on_the_job job (m : Mem W) :
  count_events is_goto (events (applyToSeekJob job m)) = 1
  /\ count_events is_apply_click (events (applyToSeekJob job m)) <= 1
  /\ Forall (flow_event job) (events (applyToSeekJob job m)).
Proof.
  assert (Hs : satisfies (applyToSeekJob job) m (fun m' evs r =>
            count_events is_goto evs = 1 /\ count_events is_apply_click evs <= 1)).
  { unfold applyToSeekJob, apply_handler. run_step. run_step. run_step. run_step.
    run_step. eapply sat_mono; [apply apply_attempt_clicks |].
    intros m1 ev1 [b|e] [Hg Hc]; run;
      rewrite ?count_events_app, ?count_events_cons, ?count_events_nil, Hg;
      simpl; lia. }
  destruct Hs as [Hg Hc]. split; [exact Hg | split; [exact Hc |]].
  apply applyToSeekJob_events.
  - intros o rej. exact I.
  - intros [[] rej|l] Hc'; simpl in *; auto.
Qed.

Lemma answerScreeningQuestions_no_success job (m : Mem W) :
  satisfies (answerScreeningQuestions job) m (fun m' evs r =>
    count_events is_success evs = 0).
Proof.
  unfold satisfies. apply count_events_absent, answerScreeningQuestions_events.
  - reflexivity.
  - intros [[| |sel| |[] | |sel|sel|] rej|[]] Hc;
      try destruct sel; simpl in Hc; try contradiction; reflexivity.
Qed.

Lemma click_apply_no_success sels (m : Mem W) :
  satisfies (click_apply sels) m (fun m' evs r => count_events is_success evs = 0).
Proof.
  revert m. induction sels as [|sel sels IH]; intros m; simpl.
  - run. reflexivity.
  - run; try reflexivity;
      (eapply sat_mono; [apply IH |]; intros m2 ev2 r2 Hc;
       rewrite ?count_events_app, ?count_events_cons, ?count_events_nil, Hc;
       reflexivity).
Qed.

Ltac run_screening :=
  lazymatch goal with
  | |- satisfies (answerScreeningQuestions _) _ _ =>
      eapply sat_mono; [apply answerScreeningQuestions_no_success |];
      let r := fresh "r" in
      let Hq := fresh "Hq" in
      intros ? ? r Hq; destruct r; cbv beta iota
  | _ => run_step
  end.

Lemma step_body_success job step (m : Mem W) :
  satisfies (step_body job step) m (fun m' evs r =>
    match r with
    | Normal (ReturnValue b) => b = true /\ 0 < count_events is_success evs
    | _ => count_events is_success evs = 0
    end).
Proof.
  unfold step_body. repeat run_screening; trigger_cases; try discriminate;
    rewrite ?count_events_app, ?count_events_cons, ?count_events_nil;
    repeat match goal with Hq : count_events is_success _ = 0 |- _ => rewrite Hq; clear Hq end;
    simpl; try split; try reflexivity; try lia.
Qed.

Lemma step_loop_success job steps (m : Mem W) :
  satisfies (step_loop job steps) m (fun m' evs r =>
    match r with
    | Normal (Some b) => b = true /\ 0 < count_events is_success evs
    | _ => count_events is_success evs = 0
    end).
Proof.
  revert m. induction steps as [|step steps IH]; intros m; simpl.
  - run. reflexivity.
  - run_step. eapply sat_mono; [apply step_body_success |].
    intros m1 ev1 [[| |b]|e] H1.
    + eapply sat_mono; [apply IH |]. intros m2 ev2 [[b|]|e] H2;
        rewrite count_events_app, H1; simpl; auto.
    + run. now rewrite count_events_app, H1.
    + run. rewrite count_events_app, count_events_nil. split; [tauto | lia].
    + exact H1.
Qed.

Lemma apply_attempt_success job (m : Mem W) :
  satisfies (apply_attempt job) m (fun m' evs r =>
    match r with
    | Normal true => 0 < count_events is_success evs
    | _ => count_events is_success evs = 0
    end).
Proof.
  unfold apply_attempt. run_step. run_step. run_step; [reflexivity |].
  run_step. run_step. run_step; [reflexivity |].
  run_step.
  eapply sat_mono; [apply click_apply_no_success |].
  intros m1 ev1 [clicked|e] Hc;
    [| rewrite ?count_events_app, ?count_events_cons, ?count_events_nil, Hc;
       reflexivity].
  destruct clicked; cbn [negb]; cbv beta iota.
  - run_step. eapply sat_mono; [apply step_loop_success |].
    intros m2 ev2 [[b|]|e] H2; run;
      rewrite ?count_events_app, ?count_events_cons, ?count_events_nil, Hc;
      simpl; try lia.
    destruct H2 as [-> H2]. lia.
  - run. rewrite ?count_events_app, ?count_events_cons, ?count_events_nil, Hc.
    reflexivity.
Qed.

Lemma applyToSeekJob_success job (m : Mem W) :
  satisfies (applyToSeekJob job) m (fun m' evs r =>
    r = Normal true <-> 0 < count_events is_success evs).
Proof.
  unfold applyToSeekJob, apply_handler. run_step. run_step. run_step. run_step.
  run_step. eapply sat_mono; [apply apply_attempt_success |].
  intros m1 ev1 [[|]|e] H1; run;
    rewrite ?count_events_app, ?count_events_cons, ?count_events_nil, ?H1;
    simpl; (split; [try discriminate; try lia; auto | try lia; auto]).
Qed.

End Site.

Lemma count_events_positive p evs :
  0 < count_events p evs <-> exists ev, In ev evs /\ p ev = true.
Proof.
  split.
  - unfold count_events. destruct (List.filter p evs) as [|ev l] eqn:E; simpl; [lia |].
    intros _. exists ev. apply List.filter_In. rewrite E. now left.
  - intros (ev & Hin & Hp). eapply count_events_present; eauto.
Qed.

(** X13 -- what a reported success rests on.  [applyToSeekJob] returns
    [true] exactly when its run found the completion text at the start of a
    step or dispatched a click on a submit button; in every other run,
    including those that end in an exception, it returns [false]. *)
Theorem success_needs_confirmation_or_submit {W : Type} `{Page W} job (m : Mem W) :
  completion (applyToSeekJob job m) = Normal true
  <-> exists ev,
        In ev (events (applyToSeekJob job m))
        /\ (is_already_confirmed ev = true \/ is_submit_click ev = true).
Proof.
  pose proof (applyToSeekJob_success job m) as Hs. unfold satisfies in Hs.
  rewrite Hs, count_events_positive. clear Hs.
  split; intros (ev & Hin & Hs); exists ev; (split; [exact Hin |]);
    unfold is_success in *; [now apply orb_true_iff | now apply orb_true_iff].
Qed.

Section Trigger.
Context {W : Type} `{Page W}.

Lemma click_apply_clicked sels (m : Mem W) :
  satisfies (click_apply sels) m (fun m' evs r =>
    count_events is_step_start evs = 0
    /\ (r = Normal true -> 0 < count_events is_apply_clicked evs)).
Proof.
  revert m. induction sels as [|sel sels IH]; intros m; simpl.
  - run. split; [reflexivity | discriminate].
  - run; try (split; [reflexivity | try discriminate; intros _; cbv; lia]);
      (eapply sat_mono; [apply IH |]; intros m2 ev2 r2 [Hs Hc];
       rewrite ?count_events_app, ?count_events_cons, ?count_events_nil, Hs;
       split; [reflexivity | intros Hr; specialize (Hc Hr); simpl; lia]).
Qed.

(** X14 -- no form step without an Apply click.  A run of
    [applyToSeekJob] that starts a form step has clicked one of the Apply
    locators, and the click went through: when no Apply control is visible,
    or the click is rejected, no step is started. *)
Theorem steps_need_an_apply_click job (m : Mem W) :
  0 < count_events is_step_start (events (applyToSeekJob job m)) ->
  0 < count_events is_apply_clicked (events (applyToSeekJob job m)).
Proof.
  assert (Ha : satisfies (apply_attempt job) m (fun m' evs r =>
            0 < count_events is_step_start evs ->
            0 < count_events is_apply_clicked evs)).
  { unfold apply_attempt. run_step. run_step.
    run_step; [cbv; lia |].
    run_step. run_step. run_step; [cbv; lia |].
    run_step.
    eapply sat_mono; [apply click_apply_clicked |].
    intros m1 ev1 [[|]|e] [Hs Hc]; cbn [negb]; cbv beta iota.
    - specialize (Hc eq_refl). run_step.
      apply (sat_mono _ _ (fun _ _ _ => True)); [exact I |].
      intros m2 ev2 [[b|]|e] _; run; intros _;
        rewrite ?count_events_app, ?count_events_cons, ?count_events_nil; simpl; lia.
    - run. rewrite ?count_events_app, ?count_events_cons, ?count_events_nil, Hs.
      cbv. lia.
    - rewrite ?count_events_app, ?count_events_cons, ?count_events_nil, Hs.
      cbv. lia. }
  assert (Hs : satisfies (applyToSeekJob job) m (fun m' evs r =>
            0 < count_events is_step_start evs ->
            0 < count_events is_apply_clicked evs)).
  { unfold applyToSeekJob, apply_handler. run_step. run_step. run_step. run_step.
    run_step. eapply sat_mono; [exact Ha |].
    intros m1 ev1 [b|e] H1; run;
      rewrite ?count_events_app, ?count_events_cons, ?count_events_nil;
      simpl; intros; assert (0 < count_events is_apply_clicked ev1) by (apply H1; lia);
      lia. }
  exact Hs.
Qed.

End Trigger.

(** The form with one continue button: eight steps after one Apply click. *)
Lemma steps_need_an_apply_click_witness :
  0 < count_events is_apply_clicked
        (events (@applyToSeekJob unit continue_form sample_job (start unit tt))).
Proof.
  apply (@steps_need_an_apply_click unit continue_form sample_job (start unit tt)).
  vm_compute. lia.
Defined.

(** * The batch *)

Lemma toApply_unapplied allJobs maxApplications :
  Forall (fun j => applied j = false) (toApply allJobs maxApplications).
Proof.
  unfold toApply. apply Forall_take, Forall_forall. intros j Hj.
  apply list_elem_of_In, List.filter_In in Hj as [_ Hj]. now apply negb_true_iff.
Qed.

Lemma toApply_length allJobs maxApplications :
  length (toApply allJobs maxApplications) <= maxApplications.
Proof. unfold toApply. rewrite length_take. lia. Qed.

Lemma toApply_incl allJobs maxApplications j :
  In j (toApply allJobs maxApplications) -> In j allJobs /\ applied j = false.
Proof.
  unfold toApply. intros Hj.
  assert (Hin : In j (List.filter (fun j => negb (applied j)) allJobs)).
  { apply list_elem_of_In. eapply subseteq_take. apply list_elem_of_In, Hj. }
  apply List.filter_In in Hin as [Hin Ha]. split; [exact Hin | now apply negb_true_iff].
Qed.

Lemma record_outcome_other allJobs u success stamp j :
  In j allJobs -> url j <> u -> In j (record_outcome allJobs u success stamp).
Proof.
  induction allJobs as [|x rest IH]; simpl; [tauto |].
  intros [-> | Hin] Hne.
  - destruct (String.eqb_spec (url j) u); [contradiction | now left].
  - destruct (String.eqb (url x) u); right; auto.
Qed.

Lemma record_outcome_recorded allJobs u success stamp :
  In u (List.map url allJobs) ->
  exists j,
    In j (record_outcome allJobs u success stamp)
    /\ url j = u /\ applied j = success
    /\ appliedAt j = (if success then Some stamp else None).
Proof.
  induction allJobs as [|x rest IH]; simpl; [tauto |].
  destruct (String.eqb_spec (url x) u) as [Hx | Hx].
  - intros _. eexists. split; [now left | simpl; auto].
  - intros [Hu | Hu]; [contradiction |].
    destruct (IH Hu) as (j & Hj & Hrest). exists j. split; [now right | exact Hrest].
Qed.

Lemma same_url_same_record (jobs : list Job) j j' :
  NoDup (List.map url jobs) -> In j jobs -> In j' jobs -> url j = url j' -> j = j'.
Proof.
  induction jobs as [|x rest IH]; simpl; [tauto |].
  intros Hnd. apply NoDup_cons in Hnd as [Hx Hnd].
  assert (Hin : forall y, In y rest -> url y <> url x).
  { intros y Hy Heq. apply Hx. rewrite <- Heq.
    apply list_elem_of_In, in_map, Hy. }
  intros [-> | Hj] [-> | Hj'] Heq; auto.
  - exfalso. now apply (Hin j').
  - exfalso. now apply (Hin j).
Qed.

Lemma positions_from_spec p pre l :
  Forall2 (fun k j => (pre ++ l) !! k = Some j)
          (positions_from p (length pre) l) (List.filter p l).
Proof.
  revert pre. induction l as [|x l IH]; intros pre; simpl; [constructor |].
  specialize (IH (pre ++ [x])). rewrite <- app_assoc, length_app in IH. simpl in IH.
  replace (length pre + 1) with (S (length pre)) in IH by lia.
  destruct (p x); [constructor; [| exact IH] | exact IH].
  rewrite lookup_app_r by lia. now rewrite Nat.sub_diag.
Qed.

Lemma toApply_refs_spec allJobs maxApplications :
  Forall2 (fun k j => allJobs !! k = Some j)
          (toApply_refs allJobs maxApplications) (toApply allJobs maxApplications).
Proof.
  unfold toApply_refs, toApply. apply Forall2_take.
  exact (positions_from_spec _ [] allJobs).
Qed.

Lemma current_toApply allJobs maxApplications :
  current allJobs (toApply_refs allJobs maxApplications)
  = toApply allJobs maxApplications.
Proof.
  unfold current.
  induction (toApply_refs_spec allJobs maxApplications) as [|k j ks js Hk _ IH];
    [reflexivity |].
  cbn [omap list_omap]. rewrite Hk. cbn. f_equal. exact IH.
Qed.

Lemma filter_partition_length {A} (p : A -> bool) l :
  length (List.filter p l) + length (List.filter (fun x => negb (p x)) l) = length l.
Proof.
  induction l as [|x l IH]; simpl; [reflexivity |].
  destruct (p x); simpl; lia.
Qed.

Lemma lookup_same_url (catalogue catalogue' : list Job) k j :
  List.map url catalogue' = List.map url catalogue ->
  catalogue !! k = Some j ->
  exists j', catalogue' !! k = Some j' /\ url j' = url j.
Proof.
  intros Hurls Hk.
  assert (Hu : (url <$> catalogue') !! k = Some (url j)).
  { change (url <$> catalogue') with (List.map url catalogue').
    rewrite Hurls. change (List.map url catalogue) with (url <$> catalogue).
    now rewrite list_lookup_fmap, Hk. }
  rewrite list_lookup_fmap in Hu.
  destruct (catalogue' !! k) as [j'|]; [| discriminate].
  injection Hu as Hu. eauto.
Qed.

Lemma Forall2_compose {A B C} (R1 : A -> B -> Prop) (R2 : B -> C -> Prop)
    (Q : A -> C -> Prop) l1 l2 l3 :
  Forall2 R1 l1 l2 -> Forall2 R2 l2 l3 ->
  (forall a b c, R1 a b -> R2 b c -> Q a c) ->
  Forall2 Q l1 l3.
Proof.
  intros H1. revert l3. induction H1 as [|a b l1 l2 Hab _ IH]; intros l3 H2 Hq;
    inversion H2; subst; constructor; eauto.
Qed.

Lemma current_outcomes (catalogue : list Job) refs (results : list bool) :
  Forall2 (fun k r => exists j, catalogue !! k = Some j /\ applied j = r)
          refs results ->
  length (List.filter applied (current catalogue refs))
  = length (List.filter (fun r : bool => r) results)
  /\ length (current catalogue refs) = length refs.
Proof.
  unfold current. induction 1 as [|k r ks rs (j & Hk & Ha) _ [IHa IHl]];
    [split; reflexivity |].
  cbn [omap list_omap]. rewrite Hk. cbn. rewrite Ha.
  destruct r; simpl; split; lia.
Qed.

Section BatchProofs.
Context {W : Type} `{Page W} `{Host W}.

Lemma attempted_app evs evs' : attempted (evs ++ evs') = attempted evs ++ attempted evs'.
Proof. unfold attempted. apply omap_app. Qed.

(** Unfold one pass of the loop, with the application known to return. *)
Ltac batch_step job m :=
  let b := fresh "b" in
  let Hb := fresh "Hb" in
  destruct (applyToSeekJob_spec job m) as [[b Hb] _];
  unfold satisfies in Hb; cbn [apply_jobs]; cbv zeta; rewrite Hb;
  destruct (write_catalogue _ _) as [? [?|]]; cbv beta iota.

Lemma succeeded_app evs evs' :
  length (List.filter succeeded (evs ++ evs'))
  = length (List.filter succeeded evs) + length (List.filter succeeded evs').
Proof. now rewrite List.filter_app, length_app. Qed.

Ltac batch_cases IH job rest m :=
  batch_step job m;
  [ | destruct rest as [|next rest'];
      [ | destruct (respond (WaitForTimeout _) _) as [? [?|]]; cbv beta iota;
          [ | let later := fresh "later" in
              match goal with
              | |- context [apply_jobs ?d ?n ?i ?js ?aj ?sc ?mm] =>
                  specialize (IH i aj sc mm);
                  set (later := apply_jobs d n i js aj sc mm) in *
              end;
              cbn [after b_final b_allJobs b_successCount b_events b_completion] ] ] ].

Lemma apply_jobs_attempted delay n i jobs allJobs successCount (m : Mem W) :
  (exists k, attempted (b_events (apply_jobs delay n i jobs allJobs successCount m))
             = take k jobs)
  /\ (b_completion (apply_jobs delay n i jobs allJobs successCount m) = Normal tt ->
      attempted (b_events (apply_jobs delay n i jobs allJobs successCount m)) = jobs).
Proof.
  revert i allJobs successCount m.
  induction jobs as [|job rest IH]; intros i allJobs successCount m.
  - simpl. split; [now exists 0 | reflexivity].
  - batch_cases IH job rest m.
    + split; [now exists 1 | discriminate].
    + split; [now exists 1 | reflexivity].
    + split; [now exists 1 | discriminate].
    + destruct IH as [[k Hk] Hall]. rewrite !attempted_app.
      change (attempted [Progress (S i) n;
                         Applied job (events (applyToSeekJob job m)) (Normal b)])
        with [job].
      cbn [attempted omap list_omap app].
      split; [exists (S k); now rewrite Hk | intros Hn; now rewrite (Hall Hn)].
Qed.

Lemma apply_jobs_successCount delay n i jobs allJobs successCount (m : Mem W) :
  b_successCount (apply_jobs delay n i jobs allJobs successCount m)
  <= successCount
     + length (List.filter succeeded
                 (b_events (apply_jobs delay n i jobs allJobs successCount m)))
  /\ (b_completion (apply_jobs delay n i jobs allJobs successCount m) = Normal tt ->
      b_successCount (apply_jobs delay n i jobs allJobs successCount m)
      = successCount
        + length (List.filter succeeded
                    (b_events (apply_jobs delay n i jobs allJobs successCount m)))).
Proof.
  revert i allJobs successCount m.
  induction jobs as [|job rest IH]; intros i allJobs successCount m.
  - simpl. split; [lia | intros _; lia].
  - batch_cases IH job rest m.
    + split; [destruct b; simpl; lia | discriminate].
    + split; [| intros _]; destruct b; simpl; lia.
    + split; [destruct b; simpl; lia | discriminate].
    + destruct IH as [Hle Heq]. rewrite !succeeded_app.
      split; [| intros Hn; specialize (Heq Hn)]; destruct b; simpl in *; lia.
Qed.

Lemma apply_jobs_pauses delay n i jobs allJobs successCount (m : Mem W) :
  b_completion (apply_jobs delay n i jobs allJobs successCount m) = Normal tt ->
  length (List.filter is_pause
            (b_events (apply_jobs delay n i jobs allJobs successCount m)))
  = pred (length jobs).
Proof.
  revert i allJobs successCount m.
  induction jobs as [|job rest IH]; intros i allJobs successCount m.
  - reflexivity.
  - batch_cases IH job rest m; try discriminate; [reflexivity |].
    intros Hn. rewrite !List.filter_app, !length_app, (IH Hn). reflexivity.
Qed.

Lemma apply_jobs_abort delay n i jobs allJobs successCount (m : Mem W) e :
  b_completion (apply_jobs delay n i jobs allJobs successCount m) = Thrown e ->
  exists pre,
    (exists catalogue,
       b_events (apply_jobs delay n i jobs allJobs successCount m)
       = pre ++ [Saved catalogue (Some e)])
    \/ b_events (apply_jobs delay n i jobs allJobs successCount m)
       = pre ++ [Pause delay (Some e)].
Proof.
  revert i allJobs successCount m.
  induction jobs as [|job rest IH]; intros i allJobs successCount m.
  - discriminate.
  - batch_cases IH job rest m; try discriminate.
    + intros [= <-]. eexists. left. eexists. reflexivity.
    + intros [= <-]. eexists. right.
      change (?a ++ [?x; ?y; ?z]) with (a ++ [x; y] ++ [z]).
      rewrite app_assoc. reflexivity.
    + intros Ht. destruct (IH Ht) as (pre & [(c & ->) | ->]);
        eexists; [left; eexists | right]; rewrite app_assoc; reflexivity.
Qed.

Lemma apply_jobs_completes delay n i jobs allJobs successCount (m : Mem W) :
  (forall catalogue w, (write_catalogue catalogue w).2 = None) ->
  (forall w, (respond (WaitForTimeout delay) w).2 = None) ->
  b_completion (apply_jobs delay n i jobs allJobs successCount m) = Normal tt.
Proof.
  intros Hwrite Hpause. revert i allJobs successCount m.
  induction jobs as [|job rest IH]; intros i allJobs successCount m.
  - reflexivity.
  - destruct (applyToSeekJob_spec job m) as [[b Hb] _].
    unfold satisfies in Hb. cbn [apply_jobs]. cbv zeta. rewrite Hb.
    match goal with
    | |- context [write_catalogue ?c ?w] =>
        pose proof (Hwrite c w) as Hw; destruct (write_catalogue c w) as [w2 saved]
    end.
    simpl in Hw. subst saved. cbv beta iota.
    destruct rest as [|next rest']; [reflexivity |].
    pose proof (Hpause w2) as Hp.
    destruct (respond (WaitForTimeout delay) w2) as [w3 paused].
    simpl in Hp. subst paused. cbv beta iota. apply IH.
Qed.

Lemma apply_jobs_catalogue delay n i jobs allJobs successCount (m : Mem W) :
  List.map url (b_allJobs (apply_jobs delay n i jobs allJobs successCount m))
  = List.map url allJobs
  /\ forall j,
       In j allJobs ->
       (forall job, In job jobs -> url job <> url j) ->
       In j (b_allJobs (apply_jobs delay n i jobs allJobs successCount m)).
Proof.
  revert i allJobs successCount m.
  induction jobs as [|job rest IH]; intros i allJobs successCount m.
  - simpl. auto.
  - assert (Hkeep : forall b stamp j,
               In j allJobs ->
               (forall job', In job' (job :: rest) -> url job' <> url j) ->
               In j (record_outcome allJobs (url job) b stamp)).
    { intros b' stamp j Hj Hne. apply record_outcome_other; [exact Hj |].
      intros Heq. apply (Hne job); [now left | now symmetry]. }
    batch_cases IH job rest m.
    + split; [apply record_outcome_urls | intros j Hj Hne; now apply Hkeep].
    + split; [apply record_outcome_urls | intros j Hj Hne; now apply Hkeep].
    + split; [apply record_outcome_urls | intros j Hj Hne; now apply Hkeep].
    + destruct IH as [Hurls Hin]. rewrite Hurls. split; [apply record_outcome_urls |].
      intros j Hj Hne. apply Hin; [now apply Hkeep |].
      intros job' Hjob'. apply Hne. now right.
Qed.

Lemma apply_jobs_records delay n i jobs allJobs successCount (m : Mem W) :
  NoDup (List.map url jobs) ->
  (forall job, In job jobs -> In (url job) (List.map url allJobs)) ->
  Forall (recorded (b_allJobs (apply_jobs delay n i jobs allJobs successCount m)))
         (b_events (apply_jobs delay n i jobs allJobs successCount m)).
Proof.
  revert i allJobs successCount m.
  induction jobs as [|job rest IH]; intros i allJobs successCount m Hnd Hin.
  - constructor.
  - assert (Hhead : forall b stamp,
               recorded (record_outcome allJobs (url job) b stamp)
                        (Applied job (events (applyToSeekJob job m)) (Normal b))).
    { intros b stamp.
      destruct (record_outcome_recorded allJobs (url job) b stamp
                  (Hin job (or_introl eq_refl))) as (j & Hj & Hu & Ha & Hat).
      exists j. repeat split; auto; rewrite Hat; destruct b; congruence. }
    apply NoDup_cons in Hnd as [Hjob Hnd].
    assert (Hfresh : forall job', In job' rest -> url job' <> url job).
    { intros job' Hjob' Heq. apply Hjob. rewrite <- Heq.
      apply list_elem_of_In, (in_map url), Hjob'. }
    assert (Hrest : forall b stamp job',
               In job' rest ->
               In (url job') (List.map url (record_outcome allJobs (url job) b stamp))).
    { intros b stamp job' Hjob'. rewrite record_outcome_urls. apply Hin. now right. }
    clear Hjob.
    batch_cases IH job rest m.
    + repeat constructor. apply Hhead.
    + repeat constructor. apply Hhead.
    + repeat constructor. apply Hhead.
    + repeat rewrite Forall_app. repeat rewrite Forall_cons. repeat split; try constructor.
      * destruct (Hhead b (clock (world (final (applyToSeekJob job m)))))
          as (j & Hj & Hu & Ha).
        exists j. split; [| auto].
        apply (apply_jobs_catalogue delay n (S i) (next :: rest')); [exact Hj |].
        intros job' Hjob' Heq. apply (Hfresh job' Hjob'). congruence.
      * apply IH; [exact Hnd | apply Hrest].
Qed.

(** X17 -- the batch is capped and in order.  Whatever the page and the
    host do, the jobs handed to [applyToSeekJob] are an initial stretch of
    the selection, in its order: at most [maxApplications] of them, each a
    job of the catalogue that was unapplied when the batch started; and the
    success counter never exceeds the number of applications that returned
    [true]. *)
Theorem batch_attempts_are_capped maxApplications delay allJobs (m : Mem W) :
  (exists k,
     attempted (b_events (apply_batch maxApplications delay allJobs m))
     = take k (toApply allJobs maxApplications))
  /\ length (attempted (b_events (apply_batch maxApplications delay allJobs m)))
     <= maxApplications
  /\ Forall (fun j => In j allJobs /\ applied j = false)
            (attempted (b_events (apply_batch maxApplications delay allJobs m)))
  /\ b_successCount (apply_batch maxApplications delay allJobs m)
     <= length (List.filter succeeded
                  (b_events (apply_batch maxApplications delay allJobs m))).
Proof.
  unfold apply_batch. cbv zeta.
  destruct (apply_jobs_attempted delay (length (toApply allJobs maxApplications)) 0
              (toApply allJobs maxApplications) allJobs 0 m) as [[k Hk] _].
  split; [now exists k | split; [| split]].
  - rewrite Hk, length_take. pose proof (toApply_length allJobs maxApplications). lia.
  - rewrite Hk. apply Forall_take, Forall_forall. intros j Hj.
    apply toApply_incl with (maxApplications := maxApplications).
    now apply list_elem_of_In.
  - apply (apply_jobs_successCount delay _ 0 _ allJobs 0 m).
Qed.

(** X18 -- the batch runs to its end.  When the catalogue writes and the
    pauses between applications go through, the batch completes normally
    whatever happens inside the applications: every selected job is
    attempted, in order, there is one pause less than there are jobs (none
    after the last), and the success counter is the number of applications
    that returned [true]. *)
Theorem batch_completes maxApplications delay allJobs (m : Mem W) :
  (forall catalogue w, (write_catalogue catalogue w).2 = None) ->
  (forall w, (respond (WaitForTimeout delay) w).2 = None) ->
  b_completion (apply_batch maxApplications delay allJobs m) = Normal tt
  /\ attempted (b_events (apply_batch maxApplications delay allJobs m))
     = toApply allJobs maxApplications
  /\ length (List.filter is_pause
               (b_events (apply_batch maxApplications delay allJobs m)))
     = pred (length (toApply allJobs maxApplications))
  /\ b_successCount (apply_batch maxApplications delay allJobs m)
     = length (List.filter succeeded
                 (b_events (apply_batch maxApplications delay allJobs m))).
Proof.
  intros Hwrite Hpause. unfold apply_batch. cbv zeta.
  pose proof (apply_jobs_completes delay (length (toApply allJobs maxApplications)) 0
                (toApply allJobs maxApplications) allJobs 0 m Hwrite Hpause) as Hn.
  split; [exact Hn | split; [| split]].
  - now apply apply_jobs_attempted.
  - now apply apply_jobs_pauses.
  - now apply (apply_jobs_successCount delay _ 0 _ allJobs 0 m).
Qed.

(** X19 -- what stops the batch.  The batch ends in an exception only
    when a write of the catalogue or a pause between two applications throws,
    and that event is its last; an error inside an application never
    does. *)
Theorem batch_stops_on_write_or_pause maxApplications delay allJobs (m : Mem W) e :
  b_completion (apply_batch maxApplications delay allJobs m) = Thrown e ->
  exists pre,
    (exists catalogue,
       b_events (apply_batch maxApplications delay allJobs m)
       = pre ++ [Saved catalogue (Some e)])
    \/ b_events (apply_batch maxApplications delay allJobs m)
       = pre ++ [Pause delay (Some e)].
Proof. apply apply_jobs_abort. Qed.

(** X20 -- the batch keeps the history.  The batch leaves the URLs of the
    catalogue and their order as they are, and, in a catalogue whose URLs
    are pairwise distinct, a record that was already applied stays in the
    catalogue unchanged, with its time stamp. *)
Theorem batch_keeps_history maxApplications delay allJobs (m : Mem W) j :
  NoDup (List.map url allJobs) ->
  In j allJobs -> applied j = true ->
  List.map url (b_allJobs (apply_batch maxApplications delay allJobs m))
  = List.map url allJobs
  /\ In j (b_allJobs (apply_batch maxApplications delay allJobs m)).
Proof.
  intros Hnd Hj Ha. unfold apply_batch. cbv zeta.
  destruct (apply_jobs_catalogue delay (length (toApply allJobs maxApplications)) 0
              (toApply allJobs maxApplications) allJobs 0 m) as [Hurls Hkeep].
  split; [exact Hurls |].
  apply Hkeep; [exact Hj |].
  intros job Hjob Heq. apply toApply_incl in Hjob as [Hin Hun].
  assert (job = j) by (eapply same_url_same_record; eauto). subst job. congruence.
Qed.

(** X21 -- the catalogue records every outcome.  In a catalogue with
    pairwise distinct URLs, for every application of the batch that returned,
    the catalogue the batch leaves holds a record with the job's URL whose
    [applied] flag is the value returned and whose time stamp is set exactly
    when that value is [true]: later applications do not disturb it. *)
Theorem batch_records_outcomes maxApplications delay allJobs (m : Mem W)
    job trace result :
  NoDup (List.map url allJobs) ->
  In (Applied job trace (Normal result))
     (b_events (apply_batch maxApplications delay allJobs m)) ->
  exists j,
    In j (b_allJobs (apply_batch maxApplications delay allJobs m))
    /\ url j = url job /\ applied j = result
    /\ (appliedAt j = None <-> result = false).
Proof.
  intros Hnd Hev. unfold apply_batch in *. cbv zeta in *.
  assert (Hsel : NoDup (List.map url (toApply allJobs maxApplications))).
  { unfold toApply. rewrite <- firstn_map.
    eapply sublist_NoDup; [| apply sublist_take].
    now apply NoDup_map_filter. }
  pose proof (apply_jobs_records delay (length (toApply allJobs maxApplications)) 0
                (toApply allJobs maxApplications) allJobs 0 m Hsel) as Hrec.
  rewrite Forall_forall in Hrec.
  apply (Hrec (fun job' Hjob' =>
                 in_map url _ _ (proj1 (toApply_incl _ _ _ Hjob')))
              (Applied job trace (Normal result))).
  now apply list_elem_of_In.
Qed.

Lemma apply_jobs_results delay n i jobs allJobs successCount (m : Mem W) :
  b_completion (apply_jobs delay n i jobs allJobs successCount m) = Normal tt ->
  exists results,
    Forall2 (fun job r =>
               exists trace,
                 In (Applied job trace (Normal r))
                    (b_events (apply_jobs delay n i jobs allJobs successCount m)))
            jobs results
    /\ length (List.filter succeeded
                 (b_events (apply_jobs delay n i jobs allJobs successCount m)))
       = length (List.filter (fun r : bool => r) results).
Proof.
  revert i allJobs successCount m.
  induction jobs as [|job rest IH]; intros i allJobs successCount m.
  - intros _. exists []. split; [constructor | reflexivity].
  - batch_cases IH job rest m; try discriminate.
    + intros _. exists [b]. split.
      * constructor; [| constructor]. eexists. right. left. reflexivity.
      * destruct b; reflexivity.
    + intros Hn. destruct (IH Hn) as (results & Hres & Hcount).
      exists (b :: results). split.
      * constructor.
        -- eexists. right. left. reflexivity.
        -- eapply Forall2_impl; [exact Hres |].
           intros job' r (trace & Hin). exists trace.
           cbn [In app]. do 5 right. exact Hin.
      * rewrite !List.filter_app, !length_app, Hcount. destruct b; reflexivity.
Qed.

(** X22 -- the summary counts the successes.  [printSummary] is handed
    the selected records as the catalogue holds them after the batch.  In a
    catalogue with pairwise distinct URLs, when the batch completes, the
    number of jobs it lists as applied is the number of applications that
    returned [true], its total is the number of selected jobs, and applied
    and failed add up to the total. *)
Theorem summary_counts_successes maxApplications delay allJobs (m : Mem W) :
  NoDup (List.map url allJobs) ->
  b_completion (apply_batch maxApplications delay allJobs m) = Normal tt ->
  length (sum_applied
            (printSummary
               (current (b_allJobs (apply_batch maxApplications delay allJobs m))
                        (toApply_refs allJobs maxApplications))))
  = length (List.filter succeeded
              (b_events (apply_batch maxApplications delay allJobs m)))
  /\ sum_total
       (printSummary
          (current (b_allJobs (apply_batch maxApplications delay allJobs m))
                   (toApply_refs allJobs maxApplications)))
     = length (toApply allJobs maxApplications)
  /\ length (sum_applied
               (printSummary
                  (current (b_allJobs (apply_batch maxApplications delay allJobs m))
                           (toApply_refs allJobs maxApplications))))
     + sum_failed
         (printSummary
            (current (b_allJobs (apply_batch maxApplications delay allJobs m))
                     (toApply_refs allJobs maxApplications)))
     = length (toApply allJobs maxApplications).
Proof.
  intros Hnd Hn. unfold apply_batch in *. cbv zeta in *.
  set (jobs := toApply allJobs maxApplications) in *.
  set (run := apply_jobs delay (length jobs) 0 jobs allJobs 0 m) in *.
  destruct (apply_jobs_results _ _ _ _ _ _ _ Hn) as (results & Hres & Hcount).
  fold run in Hres, Hcount.
  destruct (apply_jobs_catalogue delay (length jobs) 0 jobs allJobs 0 m)
    as [Hurls _]. fold run in Hurls.
  assert (Hsel : NoDup (List.map url jobs)).
  { unfold jobs, toApply. rewrite <- firstn_map.
    eapply sublist_NoDup; [| apply sublist_take].
    now apply NoDup_map_filter. }
  pose proof (apply_jobs_records delay (length jobs) 0 jobs allJobs 0 m Hsel) as Hrec.
  fold run in Hrec. rewrite Forall_forall in Hrec.
  assert (Hin : forall job, In job jobs -> In (url job) (List.map url allJobs)).
  { intros job Hjob. apply in_map. exact (proj1 (toApply_incl _ _ _ Hjob)). }
  specialize (Hrec Hin).
  assert (Hfinal : NoDup (List.map url (b_allJobs run))) by now rewrite Hurls.
  assert (Hout : Forall2 (fun k r => exists j,
                            b_allJobs run !! k = Some j /\ applied j = r)
                         (toApply_refs allJobs maxApplications) results).
  { eapply Forall2_compose;
      [exact (toApply_refs_spec allJobs maxApplications) | exact Hres |].
    intros k job r Hk (trace & Hev).
    destruct (Hrec _ (proj2 (list_elem_of_In _ _) Hev)) as (j & Hj & Hu & Ha & _).
    destruct (lookup_same_url allJobs (b_allJobs run) k job Hurls Hk)
      as (j' & Hk' & Hu').
    exists j'. split; [exact Hk' |].
    assert (j' = j); [| now subst].
    eapply same_url_same_record; [exact Hfinal | | exact Hj | congruence].
    apply list_elem_of_In. eapply list_elem_of_lookup_2. exact Hk'. }
  destruct (current_outcomes _ _ _ Hout) as [Happlied Hlen].
  unfold printSummary. cbn [sum_applied sum_failed sum_total].
  pose proof (Forall2_length _ _ _ (toApply_refs_spec allJobs maxApplications)) as Hl.
  fold jobs in Hl.
  split; [now rewrite Happlied, Hcount | split; [now rewrite Hlen |]].
  rewrite filter_partition_length. now rewrite Hlen.
Qed.

End BatchProofs.

(** A batch of two jobs on a form with one continue button. *)
Lemma batch_completes_witness :
  b_completion (@apply_batch unit continue_form steady_host 5 4000%N two_jobs
                  (start unit tt)) = Normal tt
  /\ attempted (b_events (@apply_batch unit continue_form steady_host 5 4000%N
                             two_jobs (start unit tt)))
     = toApply two_jobs 5
  /\ length (List.filter is_pause
               (b_events (@apply_batch unit continue_form steady_host 5 4000%N
                            two_jobs (start unit tt))))
     = pred (length (toApply two_jobs 5))
  /\ b_successCount (@apply_batch unit continue_form steady_host 5 4000%N two_jobs
                       (start unit tt))
     = length (List.filter succeeded
                 (b_events (@apply_batch unit continue_form steady_host 5 4000%N
                              two_jobs (start unit tt)))).
Proof.
  apply (@batch_completes unit continue_form steady_host 5 4000%N two_jobs
           (start unit tt)).
  - intros catalogue w. reflexivity.
  - intros w. reflexivity.
Defined.

(** The disk is full when the outcome of the first application is saved. *)
Lemma batch_stops_on_write_or_pause_witness :
  exists pre,
    (exists catalogue,
       b_events (@apply_batch unit submit_form full_disk 5 4000%N two_jobs
                   (start unit tt))
       = pre ++ [Saved catalogue
                   (Some {| message := "ENOSPC: no space left on device" |})])
    \/ b_events (@apply_batch unit submit_form full_disk 5 4000%N two_jobs
                   (start unit tt))
       = pre ++ [Pause 4000%N
                   (Some {| message := "ENOSPC: no space left on device" |})].
Proof.
  apply (@batch_stops_on_write_or_pause unit submit_form full_disk 5 4000%N
           two_jobs (start unit tt)).
  vm_compute. reflexivity.
Defined.

(** A catalogue with one applied and one unapplied job. *)
Lemma batch_keeps_history_witness :
  List.map url (b_allJobs (@apply_batch unit submit_form steady_host 5 4000%N
                             (mergeJobs [applied_job] two_jobs) (start unit tt)))
  = List.map url (mergeJobs [applied_job] two_jobs)
  /\ In applied_job
        (b_allJobs (@apply_batch unit submit_form steady_host 5 4000%N
                      (mergeJobs [applied_job] two_jobs) (start unit tt))).
Proof.
  apply (@batch_keeps_history unit submit_form steady_host 5 4000%N
           (mergeJobs [applied_job] two_jobs) (start unit tt) applied_job).
  - vm_compute. repeat constructor; simpl; intros Hin.
    + apply list_elem_of_In in Hin. destruct Hin as [Hin | []]. discriminate.
    + apply list_elem_of_In in Hin. destruct Hin.
  - vm_compute. auto.
  - reflexivity.
Defined.

(** X15 -- applied jobs are not retried.  In a catalogue with pairwise
    distinct URLs, a job that is marked as applied is never selected again,
    also when the search finds it again: the merge keeps the existing
    record and drops the fresh one, and the selection skips applied
    records. *)
Theorem applied_jobs_are_not_retried existingJobs freshJobs maxApplications done j :
  NoDup (List.map url existingJobs) ->
  In done existingJobs -> applied done = true ->
  In j (toApply (mergeJobs existingJobs freshJobs) maxApplications) ->
  url j <> url done.
Proof.
  intros Hnd Hdone Ha Hj Heq.
  apply toApply_incl in Hj as [Hin Hun].
  unfold mergeJobs in Hin. apply in_app_iff in Hin as [Hin | Hin].
  - assert (j = done) by (eapply same_url_same_record; eauto). subst j. congruence.
  - rewrite newJobs_genuinely_new in Hin. apply in_genuinely_new in Hin as [_ Hnew].
    apply Hnew. rewrite Heq. now apply in_map.
Qed.

(** The job already applied to is found again by the search. *)
Lemma applied_jobs_are_not_retried_witness :
  url (found "BI Developer" "https://www.seek.com.au/job/2") <> url applied_job.
Proof.
  apply (applied_jobs_are_not_retried [applied_job] two_jobs 5 applied_job).
  - apply NoDup_singleton.
  - now left.
  - reflexivity.
  - vm_compute. auto.
Defined.

(** X16 -- the write-back touches one record.  In a catalogue with
    pairwise distinct URLs, recording the outcome of an attempt on one of its
    jobs leaves the URLs and their order as they are, sets [applied] to the
    outcome and [appliedAt] to the time stamp (or clears it after a failure)
    on the record with the job's URL, and leaves every other record as it
    was. *)
Theorem write_back_touches_one_record allJobs job success stamp :
  NoDup (List.map url allJobs) ->
  In job allJobs ->
  List.map url (record_outcome allJobs (url job) success stamp) = List.map url allJobs
  /\ (forall j, In j (record_outcome allJobs (url job) success stamp) ->
        url j = url job ->
        applied j = success
        /\ appliedAt j = (if success then Some stamp else None)
        /\ title j = title job /\ company j = company job)
  /\ (forall j, In j allJobs -> url j <> url job ->
        In j (record_outcome allJobs (url job) success stamp)).
Proof.
  intros Hnd Hjob. split; [apply record_outcome_urls | split].
  - induction allJobs as [|x rest IH]; simpl in *; [tauto |].
    apply NoDup_cons in Hnd as [Hx Hnd].
    destruct (String.eqb_spec (url x) (url job)) as [Hxu | Hxu].
    + intros j [<- | Hj] Hu; simpl.
      * assert (x = job); [| subst x; auto].
        destruct Hjob as [-> | Hjob]; [reflexivity |].
        exfalso. apply Hx. rewrite Hxu. apply list_elem_of_In, in_map, Hjob.
      * exfalso. apply Hx. rewrite Hxu, <- Hu. apply list_elem_of_In, in_map, Hj.
    + destruct Hjob as [-> | Hjob]; [congruence |].
      intros j [<- | Hj] Hu; [congruence | now apply IH].
  - intros j Hj Hne. now apply record_outcome_other.
Qed.

(** A failed attempt on the second of two jobs. *)
Lemma write_back_touches_one_record_witness :
  List.map url (record_outcome two_jobs "https://www.seek.com.au/job/2" false "2024-05-02T10:00:00.000Z")
  = List.map url two_jobs
  /\ (forall j,
        In j (record_outcome two_jobs "https://www.seek.com.au/job/2" false "2024-05-02T10:00:00.000Z") ->
        url j = "https://www.seek.com.au/job/2" ->
        applied j = false /\ appliedAt j = None
        /\ title j = "BI Developer" /\ company j = "Acme")
  /\ (forall j, In j two_jobs -> url j <> "https://www.seek.com.au/job/2" ->
        In j (record_outcome two_jobs "https://www.seek.com.au/job/2" false "2024-05-02T10:00:00.000Z")).
Proof.
  apply (write_back_touches_one_record two_jobs
           (found "BI Developer" "https://www.seek.com.au/job/2") false "2024-05-02T10:00:00.000Z").
  - vm_compute. repeat constructor; simpl; intros Hin.
    + apply list_elem_of_In in Hin. destruct Hin as [Hin | []]. discriminate.
    + apply list_elem_of_In in Hin. destruct Hin.
  - simpl. auto.
Defined.

(** The first of two jobs, submitted on a form with a submit button. *)
Lemma batch_records_outcomes_witness :
  exists j,
    In j (b_allJobs (@apply_batch unit submit_form steady_host 5 4000%N two_jobs
                       (start unit tt)))
    /\ url j = "https://www.seek.com.au/job/1" /\ applied j = true
    /\ (appliedAt j = None <-> true = false).
Proof.
  apply (@batch_records_outcomes unit submit_form steady_host 5 4000%N two_jobs
           (start unit tt) (found "Data Analyst" "https://www.seek.com.au/job/1")
           (events (@applyToSeekJob unit submit_form
                      (found "Data Analyst" "https://www.seek.com.au/job/1")
                      (start unit tt)))
           true).
  - vm_compute. repeat constructor; simpl; intros Hin.
    + apply list_elem_of_In in Hin. destruct Hin as [Hin | []]. discriminate.
    + apply list_elem_of_In in Hin. destruct Hin.
  - vm_compute. right. left. reflexivity.
Defined.

(** Two jobs on a form with a submit button: both are listed as applied. *)
Lemma summary_counts_successes_witness :
  let run := @apply_batch unit submit_form steady_host 5 4000%N two_jobs
               (start unit tt) in
  let summary := printSummary (current (b_allJobs run) (toApply_refs two_jobs 5)) in
  length (sum_applied summary) = length (List.filter succeeded (b_events run))
  /\ sum_total summary = length (toApply two_jobs 5)
  /\ length (sum_applied summary) + sum_failed summary = length (toApply two_jobs 5).
Proof.
  apply (@summary_counts_successes unit submit_form steady_host 5 4000%N two_jobs
           (start unit tt)).
  - vm_compute. repeat constructor; simpl; intros Hin.
    + apply list_elem_of_In in Hin. destruct Hin as [Hin | []]. discriminate.
    + apply list_elem_of_In in Hin. destruct Hin.
  - vm_compute. reflexivity.
Defined.
